(** * Segment prefetch of Shaka Player

    A shallow embedding of [shaka.media.SegmentPrefetch] and
    [shaka.media.SegmentPrefetchOperation] (lib/media), followed by the
    properties of the prefetch cache.

    Conventions of the embedding.
    - JavaScript objects that are compared by identity ([Map] keys, [===])
      carry an identity token (a [nat]); the token is the only thing the
      comparison looks at.
    - Times and the prefetch limit are JavaScript numbers on which the code
      only performs comparisons and [Math.max]; they are integers here.
    - A JavaScript [Map] is an insertion-ordered table: an association list
      in insertion order.
    - [SegmentPrefetchOperation] objects are mutable and shared between a
      table and the data handler given to the dispatcher: they live in a heap
      and are referred to by address.
    - Calls into the environment (the fetch dispatcher, [abort()] of a pending
      request, the stream data callback) are appended to a trace.
    - A failed [goog.asserts.assert] is reported and the method carries on:
      a method returns together with the messages of the assertions that
      failed on the way. The one method that may fail to return is
      [resetLimit], whose loop does not end for a negative limit. *)

From Stdlib Require Import String Strings.Byte.
From Stdlib Require Import ZArith List Bool Lia Sorted.
Import ListNotations.
Local Open Scope Z_scope.

(** ** Results of methods *)

(** A method returns a value, having reported the assertions that failed on
    the way, or it never returns. *)
Inductive result (A : Type) : Type :=
| Done (reported : list string) (a : A)
| Hangs (reported : list string).

Arguments Done {A} reported a.
Arguments Hangs {A} reported.

(** The method returns and no assertion has failed. *)
Abbreviation Ok a := (Done [] a).

Definition bind {A B : Type} (r : result A) (k : A -> result B) : result B :=
  match r with
  | Done reported a =>
      match k a with
      | Done reported' b => Done (reported ++ reported') b
      | Hangs reported' => Hangs (reported ++ reported')
      end
  | Hangs reported => Hangs reported
  end.

Notation "'do' x <- e ; k" := (bind e (fun x => k))
  (at level 10, x pattern, e at level 100, k at level 200).

(** Modelled from the spec: [goog.asserts.assert(condition, message)], of
    the assertion library, which is not among the sources: the check of a
    precondition. As in the program, a failed assertion is reported with
    its message and the method carries on. *)
Definition assert (condition : bool) (message : string) : result unit :=
  if condition then Ok tt else Done [message] tt.

(** ** The JavaScript [Map], keyed by object identity *)

Module JsMap.
Section Table.
Context {K V : Type}.
(** The identity token of a key object. *)
Variable ident : K -> nat.

Definition same (k k' : K) : bool := Nat.eqb (ident k) (ident k').

Definition t : Type := list (K * V).

Definition size (m : t) : nat := length m.

Fixpoint get (k : K) (m : t) : option V :=
  match m with
  | [] => None
  | (k', v) :: m' => if same k k' then Some v else get k m'
  end.

Definition has (k : K) (m : t) : bool :=
  match get k m with Some _ => true | None => false end.

(** [set] of a key that is present keeps its place in the insertion order;
    a new key goes last. *)
Fixpoint set (k : K) (v : V) (m : t) : t :=
  match m with
  | [] => [(k, v)]
  | (k', v') :: m' =>
      if same k k' then (k', v) :: m' else (k', v') :: set k v m'
  end.

Definition delete (k : K) (m : t) : t :=
  filter (fun e => negb (same k (fst e))) m.

Definition keys (m : t) : list K := map fst m.
Definition values (m : t) : list V := map snd m.

(** No identity occurs twice among the keys. *)
Definition unique (m : t) : Prop := NoDup (map ident (keys m)).

End Table.
End JsMap.

(** ** References, streams and the segment index *)

Definition FetchDispatcher : Type := nat.
Definition PendingRequest : Type := nat.
Definition Callback : Type := nat.
Definition BufferSource : Type := list byte.

(** What becomes of the promise that a stream data callback returns. *)
Inductive Settlement : Type := Resolves | Rejects.

(** Modelled from the spec: [shaka.media.SegmentReference.Status], declared in
    segment_reference.js. *)
Inductive Status : Type := AVAILABLE | UNAVAILABLE | MISSING.

Definition Status_eqb (a b : Status) : bool :=
  match a, b with
  | AVAILABLE, AVAILABLE | UNAVAILABLE, UNAVAILABLE | MISSING, MISSING => true
  | _, _ => false
  end.

(** Modelled from the spec: [shaka.media.InitSegmentReference], declared in
    segment_reference.js; only its identity is used. *)
Record InitSegmentReference : Type := mkInit { init_id : nat }.

(** Modelled from the spec: [shaka.media.SegmentReference], declared in
    segment_reference.js, with the fields and getters that the prefetch code
    reads. *)
Record SegmentReference : Type := mkRef {
  ref_id : nat;
  startTime : Z;
  endTime : Z;
  endByte : option Z;
  getStatus : Status;
  isPreload : bool;
  isPartial : bool;
  isLastPartial : bool;
  initSegmentReference : option InitSegmentReference
}.

(** [reference instanceof shaka.media.InitSegmentReference] or
    [shaka.media.SegmentReference]. *)
Inductive Reference : Type :=
| Media (r : SegmentReference)
| Init (i : InitSegmentReference).

(** Modelled from the spec: [shaka.media.SegmentIndex], declared in
    segment_index.js, as far as the prefetch code calls it. The iterator it
    hands out is the finite sequence of references that [next()] yields. *)
Record SegmentIndex : Type := mkIndex {
  getIteratorForTime : Z -> bool -> option (list SegmentReference)
}.

(** Modelled from the spec: [shaka.extern.Stream], declared in the
    externs, with the fields that the prefetch code reads. [stream_ident]
    is the identity token of the object, which [!==] compares;
    [stream_id] is its field [id]. *)
Record Stream : Type := mkStream {
  stream_ident : nat;
  stream_id : nat;
  stream_type : string;
  fastSwitching : bool;
  segmentIndex : option SegmentIndex
}.

(** [iterator.next().value]: the next reference, or [undefined]. *)
Definition next (iterator : list SegmentReference)
  : option SegmentReference * list SegmentReference :=
  match iterator with
  | [] => (None, [])
  | r :: rest => (Some r, rest)
  end.

(** ** The environment and the heap *)

(** [Fetch]: the dispatcher [d] was called and returned the request [p].
    [Abort]: [p.abort()] was called.  [Deliver]: the stream data callback was
    called.  [Visit] is a history marker written by the scanning loop of
    [prefetchSegmentsByTime] when its body runs for a reference; nothing
    reads the trace. *)
Inductive Event : Type :=
| Fetch (d : FetchDispatcher) (r : Reference) (stream : nat) (p : PendingRequest)
| Abort (p : PendingRequest)
| Deliver (cb : Callback) (data : BufferSource)
| Visit (r : SegmentReference).

(** The fields of a [SegmentPrefetchOperation] object. [buffered] is the
    local variable of [dispatchFetch] that the data handler closes over. *)
Module OperationObject.

Record t : Type := mk {
  fetchDispatcher_ : FetchDispatcher;
  streamDataCallback_ : option Callback;
  operation_ : option PendingRequest;
  buffered : BufferSource
}.

Definition set_fetchDispatcher_ (v : FetchDispatcher) (o : t) : t :=
  mk v (streamDataCallback_ o) (operation_ o) (buffered o).

Definition set_streamDataCallback_ (v : option Callback) (o : t) : t :=
  mk (fetchDispatcher_ o) v (operation_ o) (buffered o).

Definition set_operation_ (v : option PendingRequest) (o : t) : t :=
  mk (fetchDispatcher_ o) (streamDataCallback_ o) v (buffered o).

Definition set_buffered (v : BufferSource) (o : t) : t :=
  mk (fetchDispatcher_ o) (streamDataCallback_ o) (operation_ o) v.

End OperationObject.

Definition Addr : Type := nat.

Record World : Type := mkWorld {
  requests : nat;
  trace : list Event;
  heap : list OperationObject.t
}.

Definition emit (e : Event) (w : World) : World :=
  {| requests := requests w; trace := trace w ++ [e]; heap := heap w |}.

(** Calling a [FetchDispatcher]: it returns a new pending request. *)
Definition callDispatcher (d : FetchDispatcher) (r : Reference) (s : Stream)
    (w : World) : PendingRequest * World :=
  (requests w,
   {| requests := S (requests w);
      trace := trace w ++ [Fetch d r (stream_id s) (requests w)];
      heap := heap w |}).

Definition deref (a : Addr) (w : World) : option OperationObject.t :=
  nth_error (heap w) a.

Fixpoint update {A : Type} (n : nat) (f : A -> A) (l : list A) : list A :=
  match l, n with
  | [], _ => []
  | x :: l', O => f x :: l'
  | x :: l', S n' => x :: update n' f l'
  end.

(** Assignment to fields of the object at [a]. *)
Definition modify (a : Addr) (f : OperationObject.t -> OperationObject.t)
    (w : World) : World :=
  {| requests := requests w; trace := trace w; heap := update a f (heap w) |}.

(** A new object. *)
Definition alloc (o : OperationObject.t) (w : World) : Addr * World :=
  (length (heap w),
   {| requests := requests w; trace := trace w; heap := heap w ++ [o] |}).

(** ** [shaka.media.SegmentPrefetchOperation] *)

Module SegmentPrefetchOperation.

Import OperationObject.

(** [this] is the address of the object. *)
Abbreviation t := Addr.

Definition constructor (fetchDispatcher : FetchDispatcher) (w : World)
  : t * World :=
  alloc {| fetchDispatcher_ := fetchDispatcher;
           streamDataCallback_ := None;
           operation_ := None;
           buffered := [] |} w.

Definition replaceFetchDispatcher (fetchDispatcher : FetchDispatcher)
    (this : t) (w : World) : World :=
  modify this (set_fetchDispatcher_ fetchDispatcher) w.

Definition dispatchFetch (reference : Reference) (stream : Stream)
    (this : t) (w : World) : World :=
  match deref this w with
  | Some o =>
      let w := modify this (set_buffered []) w in
      let '(operation, w) :=
        callDispatcher (fetchDispatcher_ o) reference stream w in
      modify this (set_operation_ (Some operation)) w
  | None => w
  end.

(** The handler passed to the dispatcher, run for one chunk [data]. The
    dispatcher issues the next chunk only when the handler has completed,
    so a run is not interleaved with another. [settlement] is what becomes
    of the promise of the stream data callback that the handler awaits:
    when it is rejected, the handler ends there. *)
Definition onData (data : BufferSource) (settlement : Settlement) (this : t)
    (w : World) : World :=
  match deref this w with
  | Some o =>
      let buffered' :=
        if (0 <? length (buffered o))%nat
        then buffered o ++ data
        else data in
      let w := modify this (set_buffered buffered') w in
      match streamDataCallback_ o with
      | Some cb =>
          let w := emit (Deliver cb buffered') w in
          match settlement with
          | Resolves => modify this (set_buffered []) w
          | Rejects => w
          end
      | None => w
      end
  | None => w
  end.

Definition getOperation (this : t) (w : World) : option PendingRequest :=
  match deref this w with
  | Some o => operation_ o
  | None => None
  end.

Definition setStreamDataCallback (streamDataCallback : option Callback)
    (this : t) (w : World) : World :=
  modify this (set_streamDataCallback_ streamDataCallback) w.

Definition abort (this : t) (w : World) : World :=
  match deref this w with
  | Some o =>
      match operation_ o with
      | Some p => emit (Abort p) w
      | None => w
      end
  | None => w
  end.

(** The chunks of [chunks] arrive one after the other, each with what
    becomes of its delivery. *)
Definition onDataAll (chunks : list (BufferSource * Settlement)) (this : t)
    (w : World) : World :=
  fold_left (fun w chunk => onData (fst chunk) (snd chunk) this w) chunks w.

End SegmentPrefetchOperation.

(** ** [shaka.media.SegmentPrefetch] *)

Module SegmentPrefetch.

Module Operation := SegmentPrefetchOperation.

Record t : Type := mk {
  prefetchLimit_ : Z;
  stream_ : Stream;
  prefetchPosTime_ : Z;
  fetchDispatcher_ : FetchDispatcher;
  deleteOnGet_ : bool;
  segmentPrefetchMap_ : @JsMap.t SegmentReference Operation.t;
  initSegmentPrefetchMap_ : @JsMap.t InitSegmentReference Operation.t
}.

(** The object together with the environment it acts on. *)
Definition state : Type := (t * World)%type.

Definition constructor (prefetchLimit : Z) (stream : Stream)
    (fetchDispatcher : FetchDispatcher) (deleteOnGet : bool) : t :=
  {| prefetchLimit_ := prefetchLimit;
     stream_ := stream;
     prefetchPosTime_ := 0;
     fetchDispatcher_ := fetchDispatcher;
     deleteOnGet_ := deleteOnGet;
     segmentPrefetchMap_ := [];
     initSegmentPrefetchMap_ := [] |}.

(** Field assignments. *)
Definition set_prefetchLimit_ (v : Z) (this : t) : t :=
  mk v (stream_ this) (prefetchPosTime_ this) (fetchDispatcher_ this)
     (deleteOnGet_ this) (segmentPrefetchMap_ this)
     (initSegmentPrefetchMap_ this).

Definition set_stream_ (v : Stream) (this : t) : t :=
  mk (prefetchLimit_ this) v (prefetchPosTime_ this) (fetchDispatcher_ this)
     (deleteOnGet_ this) (segmentPrefetchMap_ this)
     (initSegmentPrefetchMap_ this).

Definition set_prefetchPosTime_ (v : Z) (this : t) : t :=
  mk (prefetchLimit_ this) (stream_ this) v (fetchDispatcher_ this)
     (deleteOnGet_ this) (segmentPrefetchMap_ this)
     (initSegmentPrefetchMap_ this).

Definition set_fetchDispatcher_ (v : FetchDispatcher) (this : t) : t :=
  mk (prefetchLimit_ this) (stream_ this) (prefetchPosTime_ this) v
     (deleteOnGet_ this) (segmentPrefetchMap_ this)
     (initSegmentPrefetchMap_ this).

Definition set_deleteOnGet_ (v : bool) (this : t) : t :=
  mk (prefetchLimit_ this) (stream_ this) (prefetchPosTime_ this)
     (fetchDispatcher_ this) v (segmentPrefetchMap_ this)
     (initSegmentPrefetchMap_ this).

Definition set_segmentPrefetchMap_ (v : @JsMap.t SegmentReference Operation.t)
    (this : t) : t :=
  mk (prefetchLimit_ this) (stream_ this) (prefetchPosTime_ this)
     (fetchDispatcher_ this) (deleteOnGet_ this) v
     (initSegmentPrefetchMap_ this).

Definition set_initSegmentPrefetchMap_
    (v : @JsMap.t InitSegmentReference Operation.t) (this : t) : t :=
  mk (prefetchLimit_ this) (stream_ this) (prefetchPosTime_ this)
     (fetchDispatcher_ this) (deleteOnGet_ this) (segmentPrefetchMap_ this) v.

Definition limitMessage : string :=
  "SegmentPrefetch can not be used when prefetchLimit <= 0."%string.

Definition replaceFetchDispatcher (fetchDispatcher : FetchDispatcher)
    (s : state) : state :=
  let this := set_fetchDispatcher_ fetchDispatcher (fst s) in
  (this,
   fold_left
     (fun w operation =>
        Operation.replaceFetchDispatcher fetchDispatcher operation w)
     (JsMap.values (segmentPrefetchMap_ this)) (snd s)).

Definition getLastKnownPosition (s : state) : Z := prefetchPosTime_ (fst s).

Definition getStream (s : state) : Stream := stream_ (fst s).

(** The body of [abortPrefetchedSegment_] on the table [prefetchMap] that
    the kind of [reference] selects. *)
Definition abortIn {K : Type} (ident : K -> nat) (reference : K)
    (prefetchMap : @JsMap.t K Operation.t) (w : World)
  : @JsMap.t K Operation.t * World :=
  let segmentPrefetchOperation := JsMap.get ident reference prefetchMap in
  let prefetchMap := JsMap.delete ident reference prefetchMap in
  match segmentPrefetchOperation with
  | Some operation => (prefetchMap, Operation.abort operation w)
  | None => (prefetchMap, w)
  end.

Definition abortPrefetchedSegment_ (reference : Reference) (s : state)
  : state :=
  match reference with
  | Init i =>
      let '(prefetchMap, w) :=
        abortIn init_id i (initSegmentPrefetchMap_ (fst s)) (snd s) in
      (set_initSegmentPrefetchMap_ prefetchMap (fst s), w)
  | Media r =>
      let '(prefetchMap, w) :=
        abortIn ref_id r (segmentPrefetchMap_ (fst s)) (snd s) in
      (set_segmentPrefetchMap_ prefetchMap (fst s), w)
  end.

(** A loop [for (const k of map.keys())] whose body deletes at most the key
    it is visiting runs once for every key the table held when the loop
    began, in insertion order. *)
Definition forKeys {K : Type} (keys : list K) (body : K -> state -> state)
    (s : state) : state :=
  fold_left (fun s k => body k s) keys s.

(** [segmentReference.initSegmentReference === initSegmentReference]. *)
Definition refersTo (initReference : InitSegmentReference)
    (segmentReference : SegmentReference) : bool :=
  match initSegmentReference segmentReference with
  | Some i => Nat.eqb (init_id i) (init_id initReference)
  | None => false
  end.

Definition clearInitSegments_ (s : state) : state :=
  let segmentReferences := JsMap.keys (segmentPrefetchMap_ (fst s)) in
  forKeys (JsMap.keys (initSegmentPrefetchMap_ (fst s)))
    (fun initSegmentReference s =>
       if negb (existsb (refersTo initSegmentReference) segmentReferences)
       then abortPrefetchedSegment_ (Init initSegmentReference) s
       else s)
    s.

Definition prefetchInitSegment (initSegmentReference : InitSegmentReference)
    (s : state) : result state :=
  do _ <- assert (prefetchLimit_ (fst s) >? 0) limitMessage;
  match segmentIndex (stream_ (fst s)) with
  | None => Ok s
  | Some _ =>
      if negb (JsMap.has init_id initSegmentReference
                 (initSegmentPrefetchMap_ (fst s)))
      then
        let '(segmentPrefetchOperation, w) :=
          Operation.constructor (fetchDispatcher_ (fst s)) (snd s) in
        let w :=
          Operation.dispatchFetch (Init initSegmentReference)
            (stream_ (fst s)) segmentPrefetchOperation w in
        Ok (set_initSegmentPrefetchMap_
              (JsMap.set init_id initSegmentReference segmentPrefetchOperation
                 (initSegmentPrefetchMap_ (fst s))) (fst s), w)
      else Ok s
  end.

(** The [while] loop of [prefetchSegmentsByTime]: the head of [references]
    is the variable [reference], the tail is what the iterator still yields;
    the empty list stands for [reference == null]. *)
Fixpoint scan (references : list SegmentReference) (s : state)
  : result state :=
  match references with
  | [] => Ok s
  | reference :: iterator =>
      if Z.of_nat (JsMap.size (segmentPrefetchMap_ (fst s)))
         <? prefetchLimit_ (fst s)
      then
        (* history marker: the body runs for [reference] *)
        let s := (fst s, emit (Visit reference) (snd s)) in
        let prefetchAllowed := true in
        let prefetchAllowed :=
          if isPreload reference
             && match endByte reference with Some _ => true | None => false end
          then false else prefetchAllowed in
        let prefetchAllowed :=
          if Status_eqb (getStatus reference) MISSING
          then false else prefetchAllowed in
        do s <- match initSegmentReference reference with
                | Some i => if prefetchAllowed
                            then prefetchInitSegment i s else Ok s
                | None => Ok s
                end;
        let s :=
          if prefetchAllowed
             && negb (JsMap.has ref_id reference
                        (segmentPrefetchMap_ (fst s)))
          then
            let '(segmentPrefetchOperation, w) :=
              Operation.constructor (fetchDispatcher_ (fst s)) (snd s) in
            let w :=
              Operation.dispatchFetch (Media reference) (stream_ (fst s))
                segmentPrefetchOperation w in
            (set_segmentPrefetchMap_
               (JsMap.set ref_id reference segmentPrefetchOperation
                  (segmentPrefetchMap_ (fst s))) (fst s), w)
          else s in
        let s := (set_prefetchPosTime_ (startTime reference) (fst s), snd s) in
        if fastSwitching (stream_ (fst s))
           && isPartial reference && isLastPartial reference
        then Ok s
        else scan iterator s
      else Ok s
  end.

Definition prefetchSegmentsByTime (currTime : Z) (skipFirst : bool)
    (s : state) : result state :=
  do _ <- assert (prefetchLimit_ (fst s) >? 0) limitMessage;
  match segmentIndex (stream_ (fst s)) with
  | None => Ok s
  | Some index =>
      let maxTime := Z.max currTime (prefetchPosTime_ (fst s)) in
      match getIteratorForTime index maxTime true with
      | None => Ok s
      | Some iterator =>
          let '(reference, iterator) := next iterator in
          let '(reference, iterator) :=
            if skipFirst then next iterator else (reference, iterator) in
          match reference with
          | None => Ok s
          | Some reference =>
              do s <- scan (reference :: iterator) s;
              Ok (clearInitSegments_ s)
          end
      end
  end.

(** The body of [getPrefetchedSegment] on the table [prefetchMap] that the
    kind of [reference] selects; [has] and [get] are one lookup. *)
Definition getIn {K : Type} (ident : K -> nat) (reference : K)
    (streamDataCallback : option Callback) (deleteOnGet : bool)
    (prefetchMap : @JsMap.t K Operation.t) (w : World)
  : option PendingRequest * @JsMap.t K Operation.t * World :=
  match JsMap.get ident reference prefetchMap with
  | Some segmentPrefetchOperation =>
      let w :=
        match streamDataCallback with
        | Some _ =>
            Operation.setStreamDataCallback streamDataCallback
              segmentPrefetchOperation w
        | None => w
        end in
      let prefetchMap :=
        if deleteOnGet then JsMap.delete ident reference prefetchMap
        else prefetchMap in
      (Operation.getOperation segmentPrefetchOperation w, prefetchMap, w)
  | None => (None, prefetchMap, w)
  end.

Definition getPrefetchedSegment (reference : Reference)
    (streamDataCallback : option Callback) (s : state)
  : result (option PendingRequest * state) :=
  do _ <- assert (prefetchLimit_ (fst s) >? 0) limitMessage;
  match reference with
  | Init i =>
      let '(op, prefetchMap, w) :=
        getIn init_id i streamDataCallback (deleteOnGet_ (fst s))
          (initSegmentPrefetchMap_ (fst s)) (snd s) in
      Ok (op, (set_initSegmentPrefetchMap_ prefetchMap (fst s), w))
  | Media r =>
      let '(op, prefetchMap, w) :=
        getIn ref_id r streamDataCallback (deleteOnGet_ (fst s))
          (segmentPrefetchMap_ (fst s)) (snd s) in
      Ok (op, (set_segmentPrefetchMap_ prefetchMap (fst s), w))
  end.

(** [clearMap_], for each of the two tables. The keys are objects, so the
    test [if (reference)] holds for each of them. *)
Definition clearMap_ (keys : list Reference) (s : state) : state :=
  forKeys keys (fun reference s => abortPrefetchedSegment_ reference s) s.

Definition clearAll (s : state) : state :=
  let s := clearMap_ (map Media (JsMap.keys (segmentPrefetchMap_ (fst s)))) s in
  let s :=
    clearMap_ (map Init (JsMap.keys (initSegmentPrefetchMap_ (fst s)))) s in
  (set_prefetchPosTime_ 0 (fst s), snd s).

Definition evict (time : Z) (s : state) : state :=
  let s :=
    forKeys (JsMap.keys (segmentPrefetchMap_ (fst s)))
      (fun ref s =>
         if time >? endTime ref
         then abortPrefetchedSegment_ (Media ref) s else s)
      s in
  clearInitSegments_ s.

(** The [while] loop of [resetLimit]. [keyArr] is held last element first,
    so that [keyArr.pop()] takes its head; what it pops is an object, so the
    test [if (reference)] holds. From the empty array [pop()] takes
    [undefined] and leaves the array empty: if the test of the loop holds
    then, it holds for ever. *)
Fixpoint shrink (keyArr : list SegmentReference) (newPrefetchLimit : Z)
    (s : state) : result state :=
  if Z.of_nat (length keyArr) >? newPrefetchLimit
  then
    match keyArr with
    | [] => Hangs []
    | reference :: rest =>
        shrink rest newPrefetchLimit
          (abortPrefetchedSegment_ (Media reference) s)
    end
  else Ok s.

Definition resetLimit (newPrefetchLimit : Z) (s : state) : result state :=
  do _ <- assert (newPrefetchLimit >=? 0)
            "The new prefetch limit must be >= 0."%string;
  let s := (set_prefetchLimit_ newPrefetchLimit (fst s), snd s) in
  let keyArr := JsMap.keys (segmentPrefetchMap_ (fst s)) in
  do s <- shrink (rev keyArr) newPrefetchLimit s;
  Ok (clearInitSegments_ s).

Definition deleteOnGet (newDeleteOnGet : bool) (s : state) : state :=
  (set_deleteOnGet_ newDeleteOnGet (fst s), snd s).

Definition switchStream (stream : option Stream) (s : state) : result state :=
  do _ <- assert (deleteOnGet_ (fst s))
            "switchStream should only be used if deleteOnGet is true"%string;
  match stream with
  | Some stream =>
      if negb (Nat.eqb (stream_ident stream)
                 (stream_ident (stream_ (fst s))))
      then
        let s := clearAll s in
        Ok (set_stream_ stream (fst s), snd s)
      else Ok s
  | None => Ok s
  end.

(** *** Sequences of calls *)

Inductive Call : Type :=
| ReplaceFetchDispatcher (fetchDispatcher : FetchDispatcher)
| PrefetchSegmentsByTime (currTime : Z) (skipFirst : bool)
| PrefetchInitSegment (initSegmentReference : InitSegmentReference)
| GetPrefetchedSegment (reference : Reference)
    (streamDataCallback : option Callback)
| ClearAll
| Evict (time : Z)
| ResetLimit (newPrefetchLimit : Z)
| DeleteOnGet (newDeleteOnGet : bool)
| SwitchStream (stream : option Stream).

Definition exec (c : Call) (s : state) : result state :=
  match c with
  | ReplaceFetchDispatcher d => Ok (replaceFetchDispatcher d s)
  | PrefetchSegmentsByTime currTime skipFirst =>
      prefetchSegmentsByTime currTime skipFirst s
  | PrefetchInitSegment i => prefetchInitSegment i s
  | GetPrefetchedSegment reference cb =>
      do r <- getPrefetchedSegment reference cb s; Ok (snd r)
  | ClearAll => Ok (clearAll s)
  | Evict time => Ok (evict time s)
  | ResetLimit n => resetLimit n s
  | DeleteOnGet b => Ok (deleteOnGet b s)
  | SwitchStream stream => switchStream stream s
  end.

(** The calls are made one after the other, each when the one before it
    has returned. *)
Fixpoint run (calls : list Call) (s : state) : result state :=
  match calls with
  | [] => Ok s
  | c :: rest => do s <- exec c s; run rest s
  end.

Definition initial (prefetchLimit : Z) (stream : Stream)
    (fetchDispatcher : FetchDispatcher) (deleteOnGet : bool) : state :=
  (constructor prefetchLimit stream fetchDispatcher deleteOnGet,
   {| requests := 0; trace := []; heap := [] |}).

End SegmentPrefetch.

Import SegmentPrefetch.

(** ** Vocabulary of the properties *)

Abbreviation segments s := (segmentPrefetchMap_ (fst s)).

Abbreviation inits s := (initSegmentPrefetchMap_ (fst s)).

(** The environment after the calls [events]. *)
Definition emits (events : list Event) (w : World) : World :=
  {| requests := requests w; trace := trace w ++ events; heap := heap w |}.

(** The [abort()] calls that aborting [operations], in this order, makes on
    their pending requests. *)
Definition abortEvents (h : list OperationObject.t) (operations : list Addr)
  : list Event :=
  flat_map
    (fun a =>
       match nth_error h a with
       | Some o =>
           match OperationObject.operation_ o with
           | Some p => [Abort p]
           | None => []
           end
       | None => []
       end)
    operations.

(** The object at [a] is an operation that has been dispatched: it holds a
    pending request. *)
Definition dispatched (h : list OperationObject.t) (a : Addr) : Prop :=
  exists o p,
    nth_error h a = Some o /\ OperationObject.operation_ o = Some p.

(** What holds of the two tables on the heap [h] in every state that calls
    can reach: keys are unique, every stored operation is an object of the
    heap that has been dispatched, and no object is stored twice. *)
Record tables_wf (segs : @JsMap.t SegmentReference Addr)
    (ins : @JsMap.t InitSegmentReference Addr)
    (h : list OperationObject.t) : Prop := mkWf {
  wf_segments : JsMap.unique ref_id segs;
  wf_inits : JsMap.unique init_id ins;
  wf_alloc_segments : Forall (dispatched h) (JsMap.values segs);
  wf_alloc_inits : Forall (dispatched h) (JsMap.values ins);
  wf_sep_segments : NoDup (JsMap.values segs);
  wf_sep_inits : NoDup (JsMap.values ins);
  wf_sep : forall a, In a (JsMap.values segs) -> ~ In a (JsMap.values ins)
}.

Definition wf (s : state) : Prop :=
  tables_wf (segments s) (inits s) (heap (snd s)).

(** The media-segment table is within the limit. *)
Definition bounded (s : state) : Prop :=
  Z.of_nat (JsMap.size (segments s)) <= Z.max 0 (prefetchLimit_ (fst s)).

(** What every call maintains. *)
Definition invariant (s : state) : Prop := wf s /\ bounded s.

(** The loop of [clearMap_], [evict] and [clearInitSegments_] on one table:
    every key of [keys] that satisfies [p] is aborted. *)
Definition sweep {K : Type} (ident : K -> nat) (p : K -> bool)
    (keys : list K) (mw : @JsMap.t K Addr * World) : @JsMap.t K Addr * World :=
  fold_left
    (fun mw k => if p k then abortIn ident k (fst mw) (snd mw) else mw)
    keys mw.

(** The init segment of the entry [e] is the [initSegmentReference] of a key
    of the media-segment table [m]. *)
Definition referenced (m : @JsMap.t SegmentReference Addr)
    (e : InitSegmentReference * Addr) : bool :=
  existsb (refersTo (fst e)) (JsMap.keys m).

(** The media-segment entry [e] ends before [time]. *)
Definition passed (time : Z) (e : SegmentReference * Addr) : bool :=
  time >? endTime (fst e).

(** The state in which every init-segment entry that no key of the
    media-segment table refers to has been aborted and removed. *)
Definition pruneInits (s : state) : state :=
  (set_initSegmentPrefetchMap_
     (filter (referenced (segments s)) (inits s)) (fst s),
   emits
     (abortEvents (heap (snd s))
        (JsMap.values
           (filter (fun e => negb (referenced (segments s) e)) (inits s))))
     (snd s)).

(** The environment after a new operation has been created with the
    dispatcher [d] and dispatched for [r]. *)
Definition fetched (d : FetchDispatcher) (r : Reference) (st : Stream)
    (w : World) : World :=
  {| requests := S (requests w);
     trace := trace w ++ [Fetch d r (stream_id st) (requests w)];
     heap := heap w ++ [OperationObject.mk d None (Some (requests w)) []] |}.

(** [prefetchInitSegment] once its assertion has passed. *)
Definition withInit (i : InitSegmentReference) (s : state) : state :=
  match segmentIndex (stream_ (fst s)) with
  | None => s
  | Some _ =>
      if JsMap.has init_id i (inits s) then s
      else
        (set_initSegmentPrefetchMap_
           (inits s ++ [(i, length (heap (snd s)))]) (fst s),
         fetched (fetchDispatcher_ (fst s)) (Init i) (stream_ (fst s)) (snd s))
  end.

(** The dispatch of a media segment that is not in its table. *)
Definition withSegment (r : SegmentReference) (s : state) : state :=
  if JsMap.has ref_id r (segments s) then s
  else
    (set_segmentPrefetchMap_
       (segments s ++ [(r, length (heap (snd s)))]) (fst s),
     fetched (fetchDispatcher_ (fst s)) (Media r) (stream_ (fst s)) (snd s)).

(** [prefetchAllowed], as the scanning loop computes it. *)
Definition allowed (reference : SegmentReference) : bool :=
  negb (isPreload reference
        && match endByte reference with Some _ => true | None => false end)
  && negb (Status_eqb (getStatus reference) MISSING).

(** One run of the body of the scanning loop. *)
Definition body (reference : SegmentReference) (s : state) : state :=
  let s := (fst s, emit (Visit reference) (snd s)) in
  let s :=
    match initSegmentReference reference with
    | Some i => if allowed reference then withInit i s else s
    | None => s
    end in
  let s := if allowed reference then withSegment reference s else s in
  (set_prefetchPosTime_ (startTime reference) (fst s), snd s).

(** The loop stops after a last partial segment of a fast-switching
    stream. *)
Definition stops (reference : SegmentReference) (s : state) : bool :=
  fastSwitching (stream_ (fst s))
  && isPartial reference && isLastPartial reference.

(** The table entry of a reference of either kind. *)
Definition lookup (reference : Reference) (s : state) : option Addr :=
  match reference with
  | Media r => JsMap.get ref_id r (segments s)
  | Init i => JsMap.get init_id i (inits s)
  end.


(** An event that a scan may add to the trace of [s]: a visit, or the
    dispatch of a reference that had no entry in [s]. *)
Definition novel (s : state) (e : Event) : Prop :=
  match e with
  | Visit _ => True
  | Fetch _ (Media r) _ _ => JsMap.get ref_id r (segments s) = None
  | Fetch _ (Init i) _ _ => JsMap.get init_id i (inits s) = None
  | Abort _ | Deliver _ _ => False
  end.

(** The reference [r] is scanned or dispatched in [events]. *)
Definition mentions (r : SegmentReference) (events : list Event) : Prop :=
  In (Visit r) events \/ exists d st p, In (Fetch d (Media r) st p) events.

(** *** The contract of the segment index *)

(** Some iterator of the index yields [r]. *)
Definition yields (index : SegmentIndex) (r : SegmentReference) : Prop :=
  exists time allow iterator,
    getIteratorForTime index time allow = Some iterator /\ In r iterator.

(** An iterator asked for at a time [p] or later yields no reference that
    starts before [p]. *)
Definition forward (index : SegmentIndex) (p : Z) : Prop :=
  forall time allow iterator r,
    p <= time ->
    getIteratorForTime index time allow = Some iterator ->
    In r iterator -> p <= startTime r.

(** Modelled from the spec: what [getIteratorForTime] of
    [shaka.media.SegmentIndex] (segment_index.js, not among the sources)
    returns. The index hands out its references in the order of their start
    times, forward in time: a scan that resumes at or after the start of a
    reference it has yielded does not go back before that reference, and no
    reference starts before time 0. An index whose iterator for [time]
    begins with the segment that contains [time] satisfies it, and so does
    one whose iterator for [time] only yields references starting at or
    after [time]. *)
Record index_contract (index : SegmentIndex) : Prop := mkContract {
  contract_ordered :
    forall time allow iterator,
      getIteratorForTime index time allow = Some iterator ->
      StronglySorted (fun a b => startTime a <= startTime b) iterator;
  contract_origin : forward index 0;
  contract_forward : forall r, yields index r -> forward index (startTime r)
}.

Definition stream_contract (stream : Stream) : Prop :=
  match segmentIndex stream with
  | Some index => index_contract index
  | None => True
  end.

(** The streams handed to [switchStream] obey the contract. *)
Definition call_contract (c : Call) : Prop :=
  match c with
  | SwitchStream (Some stream) => stream_contract stream
  | _ => True
  end.

(** The call [c], made in the state [s], runs [clearAll]: it is [clearAll]
    itself, or a [switchStream] to another stream object. *)
Definition clears (c : Call) (s : state) : bool :=
  match c with
  | ClearAll => true
  | SwitchStream (Some stream) =>
      negb (Nat.eqb (stream_ident stream) (stream_ident (stream_ (fst s))))
  | _ => false
  end.

(** None of the calls, made one after the other from the state [s], runs
    [clearAll]. *)
Fixpoint steady (calls : list Call) (s : state) : bool :=
  match calls with
  | [] => true
  | c :: rest =>
      negb (clears c s)
      && match exec c s with
         | Done _ s' => steady rest s'
         | Hangs _ => true
         end
  end.

(** The position is one from which the index of the stream scans forward. *)
Definition position_ok (s : state) : Prop :=
  stream_contract (stream_ (fst s))
  /\ match segmentIndex (stream_ (fst s)) with
     | Some index => forward index (prefetchPosTime_ (fst s))
     | None => True
     end.

(** The position is at or beyond the start of every reference that the
    media-segment table holds. *)
Definition below (s : state) : Prop :=
  forall r a, In (r, a) (segments s) -> startTime r <= prefetchPosTime_ (fst s).

(** Field accesses after field assignments. *)
Ltac simp_state :=
  cbn [fst snd prefetchLimit_ stream_ prefetchPosTime_ fetchDispatcher_
       deleteOnGet_ segmentPrefetchMap_ initSegmentPrefetchMap_
       set_prefetchLimit_ set_stream_ set_prefetchPosTime_
       set_fetchDispatcher_ set_deleteOnGet_ set_segmentPrefetchMap_
       set_initSegmentPrefetchMap_ requests trace heap emits] in *.

(** ** A concrete stream: the scenario of three segments *)

Module Scenario.

Definition I1 : InitSegmentReference := {| init_id := 100 |}.

Definition segment (id : nat) (startTime endTime : Z)
    (init : option InitSegmentReference) : SegmentReference :=
  {| ref_id := id; startTime := startTime; endTime := endTime;
     endByte := None; getStatus := AVAILABLE; isPreload := false;
     isPartial := false; isLastPartial := false;
     initSegmentReference := init |}.

Definition R1 : SegmentReference := segment 1 0 2 (Some I1).
Definition R2 : SegmentReference := segment 2 2 4 (Some I1).
Definition R3 : SegmentReference := segment 3 4 6 None.

(** The iterator for [time] starts at the segment that contains [time]. *)
Definition index : SegmentIndex :=
  {| getIteratorForTime := fun time _ =>
       Some (filter (fun r => time <? endTime r) [R1; R2; R3]) |}.

Definition video : Stream :=
  {| stream_ident := 70; stream_id := 7; stream_type := "video"%string;
     fastSwitching := false; segmentIndex := Some index |}.

Definition start (prefetchLimit : Z) : state :=
  initial prefetchLimit video 0%nat true.

(** The state after [prefetchSegmentsByTime(0)] at limit 2: the entries of
    [R1] and [R2], and of their init segment. *)
Definition loaded : state :=
  ({| prefetchLimit_ := 2; stream_ := video; prefetchPosTime_ := 2;
      fetchDispatcher_ := 0%nat; deleteOnGet_ := true;
      segmentPrefetchMap_ := [(R1, 1%nat); (R2, 2%nat)];
      initSegmentPrefetchMap_ := [(I1, 0%nat)] |},
   {| requests := 3;
      trace := [Visit R1; Fetch 0%nat (Init I1) 7%nat 0%nat;
                Fetch 0%nat (Media R1) 7%nat 1%nat;
                Visit R2; Fetch 0%nat (Media R2) 7%nat 2%nat];
      heap := [OperationObject.mk 0%nat None (Some 0%nat) [];
               OperationObject.mk 0%nat None (Some 1%nat) [];
               OperationObject.mk 0%nat None (Some 2%nat) []] |}).

(** The cache after [resetLimit(0)]: empty, with limit 0. *)
Definition closed : state :=
  (set_initSegmentPrefetchMap_ []
     (set_segmentPrefetchMap_ [] (set_prefetchLimit_ 0 (fst loaded))),
   emits [Abort 2%nat; Abort 1%nat; Abort 0%nat] (snd loaded)).

(** An operation at address 0 that has been dispatched for [R1] and has
    buffered two chunks before any callback is attached. *)
Definition fetching : World :=
  let '(this, w) :=
    Operation.constructor 0%nat {| requests := 0; trace := []; heap := [] |} in
  Operation.dispatchFetch (Media R1) video this w.

Definition buffering : World :=
  Operation.onDataAll [([x01], Resolves); ([x02], Resolves)] 0%nat fetching.

End Scenario.

(** ** Vocabulary of the further properties *)

(** The references for which the body of the scanning loop runs. *)
Fixpoint visited (references : list SegmentReference) (s : state)
  : list SegmentReference :=
  match references with
  | [] => []
  | r :: rest =>
      if Z.of_nat (JsMap.size (segments s)) <? prefetchLimit_ (fst s)
      then r :: (if stops r (body r s) then [] else visited rest (body r s))
      else []
  end.

(** The body of the scanning loop, run for each reference of [rs]. *)
Definition bodies (rs : list SegmentReference) (s : state) : state :=
  fold_left (fun s r => body r s) rs s.

(** What a method that asserts the limit reports. *)
Definition limitReport (s : state) : list string :=
  if prefetchLimit_ (fst s) >? 0 then [] else [limitMessage].

(** The state in which [prefetchSegmentsByTime] leaves the cache. *)
Definition scanned (currTime : Z) (skipFirst : bool) (s : state) : state :=
  match segmentIndex (stream_ (fst s)) with
  | None => s
  | Some index =>
      match getIteratorForTime index
              (Z.max currTime (prefetchPosTime_ (fst s))) true with
      | None => s
      | Some iterator =>
          match (if skipFirst then tl iterator else iterator) with
          | [] => s
          | r :: rest => clearInitSegments_ (bodies (visited (r :: rest) s) s)
          end
      end
  end.

(** Of the payloads delivered, one per settlement, those whose delivery
    resolved. *)
Definition acknowledged (payloads : list BufferSource)
    (settlements : list Settlement) : list BufferSource :=
  flat_map (fun x => match snd x with
                     | Resolves => [fst x]
                     | Rejects => []
                     end)
    (combine payloads settlements).

(** The references that the events mark as visited, in order. *)
Definition visits (events : list Event) : list SegmentReference :=
  flat_map (fun e => match e with Visit r => [r] | _ => [] end) events.

(** A reference that the scanning loop may dispatch: not a preload
    reference with a byte range end, and not missing. *)
Definition eligible (r : SegmentReference) : Prop :=
  (isPreload r = true -> endByte r = None) /\ getStatus r <> MISSING.

(** The event [e] is a dispatch made for the visited reference [r] with the
    dispatcher and the stream of [s]: of [r] itself, or of its init
    segment. *)
Definition dispatchFor (r : SegmentReference) (s : state) (e : Event) : Prop :=
  exists p,
    eligible r
    /\ (e = Fetch (fetchDispatcher_ (fst s)) (Media r)
              (stream_id (stream_ (fst s))) p
        \/ exists i,
             initSegmentReference r = Some i
             /\ e = Fetch (fetchDispatcher_ (fst s)) (Init i)
                      (stream_id (stream_ (fst s))) p).

(** What [getOperation()] returns for each of the operations, in order. *)
Definition requestsOf (w : World) (operations : list Addr)
  : list (option PendingRequest) :=
  map (fun a => Operation.getOperation a w) operations.

(** The table of its kind holds [reference] with the operation [a]. *)
Definition entry (reference : Reference) (a : Addr) (s : state) : Prop :=
  match reference with
  | Media r => In (r, a) (segments s)
  | Init i => In (i, a) (inits s)
  end.

(** The request [p] was returned by a dispatch for [reference]. *)
Definition fetchedFor (reference : Reference) (p : PendingRequest)
    (events : list Event) : Prop :=
  exists d st, In (Fetch d reference st p) events.

(** The two references are the same object. *)
Definition sameObject (a b : Reference) : Prop :=
  match a, b with
  | Media r, Media r' => ref_id r = ref_id r'
  | Init i, Init i' => init_id i = init_id i'
  | _, _ => False
  end.

(** Every entry holds the request of a dispatch for its key, and that
    request has not been aborted; the requests that have been dispatched are
    numbered below [requests], each was dispatched for one reference, and
    only dispatched requests have been aborted. *)
Record live (s : state) : Prop := mkLive {
  live_entries :
    forall reference a,
      entry reference a s ->
      exists p,
        Operation.getOperation a (snd s) = Some p
        /\ fetchedFor reference p (trace (snd s))
        /\ ~ In (Abort p) (trace (snd s));
  live_fetches :
    forall d reference st p,
      In (Fetch d reference st p) (trace (snd s)) ->
      (p < requests (snd s))%nat;
  live_aborts :
    forall p,
      In (Abort p) (trace (snd s)) ->
      exists reference, fetchedFor reference p (trace (snd s));
  live_once :
    forall d d' reference reference' st st' p,
      In (Fetch d reference st p) (trace (snd s)) ->
      In (Fetch d' reference' st' p) (trace (snd s)) ->
      reference = reference'
}.

(** The requests on which [abort()] has been called, in order. *)
Definition aborted (events : list Event) : list PendingRequest :=
  flat_map (fun e => match e with Abort p => [p] | _ => [] end) events.

(** The entries are live and no request has been aborted twice. *)
Definition settled (s : state) : Prop :=
  live s /\ NoDup (aborted (trace (snd s))).

(** A second stream, without a segment index, to switch to. *)
Module Alternate.

Definition audio : Stream :=
  {| stream_ident := 80; stream_id := 8; stream_type := "audio"%string;
     fastSwitching := false; segmentIndex := None |}.

End Alternate.

(** ** [shaka.media.ManifestFilterer] *)

(** Conventions of this part of the embedding.
    - A JavaScript [Set] of strings is the list of its elements in insertion
      order.
    - The object that [getKeyStatuses()] returns is the list of its own
      properties in the order in which [Object.keys] lists them; key ids
      are strings of hexadecimal digits, so that none of them names a
      property that the object inherits.
    - The calls of [newInitData] on the DRM engine are appended to a list;
      the getters of the DRM engine are fields.
    - A method ends by returning or by throwing. *)

Module ManifestFilterer.

(** Modelled from the spec: [shaka.util.Error.Severity], [Category] and
    [Code], declared in error.js; the members that the filterer uses. *)
Inductive Severity : Type := CRITICAL.
Inductive Category : Type := MANIFEST.
Inductive Code : Type :=
| CONTENT_UNSUPPORTED_BY_BROWSER
| RESTRICTIONS_CANNOT_BE_MET.

(** Modelled from the spec: [shaka.extern.RestrictionInfo], declared in the
    externs. *)
Record RestrictionInfo : Type := mkInfo {
  hasAppRestrictions : bool;
  missingKeys : list string;
  restrictedKeyStatuses : list string
}.

(** What a method throws: a [shaka.util.Error] with its severity, category,
    code and data, or the [TypeError] of a property read on [null]. *)
Inductive Exception : Type :=
| Error (severity : Severity) (category : Category) (code : Code)
    (data : option RestrictionInfo)
| TypeError.

Inductive outcome (A : Type) : Type :=
| Returns (a : A)
| Throws (e : Exception).

Arguments Returns {A} a.
Arguments Throws {A} e.

(** Modelled from the spec: [shaka.extern.InitDataOverride], declared in the
    externs, with the fields that [processDrmInfos] reads. *)
Module InitDataOverride.
Record t : Type := mk { initDataType : string; initData : list byte }.
End InitDataOverride.

(** Modelled from the spec: [shaka.extern.DrmInfo], declared in the externs,
    with the fields that [processDrmInfos] reads; [initData] may be null. *)
Module DrmInfo.
Record t : Type := mk {
  keySystem : string;
  initData : option (list InitDataOverride.t)
}.
End DrmInfo.

(** Modelled from the spec: [shaka.extern.Stream], declared in the externs,
    with the fields that the filterer reads. *)
Record Stream : Type := mkStream {
  keyIds : list string;
  drmInfos : list DrmInfo.t
}.

(** Modelled from the spec: [shaka.extern.Variant] and
    [shaka.extern.Manifest], declared in the externs, with the fields that
    the filterer reads. *)
Record Variant : Type := mkVariant {
  audio : option Stream;
  video : option Stream;
  allowedByApplication : bool;
  allowedByKeySystem : bool
}.

Record Manifest : Type := mkManifest { variants : list Variant }.

(** Modelled from the spec: [shaka.media.DrmEngine], declared in
    drm_engine.js, as far as the filterer calls it: what its getters
    return. [getMediaKeys] tells whether the media keys are there. *)
Record DrmEngine : Type := mkEngine {
  getKeyStatuses : list (string * string);
  getDrmInfo : option DrmInfo.t;
  getMediaKeys : bool
}.

(** Modelled from the spec: [shaka.extern.Restrictions] and the maximum
    hardware resolution; the filterer only passes them on. *)
Definition Restrictions : Type := nat.
Definition Resolution : Type := (Z * Z)%type.

Record PlayerConfiguration : Type := mkConfig { restrictions : Restrictions }.

(** [config_] is declared non-null, but the constructor stores what it is
    given. *)
Record t : Type := mk {
  config_ : option PlayerConfiguration;
  maxHwRes_ : Resolution;
  drmEngine_ : option DrmEngine
}.

Definition constructor (config : option PlayerConfiguration)
    (maxHwRes : Resolution) (drmEngine : option DrmEngine) : result t :=
  do _ <- assert match config with Some _ => true | None => false end
            "Must have config"%string;
  Ok {| config_ := config; maxHwRes_ := maxHwRes; drmEngine_ := drmEngine |}.

Definition setDrmEngine (drmEngine : DrmEngine) (this : t) : t :=
  {| config_ := config_ this; maxHwRes_ := maxHwRes_ this;
     drmEngine_ := Some drmEngine |}.

Definition restrictedStatuses : list string :=
  ["output-restricted"%string; "internal-error"%string].

(** [object[key]]. *)
Fixpoint property (key : string) (object : list (string * string))
  : option string :=
  match object with
  | [] => None
  | (k, v) :: rest => if String.eqb key k then Some v else property key rest
  end.

(** [set.add(x)]. *)
Definition add (x : string) (set : list string) : list string :=
  if existsb (String.eqb x) set then set else set ++ [x].

(** [array.includes(x)]. *)
Definition includes (array : list string) (x : string) : bool :=
  existsb (String.eqb x) array.

(** The conversion of a key status to a boolean: [undefined] and the empty
    string are false. *)
Definition truthy (keyStatus : option string) : bool :=
  match keyStatus with
  | Some EmptyString => false
  | Some _ => true
  | None => false
  end.

Definition keyStatusMapOf (this : t) : list (string * string) :=
  match drmEngine_ this with
  | Some drmEngine => getKeyStatuses drmEngine
  | None => []
  end.

(** [keyIds.length && keyIds[0] == '00']. *)
Definition isGlobalStatusOf (this : t) : bool :=
  match map fst (keyStatusMapOf this) with
  | [] => false
  | k :: _ => String.eqb k "00"%string
  end.

(** [keyStatusMap[isGlobalStatus ? '00' : keyId]]. *)
Definition keyStatusOf (this : t) (keyId : string) : option string :=
  property (if isGlobalStatusOf this then "00"%string else keyId)
    (keyStatusMapOf this).

(** The local variables of [checkRestrictedVariants]. *)
Module Locals.
Record t : Type := mk {
  hasPlayable : bool;
  hasAppRestrictions : bool;
  missingKeys : list string;
  badKeyStatuses : list string
}.
End Locals.

(** The body of the loop over the key ids of a stream. *)
Definition forKeyId (this : t) (l : Locals.t) (keyId : string) : Locals.t :=
  let keyStatus := keyStatusOf this keyId in
  if negb (truthy keyStatus)
  then Locals.mk (Locals.hasPlayable l) (Locals.hasAppRestrictions l)
         (add keyId (Locals.missingKeys l)) (Locals.badKeyStatuses l)
  else
    match keyStatus with
    | Some status =>
        if includes restrictedStatuses status
        then Locals.mk (Locals.hasPlayable l) (Locals.hasAppRestrictions l)
               (Locals.missingKeys l) (add status (Locals.badKeyStatuses l))
        else l
    | None => l
    end.

(** The array [streams] of a variant: the audio stream, then the video
    stream. *)
Definition streamsOf (variant : Variant) : list Stream :=
  (match audio variant with Some stream => [stream] | None => [] end)
  ++ (match video variant with Some stream => [stream] | None => [] end).

(** The body of the loop over the variants. *)
Definition forVariant (this : t) (l : Locals.t) (variant : Variant)
  : Locals.t :=
  let l :=
    fold_left
      (fun l stream =>
         if (0 <? length (keyIds stream))%nat
         then fold_left (forKeyId this) (keyIds stream) l
         else l)
      (streamsOf variant) l in
  if negb (allowedByApplication variant)
  then Locals.mk (Locals.hasPlayable l) true (Locals.missingKeys l)
         (Locals.badKeyStatuses l)
  else if allowedByKeySystem variant
       then Locals.mk true (Locals.hasAppRestrictions l)
              (Locals.missingKeys l) (Locals.badKeyStatuses l)
       else l.

Definition checkRestrictedVariants (manifest : Manifest) (this : t)
  : outcome unit :=
  let l :=
    fold_left (forVariant this) (variants manifest)
      (Locals.mk false false [] []) in
  if negb (Locals.hasPlayable l)
  then
    let data :=
      {| hasAppRestrictions := Locals.hasAppRestrictions l;
         missingKeys := Locals.missingKeys l;
         restrictedKeyStatuses := Locals.badKeyStatuses l |} in
    Throws (Error CRITICAL MANIFEST RESTRICTIONS_CANNOT_BE_MET (Some data))
  else Returns tt.

(** A call [newInitData(initDataType, initData)] on the DRM engine. *)
Definition NewInitData : Type := (string * list byte)%type.

(** A method that calls the DRM engine: the calls made so far go in, the
    outcome and the calls made come out. *)
Definition Run (A : Type) : Type :=
  list NewInitData -> outcome A * list NewInitData.

Definition ret {A : Type} (a : A) : Run A := fun calls => (Returns a, calls).

Definition raise {A : Type} (e : Exception) : Run A :=
  fun calls => (Throws e, calls).

Definition andThen {A B : Type} (m : Run A) (k : A -> Run B) : Run B :=
  fun calls =>
    match m calls with
    | (Returns a, calls) => k a calls
    | (Throws e, calls) => (Throws e, calls)
    end.

(** [for (const x of xs) body(x)]. *)
Fixpoint forEach {A : Type} (xs : list A) (body : A -> Run unit) : Run unit :=
  match xs with
  | [] => ret tt
  | x :: rest => andThen (body x) (fun _ => forEach rest body)
  end.

(** [this.drmEngine_.newInitData(initDataType, initData)]. *)
Definition newInitData (initData : InitDataOverride.t) (this : t) : Run unit :=
  match drmEngine_ this with
  | Some _ =>
      fun calls =>
        (Returns tt,
         calls ++ [(InitDataOverride.initDataType initData,
                    InitDataOverride.initData initData)])
  | None => raise TypeError
  end.

Definition processDrmInfos (keySystem : string) (stream : option Stream)
    (this : t) : Run unit :=
  match stream with
  | None => ret tt
  | Some stream =>
      forEach (drmInfos stream)
        (fun drmInfo =>
           if String.eqb (DrmInfo.keySystem drmInfo) keySystem
           then
             forEach
               match DrmInfo.initData drmInfo with
               | Some initData => initData
               | None => []
               end
               (fun initData => newInitData initData this)
           else ret tt)
  end.

Section StreamUtils.

(** [shaka.util.StreamUtils.applyRestrictions], declared in stream_utils.js:
    the variants as the call leaves them, and what it returns.
    [shaka.util.StreamUtils.isPlayable], declared there too. *)
Variable StreamUtils_applyRestrictions :
  list Variant -> Restrictions -> Resolution -> list Variant * bool.
Variable StreamUtils_isPlayable : Variant -> bool.

(** The manifest is an object that the callee changes in place: the
    manifest as the call leaves it is returned with the result. The
    arguments are evaluated in order: [manifest.variants] first, then
    [this.config_.restrictions]; each throws on [null]. *)
Definition applyRestrictions (manifest : option Manifest) (this : t)
  : outcome (Manifest * bool) :=
  match manifest with
  | None => Throws TypeError
  | Some manifest =>
      match config_ this with
      | None => Throws TypeError
      | Some config =>
          let '(variants, tracksChanged) :=
            StreamUtils_applyRestrictions (variants manifest)
              (restrictions config) (maxHwRes_ this) in
          Returns ({| variants := variants |}, tracksChanged)
      end
  end.

Definition filterManifestWithRestrictions (manifest : option Manifest)
    (this : t) : Run (Manifest * bool) :=
  match applyRestrictions manifest this with
  | Throws e => raise e
  | Returns (manifest, tracksChanged) =>
      let currentDrmInfo :=
        match drmEngine_ this with
        | Some drmEngine => getDrmInfo drmEngine
        | None => None
        end in
      andThen
        match currentDrmInfo, drmEngine_ this with
        | Some currentDrmInfo, Some drmEngine =>
            if getMediaKeys drmEngine
            then
              forEach (variants manifest)
                (fun variant =>
                   andThen
                     (processDrmInfos (DrmInfo.keySystem currentDrmInfo)
                        (video variant) this)
                     (fun _ =>
                        processDrmInfos (DrmInfo.keySystem currentDrmInfo)
                          (audio variant) this))
            else ret tt
        | _, _ => ret tt
        end
        (fun _ =>
           match checkRestrictedVariants manifest this with
           | Throws e => raise e
           | Returns _ => ret (manifest, tracksChanged)
           end)
  end.

Definition checkPlayableVariants_ (manifest : Manifest) : outcome unit :=
  let valid := existsb StreamUtils_isPlayable (variants manifest) in
  if negb valid
  then Throws (Error CRITICAL MANIFEST CONTENT_UNSUPPORTED_BY_BROWSER None)
  else Returns tt.

End StreamUtils.

(** *** Vocabulary of the properties of the filterer *)

(** A variant that the application and the key system allow. *)
Definition unrestricted (variant : Variant) : bool :=
  allowedByApplication variant && allowedByKeySystem variant.

(** The key ids of the audio and video streams of the variants. *)
Definition keyIdsOf (variants : list Variant) : list string :=
  flat_map (fun variant => flat_map keyIds (streamsOf variant)) variants.

(** The init data that the stream carries for the key system. *)
Definition initDataFor (keySystem : string) (stream : option Stream)
  : list NewInitData :=
  match stream with
  | None => []
  | Some stream =>
      flat_map
        (fun drmInfo =>
           if String.eqb (DrmInfo.keySystem drmInfo) keySystem
           then
             map (fun i => (InitDataOverride.initDataType i,
                            InitDataOverride.initData i))
               match DrmInfo.initData drmInfo with
               | Some initData => initData
               | None => []
               end
           else [])
        (drmInfos stream)
  end.

(** A variant with protected video, at first allowed; an engine that
    reports the key [ab] as restricted and does not know the key [cd]. *)
Module Example.

Definition widevine : string := "com.widevine.alpha"%string.

Definition cenc : InitDataOverride.t :=
  InitDataOverride.mk "cenc"%string [x01; x02].

Definition protectedVideo : Stream :=
  {| keyIds := ["ab"%string; "cd"%string];
     drmInfos := [DrmInfo.mk widevine (Some [cenc]);
                  DrmInfo.mk "org.w3.clearkey"%string (Some [cenc])] |}.

Definition variant : Variant :=
  {| audio := None; video := Some protectedVideo;
     allowedByApplication := true; allowedByKeySystem := true |}.

Definition manifest : Manifest := {| variants := [variant] |}.

Definition engine : DrmEngine :=
  {| getKeyStatuses := [("ab"%string, "output-restricted"%string)];
     getDrmInfo := Some (DrmInfo.mk widevine None);
     getMediaKeys := true |}.

Definition filterer : t :=
  {| config_ := Some {| restrictions := 0%nat |};
     maxHwRes_ := (1920, 1080); drmEngine_ := Some engine |}.

(** The application restrictions disallow every variant. *)
Definition disallowAll (variants : list Variant) (_ : Restrictions)
    (_ : Resolution) : list Variant * bool :=
  (map (fun v => mkVariant (audio v) (video v) false (allowedByKeySystem v))
     variants,
   existsb allowedByApplication variants).

(** The manifest as [disallowAll] leaves it. *)
Definition restricted : Manifest :=
  {| variants := fst (disallowAll (variants manifest) 0%nat (1920, 1080)) |}.

(** A filterer without a DRM engine. *)
Definition bare : t :=
  {| config_ := Some {| restrictions := 0%nat |};
     maxHwRes_ := (1920, 1080); drmEngine_ := None |}.

End Example.

End ManifestFilterer.

(** * Properties *)

(** ** Results *)

Lemma bind_Ok {A B : Type} (a : A) (k : A -> result B) :
  bind (Ok a) k = k a.
Proof. unfold bind. now destruct (k a). Qed.

Lemma Done_eq {A : Type} (reported reported' : list string) (a a' : A) :
  Done reported a = Done reported' a' -> reported = reported' /\ a = a'.
Proof. now intros [= -> ->]. Qed.

Lemma bind_Done {A B : Type} (reported reported' : list string) (a : A)
    (k : A -> result B) (b : B) :
  k a = Done reported' b ->
  bind (Done reported a) k = Done (reported ++ reported') b.
Proof. unfold bind. now intros ->. Qed.

Lemma bind_assert {B : Type} (condition : bool) (message : string)
    (k : unit -> result B) (reported : list string) (b : B) :
  k tt = Done reported b ->
  bind (assert condition message) k
  = Done ((if condition then [] else [message]) ++ reported) b.
Proof.
  intros E. destruct condition; unfold assert, bind; now rewrite E.
Qed.

Lemma bind_inv {A B : Type} (r : result A) (k : A -> result B)
    (reported : list string) (b : B) :
  bind r k = Done reported b ->
  exists reported1 a reported2,
    r = Done reported1 a /\ k a = Done reported2 b
    /\ reported = reported1 ++ reported2.
Proof.
  unfold bind. destruct r as [reported1 a|reported1]; [|discriminate].
  destruct (k a) as [reported2 b'|reported2] eqn:E; [|discriminate].
  intros [= <- <-]. now exists reported1, a, reported2.
Qed.

(** ** The table *)

Section JsMapFacts.
Context {K V : Type} (ident : K -> nat).

Lemma same_refl (k : K) : JsMap.same ident k k = true.
Proof. unfold JsMap.same. apply Nat.eqb_refl. Qed.

Lemma same_true (k k' : K) : JsMap.same ident k k' = true <-> ident k = ident k'.
Proof. unfold JsMap.same. apply Nat.eqb_eq. Qed.

Lemma same_false (k k' : K) :
  JsMap.same ident k k' = false <-> ident k <> ident k'.
Proof. unfold JsMap.same. apply Nat.eqb_neq. Qed.

Lemma get_none (k : K) (m : @JsMap.t K V) :
  JsMap.get ident k m = None <-> ~ In (ident k) (map ident (JsMap.keys m)).
Proof.
  induction m as [|[k' v] m IH]; simpl.
  - tauto.
  - destruct (JsMap.same ident k k') eqn:E.
    + apply same_true in E. split; [discriminate | intros H; exfalso; auto].
    + apply same_false in E. rewrite IH. split.
      * intros H [H1|H1]; [congruence | tauto].
      * tauto.
Qed.

Lemma get_some_in (k : K) (v : V) (m : @JsMap.t K V) :
  JsMap.get ident k m = Some v ->
  exists k', In (k', v) m /\ ident k' = ident k.
Proof.
  induction m as [|[k' v'] m IH]; simpl; [discriminate|].
  destruct (JsMap.same ident k k') eqn:E.
  - intros [= <-]. apply same_true in E. exists k'. auto.
  - intros H. destruct (IH H) as (k0 & H0 & H1). exists k0. auto.
Qed.

Lemma in_get (k : K) (v : V) (m : @JsMap.t K V) :
  JsMap.unique ident m -> In (k, v) m -> JsMap.get ident k m = Some v.
Proof.
  unfold JsMap.unique.
  induction m as [|[k' v'] m IH]; simpl; [tauto|].
  intros U [H|H].
  - injection H as -> ->. now rewrite same_refl.
  - inversion U as [|? ? N U']; subst.
    destruct (JsMap.same ident k k') eqn:E.
    + apply same_true in E. exfalso. apply N. rewrite <- E.
      apply in_map with (f := ident). apply in_map with (f := fst) in H. exact H.
    + auto.
Qed.

Lemma has_get (k : K) (m : @JsMap.t K V) :
  JsMap.has ident k m = false <-> JsMap.get ident k m = None.
Proof.
  unfold JsMap.has. destruct (JsMap.get ident k m); split; congruence.
Qed.

Lemma delete_absent (k : K) (m : @JsMap.t K V) :
  JsMap.get ident k m = None -> JsMap.delete ident k m = m.
Proof.
  unfold JsMap.delete.
  induction m as [|[k' v] m IH]; simpl; [reflexivity|].
  destruct (JsMap.same ident k k'); simpl; [discriminate|].
  intros H. now rewrite IH.
Qed.

Lemma get_delete_same (k : K) (m : @JsMap.t K V) :
  JsMap.get ident k (JsMap.delete ident k m) = None.
Proof.
  unfold JsMap.delete.
  induction m as [|[k' v] m IH]; simpl; [reflexivity|].
  destruct (JsMap.same ident k k') eqn:E; simpl; [exact IH|].
  now rewrite E.
Qed.

Lemma get_delete_other (k k' : K) (m : @JsMap.t K V) :
  ident k <> ident k' ->
  JsMap.get ident k' (JsMap.delete ident k m) = JsMap.get ident k' m.
Proof.
  intros N. unfold JsMap.delete.
  induction m as [|[k0 v] m IH]; simpl; [reflexivity|].
  destruct (JsMap.same ident k k0) eqn:E; simpl.
  - apply same_true in E.
    assert (F : JsMap.same ident k' k0 = false)
      by (apply same_false; congruence).
    now rewrite F.
  - now rewrite IH.
Qed.

Lemma in_filter_keys (f : K * V -> bool) (i : nat) (m : @JsMap.t K V) :
  In i (map ident (JsMap.keys (filter f m))) ->
  In i (map ident (JsMap.keys m)).
Proof.
  unfold JsMap.keys. rewrite !map_map, !in_map_iff.
  intros (e & H1 & H2). apply filter_In in H2. exists e. tauto.
Qed.

Lemma in_filter_values (f : K * V -> bool) (v : V) (m : @JsMap.t K V) :
  In v (JsMap.values (filter f m)) -> In v (JsMap.values m).
Proof.
  unfold JsMap.values. rewrite !in_map_iff.
  intros (e & H1 & H2). apply filter_In in H2. exists e. tauto.
Qed.

Lemma unique_filter (f : K * V -> bool) (m : @JsMap.t K V) :
  JsMap.unique ident m -> JsMap.unique ident (filter f m).
Proof.
  unfold JsMap.unique.
  induction m as [|e m IH]; simpl; [auto|].
  intros U. inversion U as [|? ? N U']; subst.
  destruct (f e); simpl; [|auto].
  constructor; [|auto]. intros H. apply N. eapply in_filter_keys. exact H.
Qed.

Lemma nodup_values_filter (f : K * V -> bool) (m : @JsMap.t K V) :
  NoDup (JsMap.values m) -> NoDup (JsMap.values (filter f m)).
Proof.
  induction m as [|e m IH]; simpl; [auto|].
  intros U. inversion U as [|? ? N U']; subst.
  destruct (f e); simpl; [|auto].
  constructor; [|auto]. intros H. apply N. eapply in_filter_values. exact H.
Qed.

Lemma forall_values_filter (P : V -> Prop) (f : K * V -> bool)
    (m : @JsMap.t K V) :
  Forall P (JsMap.values m) -> Forall P (JsMap.values (filter f m)).
Proof.
  rewrite !Forall_forall. intros H v Hv. apply H.
  eapply in_filter_values. exact Hv.
Qed.

Lemma size_filter (f : K * V -> bool) (m : @JsMap.t K V) :
  (JsMap.size (filter f m) <= JsMap.size m)%nat.
Proof. unfold JsMap.size. apply filter_length_le. Qed.

Lemma set_absent (k : K) (v : V) (m : @JsMap.t K V) :
  JsMap.get ident k m = None -> JsMap.set ident k v m = m ++ [(k, v)].
Proof.
  induction m as [|[k' v'] m IH]; simpl; [reflexivity|].
  destruct (JsMap.same ident k k'); [discriminate|].
  intros H. now rewrite IH.
Qed.

Lemma get_app (k : K) (m m' : @JsMap.t K V) :
  JsMap.get ident k (m ++ m') =
  match JsMap.get ident k m with
  | Some v => Some v
  | None => JsMap.get ident k m'
  end.
Proof.
  induction m as [|[k' v'] m IH]; simpl; [reflexivity|].
  destruct (JsMap.same ident k k'); auto.
Qed.

Lemma unique_app_one (k : K) (v : V) (m : @JsMap.t K V) :
  JsMap.unique ident m -> JsMap.get ident k m = None ->
  JsMap.unique ident (m ++ [(k, v)]).
Proof.
  intros U H. apply get_none in H. revert U H.
  unfold JsMap.unique, JsMap.keys. rewrite !map_app. simpl.
  generalize (map ident (map fst m)) as l.
  induction l as [|i l IH]; simpl; intros U H.
  - constructor; [simpl; tauto | constructor].
  - inversion U as [|? ? N U']; subst. constructor.
    + intros H1. apply in_app_or in H1. destruct H1 as [H1|H1]; [tauto|].
      simpl in H1. destruct H1 as [H1|[]]. apply H. left. now symmetry.
    + apply IH; [auto|]. tauto.
Qed.

Lemma unique_same_key (k k' : K) (v v' : V) (m : @JsMap.t K V) :
  JsMap.unique ident m -> In (k, v) m -> In (k', v') m ->
  ident k = ident k' -> (k, v) = (k', v').
Proof.
  unfold JsMap.unique.
  induction m as [|e m IH]; simpl; [tauto|].
  intros U H1 H2 E. inversion U as [|? ? N U']; subst.
  assert (X : forall a b, In (a, b) m -> In (ident a) (map ident (JsMap.keys m))).
  { intros a b Hab. apply in_map with (f := ident).
    apply in_map with (f := fst) in Hab. exact Hab. }
  destruct H1 as [H1|H1], H2 as [H2|H2].
  - congruence.
  - subst e. simpl in N. exfalso. apply N. rewrite E. eapply X. exact H2.
  - subst e. simpl in N. exfalso. apply N. rewrite <- E. eapply X. exact H1.
  - auto.
Qed.

End JsMapFacts.

(** ** The heap and the trace *)

Lemma update_length {A : Type} (n : nat) (f : A -> A) (l : list A) :
  length (update n f l) = length l.
Proof.
  revert n. induction l as [|x l IH]; intros [|n]; simpl; auto.
Qed.

Lemma nth_error_update_same {A : Type} (n : nat) (f : A -> A) (l : list A)
    (x : A) :
  nth_error l n = Some x -> nth_error (update n f l) n = Some (f x).
Proof.
  revert n. induction l as [|y l IH]; intros [|n]; simpl; try discriminate.
  - now intros [= ->].
  - apply IH.
Qed.

Lemma nth_error_update_other {A : Type} (n m : nat) (f : A -> A)
    (l : list A) :
  n <> m -> nth_error (update n f l) m = nth_error l m.
Proof.
  revert n m. induction l as [|y l IH]; intros [|n] [|m] N; simpl; auto;
    congruence.
Qed.

Lemma update_last {A : Type} (f : A -> A) (l : list A) (x : A) :
  update (length l) f (l ++ [x]) = l ++ [f x].
Proof. induction l as [|y l IH]; simpl; [reflexivity | now rewrite IH]. Qed.

Lemma emits_nil (w : World) : emits [] w = w.
Proof. destruct w. unfold emits. simpl. now rewrite app_nil_r. Qed.

Lemma emits_emits (es es' : list Event) (w : World) :
  emits es' (emits es w) = emits (es ++ es') w.
Proof. unfold emits. simpl. now rewrite app_assoc. Qed.

Lemma abortEvents_app (h : list OperationObject.t) (l l' : list Addr) :
  abortEvents h (l ++ l') = abortEvents h l ++ abortEvents h l'.
Proof. unfold abortEvents. apply flat_map_app. Qed.

Lemma abort_emits (a : Addr) (w : World) :
  Operation.abort a w = emits (abortEvents (heap w) [a]) w.
Proof.
  unfold Operation.abort, deref, abortEvents. simpl.
  destruct (nth_error (heap w) a) as [o|]; simpl.
  - destruct (OperationObject.operation_ o); simpl; [reflexivity|].
    now rewrite emits_nil.
  - now rewrite emits_nil.
Qed.

(** A new operation that is dispatched at once. *)
Lemma dispatch_fresh (d : FetchDispatcher) (r : Reference) (st : Stream)
    (w : World) :
  Operation.dispatchFetch r st (length (heap w))
    {| requests := requests w; trace := trace w;
       heap := heap w ++ [OperationObject.mk d None None []] |}
  = {| requests := S (requests w);
       trace := trace w ++ [Fetch d r (stream_id st) (requests w)];
       heap := heap w ++ [OperationObject.mk d None (Some (requests w)) []] |}.
Proof.
  unfold Operation.dispatchFetch, deref. simpl.
  rewrite nth_error_app2 by lia. rewrite Nat.sub_diag. simpl.
  unfold modify. simpl. rewrite update_last. simpl.
  now rewrite update_last.
Qed.

(** ** Aborting entries of a table *)

Section Sweep.
Context {K : Type} (ident : K -> nat).

Lemma abortIn_found (k : K) (m : @JsMap.t K Addr) (w : World) (a : Addr) :
  JsMap.get ident k m = Some a ->
  abortIn ident k m w
  = (JsMap.delete ident k m, emits (abortEvents (heap w) [a]) w).
Proof. unfold abortIn. intros ->. now rewrite abort_emits. Qed.

Lemma abortIn_absent (k : K) (m : @JsMap.t K Addr) (w : World) :
  JsMap.get ident k m = None -> abortIn ident k m w = (m, w).
Proof. unfold abortIn. intros H. rewrite H. now rewrite delete_absent. Qed.

Lemma filter_all {A : Type} (f : A -> bool) (l : list A) :
  (forall x, In x l -> f x = true) -> filter f l = l.
Proof.
  induction l as [|x l IH]; simpl; intros H; [reflexivity|].
  rewrite (H x) by auto. rewrite IH; auto.
Qed.

Lemma unique_middle (kept todo : @JsMap.t K Addr) (e : K * Addr) :
  JsMap.unique ident (kept ++ e :: todo) -> JsMap.unique ident (kept ++ todo).
Proof.
  unfold JsMap.unique, JsMap.keys. rewrite !map_app. simpl.
  apply NoDup_remove_1.
Qed.

Lemma delete_middle (kept todo : @JsMap.t K Addr) (k : K) (a : Addr) :
  JsMap.unique ident (kept ++ (k, a) :: todo) ->
  JsMap.delete ident k (kept ++ (k, a) :: todo) = kept ++ todo.
Proof.
  intros U. unfold JsMap.delete. rewrite filter_app. simpl.
  rewrite same_refl. simpl.
  assert (X : forall k' a', In (k', a') (kept ++ todo) ->
                            negb (JsMap.same ident k k') = true).
  { intros k' a' H. apply negb_true_iff, same_false. intros E.
    assert (Y : (k, a) = (k', a')).
    { eapply unique_same_key; eauto.
      - apply in_or_app. right. now left.
      - apply in_app_or in H. apply in_or_app. simpl. tauto. }
    injection Y as <- <-.
    unfold JsMap.unique, JsMap.keys in U. rewrite !map_app in U. simpl in U.
    apply NoDup_remove_2 in U. apply U. rewrite <- !map_app.
    apply in_map with (f := ident). apply in_map with (f := fst) in H.
    exact H. }
  f_equal; apply filter_all; intros [k' a'] H; simpl; eapply X;
    apply in_or_app; eauto.
Qed.

Lemma sweep_split (p : K -> bool) (todo kept : @JsMap.t K Addr) (w : World) :
  JsMap.unique ident (kept ++ todo) ->
  sweep ident p (JsMap.keys todo) (kept ++ todo, w)
  = (kept ++ filter (fun e => negb (p (fst e))) todo,
     emits (abortEvents (heap w)
              (JsMap.values (filter (fun e => p (fst e)) todo))) w).
Proof.
  revert kept w. induction todo as [|[k a] todo IH]; intros kept w U.
  - simpl. now rewrite emits_nil.
  - unfold sweep in *. simpl. destruct (p k) eqn:P; simpl.
    + rewrite (abortIn_found k _ w a).
      2:{ apply in_get; [exact U|]. apply in_or_app. right. now left. }
      rewrite delete_middle by exact U.
      rewrite IH by (eapply unique_middle; exact U).
      rewrite emits_emits. simpl. now rewrite app_nil_r.
    + replace (kept ++ (k, a) :: todo) with ((kept ++ [(k, a)]) ++ todo)
        by now rewrite <- app_assoc.
      rewrite IH by (rewrite <- app_assoc; exact U).
      now rewrite <- app_assoc.
Qed.

Lemma sweep_all (p : K -> bool) (m : @JsMap.t K Addr) (w : World) :
  JsMap.unique ident m ->
  sweep ident p (JsMap.keys m) (m, w)
  = (filter (fun e => negb (p (fst e))) m,
     emits (abortEvents (heap w)
              (JsMap.values (filter (fun e => p (fst e)) m))) w).
Proof. intros U. exact (sweep_split p m [] w U). Qed.

End Sweep.

(** ** Well-formed tables *)

Lemma tables_wf_filter_segments (f : SegmentReference * Addr -> bool)
    segs ins n :
  tables_wf segs ins n -> tables_wf (filter f segs) ins n.
Proof.
  intros [U1 U2 A1 A2 S1 S2 S3]. constructor; auto.
  - now apply unique_filter.
  - now apply forall_values_filter.
  - now apply nodup_values_filter.
  - intros a H. apply S3. eapply in_filter_values. exact H.
Qed.

Lemma tables_wf_filter_inits (f : InitSegmentReference * Addr -> bool)
    segs ins n :
  tables_wf segs ins n -> tables_wf segs (filter f ins) n.
Proof.
  intros [U1 U2 A1 A2 S1 S2 S3]. constructor; auto.
  - now apply unique_filter.
  - now apply forall_values_filter.
  - now apply nodup_values_filter.
  - intros a H H'. apply (S3 a H). eapply in_filter_values. exact H'.
Qed.

Lemma tables_wf_prefix segs segs' ins n :
  tables_wf (segs ++ segs') ins n -> tables_wf segs ins n.
Proof.
  intros [U1 U2 A1 A2 S1 S2 S3]. constructor; auto.
  - unfold JsMap.unique, JsMap.keys in *. rewrite !map_app in U1.
    eapply NoDup_app_remove_r. exact U1.
  - unfold JsMap.values in *. rewrite map_app in A1.
    apply Forall_app in A1. tauto.
  - unfold JsMap.values in *. rewrite map_app in S1.
    eapply NoDup_app_remove_r. exact S1.
  - intros a H. apply S3. unfold JsMap.values in *. rewrite map_app.
    apply in_or_app. now left.
Qed.

Lemma tables_wf_heap segs ins h h' :
  (forall a, dispatched h a -> dispatched h' a) ->
  tables_wf segs ins h -> tables_wf segs ins h'.
Proof.
  intros L [U1 U2 A1 A2 S1 S2 S3]. constructor; auto.
  - eapply Forall_impl; [|exact A1]. exact L.
  - eapply Forall_impl; [|exact A2]. exact L.
Qed.

Lemma dispatched_allocated (h : list OperationObject.t) (a : Addr) :
  dispatched h a -> (a < length h)%nat.
Proof.
  intros (o & p & E & _). apply nth_error_Some. congruence.
Qed.

Lemma dispatched_app (h h' : list OperationObject.t) (a : Addr) :
  dispatched h a -> dispatched (h ++ h') a.
Proof.
  intros D. pose proof (dispatched_allocated h a D) as L.
  destruct D as (o & p & E & P). exists o, p.
  now rewrite nth_error_app1.
Qed.

Lemma dispatched_new (h : list OperationObject.t) (d : FetchDispatcher)
    (cb : option Callback) (p : PendingRequest) (b : BufferSource) :
  dispatched (h ++ [OperationObject.mk d cb (Some p) b]) (length h).
Proof.
  exists (OperationObject.mk d cb (Some p) b), p.
  rewrite nth_error_app2 by lia. now rewrite Nat.sub_diag.
Qed.

(** Assignments to the other fields keep an operation dispatched. *)
Lemma dispatched_update (h : list OperationObject.t) (a b : Addr)
    (f : OperationObject.t -> OperationObject.t) :
  (forall o, OperationObject.operation_ (f o) = OperationObject.operation_ o) ->
  dispatched h b -> dispatched (update a f h) b.
Proof.
  intros F (o & p & E & P). revert a b E.
  induction h as [|x h IH]; intros [|a] [|b] E; simpl in *;
    try discriminate.
  - injection E as ->. exists (f o), p. now rewrite F.
  - exists o, p. auto.
  - injection E as ->. exists o, p. auto.
  - now apply IH.
Qed.

Lemma nodup_snoc_fresh (l : list nat) (n : nat) :
  Forall (fun a => (a < n)%nat) l -> NoDup l -> NoDup (l ++ [n]).
Proof.
  intros A N. induction l as [|x l IH]; simpl.
  - constructor; [simpl; tauto | constructor].
  - inversion A; inversion N; subst. constructor; [|auto].
    intros H. apply in_app_or in H. destruct H as [H|[H|[]]]; [tauto|lia].
Qed.

Lemma fresh_not_in (l : list nat) (n : nat) :
  Forall (fun a => (a < n)%nat) l -> ~ In n l.
Proof.
  rewrite Forall_forall. intros A H. specialize (A n H). simpl in A. lia.
Qed.

Lemma allocated_values (h : list OperationObject.t) (l : list Addr) :
  Forall (dispatched h) l -> Forall (fun a => (a < length h)%nat) l.
Proof.
  intros A. eapply Forall_impl; [|exact A]. apply dispatched_allocated.
Qed.

Lemma tables_wf_add_segment (r : SegmentReference) segs ins h d cb p b :
  JsMap.get ref_id r segs = None ->
  tables_wf segs ins h ->
  tables_wf (segs ++ [(r, length h)]) ins
    (h ++ [OperationObject.mk d cb (Some p) b]).
Proof.
  intros G [U1 U2 A1 A2 S1 S2 S3]. constructor; auto.
  - now apply unique_app_one.
  - unfold JsMap.values in *. rewrite map_app. apply Forall_app. split.
    + eapply Forall_impl; [|exact A1]. intros a. apply dispatched_app.
    + constructor; [apply dispatched_new | constructor].
  - eapply Forall_impl; [|exact A2]. intros a. apply dispatched_app.
  - unfold JsMap.values in *. rewrite map_app. simpl.
    apply nodup_snoc_fresh; [now apply allocated_values | exact S1].
  - intros a H. unfold JsMap.values in *. rewrite map_app in H.
    apply in_app_or in H. destruct H as [H|[<-|[]]]; [auto|].
    apply fresh_not_in. now apply allocated_values.
Qed.

Lemma tables_wf_add_init (i : InitSegmentReference) segs ins h d cb p b :
  JsMap.get init_id i ins = None ->
  tables_wf segs ins h ->
  tables_wf segs (ins ++ [(i, length h)])
    (h ++ [OperationObject.mk d cb (Some p) b]).
Proof.
  intros G [U1 U2 A1 A2 S1 S2 S3]. constructor; auto.
  - now apply unique_app_one.
  - eapply Forall_impl; [|exact A1]. intros a. apply dispatched_app.
  - unfold JsMap.values in *. rewrite map_app. apply Forall_app. split.
    + eapply Forall_impl; [|exact A2]. intros a. apply dispatched_app.
    + constructor; [apply dispatched_new | constructor].
  - unfold JsMap.values in *. rewrite map_app. simpl.
    apply nodup_snoc_fresh; [now apply allocated_values | exact S2].
  - intros a H H'. unfold JsMap.values in *. rewrite map_app in H'.
    apply in_app_or in H'. destruct H' as [H'|[<-|[]]].
    + exact (S3 a H H').
    + eapply fresh_not_in; [apply allocated_values; exact A1 | exact H].
Qed.

(** ** The loops over the keys, in closed form *)

Lemma abort_media (r : SegmentReference) (s : state) :
  abortPrefetchedSegment_ (Media r) s
  = (set_segmentPrefetchMap_
       (fst (abortIn ref_id r (segments s) (snd s))) (fst s),
     snd (abortIn ref_id r (segments s) (snd s))).
Proof.
  unfold abortPrefetchedSegment_.
  now destruct (abortIn ref_id r (segmentPrefetchMap_ (fst s)) (snd s)).
Qed.

Lemma abort_init (i : InitSegmentReference) (s : state) :
  abortPrefetchedSegment_ (Init i) s
  = (set_initSegmentPrefetchMap_
       (fst (abortIn init_id i (inits s) (snd s))) (fst s),
     snd (abortIn init_id i (inits s) (snd s))).
Proof.
  unfold abortPrefetchedSegment_.
  now destruct (abortIn init_id i (initSegmentPrefetchMap_ (fst s)) (snd s)).
Qed.

Lemma forKeys_media (p : SegmentReference -> bool)
    (keys : list SegmentReference) (s : state) :
  forKeys keys
    (fun ref s => if p ref then abortPrefetchedSegment_ (Media ref) s else s) s
  = (set_segmentPrefetchMap_
       (fst (sweep ref_id p keys (segments s, snd s))) (fst s),
     snd (sweep ref_id p keys (segments s, snd s))).
Proof.
  revert s. unfold forKeys, sweep.
  induction keys as [|k keys IH]; intros s; cbn [fold_left].
  - destruct s as [[] w]. reflexivity.
  - destruct (p k).
    + rewrite IH, abort_media. simp_state.
      now rewrite <- surjective_pairing.
    + rewrite IH. reflexivity.
Qed.

Lemma forKeys_init (p : InitSegmentReference -> bool)
    (keys : list InitSegmentReference) (s : state) :
  forKeys keys
    (fun i s => if p i then abortPrefetchedSegment_ (Init i) s else s) s
  = (set_initSegmentPrefetchMap_
       (fst (sweep init_id p keys (inits s, snd s))) (fst s),
     snd (sweep init_id p keys (inits s, snd s))).
Proof.
  revert s. unfold forKeys, sweep.
  induction keys as [|k keys IH]; intros s; cbn [fold_left].
  - destruct s as [[] w]. reflexivity.
  - destruct (p k).
    + rewrite IH, abort_init. simp_state.
      now rewrite <- surjective_pairing.
    + rewrite IH. reflexivity.
Qed.

Lemma filter_none {A : Type} (l : list A) : filter (fun _ => false) l = [].
Proof. induction l; simpl; auto. Qed.

Lemma filter_true {A : Type} (l : list A) : filter (fun _ => true) l = l.
Proof. induction l; simpl; congruence. Qed.

Lemma clearInitSegments_closed (s : state) :
  JsMap.unique init_id (inits s) -> clearInitSegments_ s = pruneInits s.
Proof.
  intros U. unfold clearInitSegments_.
  change (forKeys (JsMap.keys (initSegmentPrefetchMap_ (fst s)))
            (fun i s0 =>
               if (fun i => negb (existsb (refersTo i)
                                    (JsMap.keys (segments s)))) i
               then abortPrefetchedSegment_ (Init i) s0 else s0) s
          = pruneInits s).
  rewrite forKeys_init. rewrite sweep_all by exact U.
  unfold pruneInits, referenced. cbn [fst snd]. f_equal. f_equal.
  apply filter_ext. intros e. apply negb_involutive.
Qed.

Lemma evict_closed (time : Z) (s : state) :
  JsMap.unique ref_id (segments s) -> JsMap.unique init_id (inits s) ->
  evict time s
  = pruneInits
      (set_segmentPrefetchMap_
         (filter (fun e => negb (passed time e)) (segments s)) (fst s),
       emits
         (abortEvents (heap (snd s))
            (JsMap.values (filter (passed time) (segments s))))
         (snd s)).
Proof.
  intros U1 U2. unfold evict.
  change (forKeys (JsMap.keys (segmentPrefetchMap_ (fst s)))
            (fun ref s0 =>
               if time >? endTime ref
               then abortPrefetchedSegment_ (Media ref) s0 else s0) s)
    with (forKeys (JsMap.keys (segments s))
            (fun ref s0 =>
               if (fun r => time >? endTime r) ref
               then abortPrefetchedSegment_ (Media ref) s0 else s0) s).
  rewrite forKeys_media, sweep_all by exact U1. cbn [fst snd].
  now rewrite clearInitSegments_closed.
Qed.

Lemma clearMap_media (keys : list SegmentReference) (s : state) :
  clearMap_ (map Media keys) s
  = (set_segmentPrefetchMap_
       (fst (sweep ref_id (fun _ => true) keys (segments s, snd s))) (fst s),
     snd (sweep ref_id (fun _ => true) keys (segments s, snd s))).
Proof.
  rewrite <- forKeys_media. unfold clearMap_, forKeys. revert s.
  induction keys as [|k keys IH]; intros s; simpl; auto.
Qed.

Lemma clearMap_init (keys : list InitSegmentReference) (s : state) :
  clearMap_ (map Init keys) s
  = (set_initSegmentPrefetchMap_
       (fst (sweep init_id (fun _ => true) keys (inits s, snd s))) (fst s),
     snd (sweep init_id (fun _ => true) keys (inits s, snd s))).
Proof.
  rewrite <- forKeys_init. unfold clearMap_, forKeys. revert s.
  induction keys as [|k keys IH]; intros s; simpl; auto.
Qed.

Lemma clearAll_closed (s : state) :
  JsMap.unique ref_id (segments s) -> JsMap.unique init_id (inits s) ->
  clearAll s
  = (set_prefetchPosTime_ 0
       (set_initSegmentPrefetchMap_ []
          (set_segmentPrefetchMap_ [] (fst s))),
     emits
       (abortEvents (heap (snd s)) (JsMap.values (segments s))
        ++ abortEvents (heap (snd s)) (JsMap.values (inits s)))
       (snd s)).
Proof.
  intros U1 U2. unfold clearAll.
  rewrite clearMap_media, sweep_all by exact U1. simp_state.
  rewrite clearMap_init. simp_state. rewrite sweep_all by exact U2.
  simp_state. cbn [negb]. rewrite !filter_none, !filter_true.
  unfold emits. simp_state. now rewrite app_assoc.
Qed.

Lemma shrink_closed (n : Z) (m : @JsMap.t SegmentReference Addr) :
  0 <= n ->
  forall s, segments s = m -> JsMap.unique ref_id m ->
  shrink (rev (JsMap.keys m)) n s
  = Ok (set_segmentPrefetchMap_ (firstn (Z.to_nat n) m) (fst s),
        emits
          (abortEvents (heap (snd s))
             (rev (JsMap.values (skipn (Z.to_nat n) m))))
          (snd s)).
Proof.
  intros N. induction m as [|[k a] m IH] using rev_ind; intros s E U.
  - rewrite firstn_nil, skipn_nil. cbn [JsMap.keys map rev shrink length].
    assert (G : (Z.of_nat 0 >? n) = false)
      by (rewrite Z.gtb_ltb; apply Z.ltb_ge; lia).
    rewrite G. simpl. rewrite emits_nil.
    destruct s as [[] w]. simpl in *. now subst.
  - unfold JsMap.keys. rewrite map_app, rev_app_distr.
    cbn [map rev app shrink length fst]. rewrite length_rev, length_map.
    destruct (Z.of_nat (S (length m)) >? n) eqn:G.
    + apply Z.gtb_lt in G.
      rewrite abort_media, E.
      rewrite (abortIn_found ref_id k _ (snd s) a).
      2:{ apply in_get; [exact U|]. apply in_or_app. right. now left. }
      rewrite delete_middle by exact U. cbn [fst snd]. rewrite app_nil_r.
      fold (JsMap.keys m). rewrite IH.
      2:{ reflexivity. }
      2:{ apply (unique_middle ref_id m [] (k, a)) in U.
          now rewrite app_nil_r in U. }
      cbn [fst snd]. rewrite emits_emits.
      rewrite firstn_app, skipn_app.
      replace (Z.to_nat n - length m)%nat with 0%nat by lia.
      simpl firstn. simpl skipn. rewrite app_nil_r.
      unfold JsMap.values. rewrite map_app, rev_app_distr. simpl.
      rewrite app_nil_r. reflexivity.
    + rewrite Z.gtb_ltb, Z.ltb_ge in G.
      rewrite firstn_all2 by (rewrite length_app; simpl; lia).
      rewrite skipn_all2 by (rewrite length_app; simpl; lia).
      simpl. rewrite emits_nil. rewrite <- E.
      destruct s as [[] w]. reflexivity.
Qed.

(** For a negative limit the loop of [resetLimit] does not end. *)
Lemma shrink_hangs (n : Z) (keyArr : list SegmentReference) :
  n < 0 -> forall s, shrink keyArr n s = Hangs [].
Proof.
  intros N. induction keyArr as [|k keyArr IH]; intros s; cbn [shrink].
  - assert (G : (Z.of_nat (length (@nil SegmentReference)) >? n) = true)
      by (apply Z.gtb_lt; cbn; lia).
    now rewrite G.
  - assert (G : (Z.of_nat (length (k :: keyArr)) >? n) = true)
      by (apply Z.gtb_lt; lia).
    rewrite G. apply IH.
Qed.

Lemma resetLimit_closed (n : Z) (s : state) :
  0 <= n ->
  JsMap.unique ref_id (segments s) -> JsMap.unique init_id (inits s) ->
  resetLimit n s
  = Ok (pruneInits
          (set_segmentPrefetchMap_
             (firstn (Z.to_nat n) (segments s))
             (set_prefetchLimit_ n (fst s)),
           emits
             (abortEvents (heap (snd s))
                (rev (JsMap.values (skipn (Z.to_nat n) (segments s)))))
             (snd s))).
Proof.
  intros N U1 U2. unfold resetLimit.
  assert (G : (n >=? 0) = true) by (apply Z.geb_le; lia).
  rewrite G. cbn [assert]. rewrite bind_Ok. simp_state.
  rewrite (shrink_closed n (segments s)); auto.
  rewrite bind_Ok. simp_state. now rewrite clearInitSegments_closed.
Qed.

Lemma resetLimit_hangs (n : Z) (s : state) :
  n < 0 ->
  resetLimit n s = Hangs ["The new prefetch limit must be >= 0."%string].
Proof.
  intros N. unfold resetLimit.
  assert (G : (n >=? 0) = false).
  { rewrite Z.geb_leb. apply Z.leb_gt. lia. }
  rewrite G. unfold assert, bind. now rewrite shrink_hangs.
Qed.

(** ** The dispatching steps, in closed form *)

Lemma prefetchInitSegment_closed (i : InitSegmentReference) (s : state) :
  prefetchInitSegment i s
  = Done (if prefetchLimit_ (fst s) >? 0 then [] else [limitMessage])
      (withInit i s).
Proof.
  unfold prefetchInitSegment, withInit.
  rewrite (bind_assert _ _ _ []
             match segmentIndex (stream_ (fst s)) with
             | Some _ =>
                 if JsMap.has init_id i (inits s) then s
                 else
                   (set_initSegmentPrefetchMap_
                      (inits s ++ [(i, length (heap (snd s)))]) (fst s),
                    fetched (fetchDispatcher_ (fst s)) (Init i)
                      (stream_ (fst s)) (snd s))
             | None => s
             end).
  - now rewrite app_nil_r.
  - destruct (segmentIndex (stream_ (fst s))); [|reflexivity].
    destruct (JsMap.has init_id i (inits s)) eqn:H; cbn [negb];
      [reflexivity|].
    unfold Operation.constructor, alloc. rewrite dispatch_fresh.
    rewrite set_absent by now apply has_get. reflexivity.
Qed.

Lemma withInit_frame (i : InitSegmentReference) (s : state) :
  prefetchLimit_ (fst (withInit i s)) = prefetchLimit_ (fst s)
  /\ stream_ (fst (withInit i s)) = stream_ (fst s)
  /\ prefetchPosTime_ (fst (withInit i s)) = prefetchPosTime_ (fst s)
  /\ fetchDispatcher_ (fst (withInit i s)) = fetchDispatcher_ (fst s)
  /\ deleteOnGet_ (fst (withInit i s)) = deleteOnGet_ (fst s)
  /\ segments (withInit i s) = segments s.
Proof.
  unfold withInit. destruct (segmentIndex (stream_ (fst s))); [|tauto].
  destruct (JsMap.has init_id i (inits s)); simp_state; tauto.
Qed.

Lemma withSegment_frame (r : SegmentReference) (s : state) :
  prefetchLimit_ (fst (withSegment r s)) = prefetchLimit_ (fst s)
  /\ stream_ (fst (withSegment r s)) = stream_ (fst s)
  /\ prefetchPosTime_ (fst (withSegment r s)) = prefetchPosTime_ (fst s)
  /\ fetchDispatcher_ (fst (withSegment r s)) = fetchDispatcher_ (fst s)
  /\ deleteOnGet_ (fst (withSegment r s)) = deleteOnGet_ (fst s)
  /\ inits (withSegment r s) = inits s.
Proof.
  unfold withSegment.
  destruct (JsMap.has ref_id r (segments s)); simp_state; tauto.
Qed.

Lemma body_frame (r : SegmentReference) (s : state) :
  prefetchLimit_ (fst (body r s)) = prefetchLimit_ (fst s)
  /\ stream_ (fst (body r s)) = stream_ (fst s)
  /\ fetchDispatcher_ (fst (body r s)) = fetchDispatcher_ (fst s)
  /\ deleteOnGet_ (fst (body r s)) = deleteOnGet_ (fst s)
  /\ prefetchPosTime_ (fst (body r s)) = startTime r.
Proof.
  unfold body. simp_state.
  set (s0 := (fst s, emit (Visit r) (snd s))).
  set (s1 := match initSegmentReference r with
             | Some i => if allowed r then withInit i s0 else s0
             | None => s0
             end).
  assert (F1 : prefetchLimit_ (fst s1) = prefetchLimit_ (fst s)
               /\ stream_ (fst s1) = stream_ (fst s)
               /\ fetchDispatcher_ (fst s1) = fetchDispatcher_ (fst s)
               /\ deleteOnGet_ (fst s1) = deleteOnGet_ (fst s)).
  { subst s1. destruct (initSegmentReference r) as [i|]; [|easy].
    destruct (allowed r); [|easy].
    pose proof (withInit_frame i s0) as F. unfold s0 in F at 2 4 6 8 10.
    simp_state. intuition congruence. }
  destruct (allowed r); [|tauto].
  pose proof (withSegment_frame r s1). intuition congruence.
Qed.

(** The loop, one iteration at a time. *)
Lemma scan_step (r : SegmentReference) (rest : list SegmentReference)
    (s : state) :
  scan (r :: rest) s
  = if Z.of_nat (JsMap.size (segments s)) <? prefetchLimit_ (fst s)
    then if stops r (body r s) then Ok (body r s) else scan rest (body r s)
    else Ok s.
Proof.
  cbn [scan]. simp_state.
  destruct (Z.of_nat (JsMap.size (segments s)) <? prefetchLimit_ (fst s))
    eqn:G; [|reflexivity].
  apply Z.ltb_lt in G.
  assert (L : (prefetchLimit_ (fst s) >? 0) = true)
    by (apply Z.gtb_lt; lia).
  assert (A : (if Status_eqb (getStatus r) MISSING then false
               else if isPreload r
                       && match endByte r with
                          | Some _ => true
                          | None => false
                          end
                    then false else true) = allowed r).
  { unfold allowed. destruct (Status_eqb (getStatus r) MISSING);
      destruct (isPreload r && _); reflexivity. }
  rewrite A. unfold body, stops. simp_state.
  set (s0 := (fst s, emit (Visit r) (snd s))).
  assert (E : match initSegmentReference r with
              | Some i => if allowed r then prefetchInitSegment i s0 else Ok s0
              | None => Ok s0
              end
              = Ok match initSegmentReference r with
                   | Some i => if allowed r then withInit i s0 else s0
                   | None => s0
                   end).
  { destruct (initSegmentReference r) as [i|]; [|reflexivity].
    destruct (allowed r); [|reflexivity].
    rewrite prefetchInitSegment_closed. subst s0. simp_state. now rewrite L. }
  rewrite E, bind_Ok. cbv beta.
  set (s1 := match initSegmentReference r with
             | Some i => if allowed r then withInit i s0 else s0
             | None => s0
             end).
  unfold withSegment.
  destruct (allowed r); cbn [andb]; [|reflexivity].
  destruct (JsMap.has ref_id r (segments s1)) eqn:H; cbn [negb];
    [reflexivity|].
  unfold Operation.constructor, alloc. rewrite dispatch_fresh.
  rewrite set_absent by now apply has_get. reflexivity.
Qed.

(** ** Invariants of the dispatching steps *)

Lemma withInit_wf (i : InitSegmentReference) (s : state) :
  wf s -> wf (withInit i s).
Proof.
  unfold wf, withInit. intros W.
  destruct (segmentIndex (stream_ (fst s))); [|exact W].
  destruct (JsMap.has init_id i (inits s)) eqn:H; [exact W|].
  unfold fetched. simp_state.
  apply tables_wf_add_init; [now apply has_get | exact W].
Qed.

Lemma withSegment_wf (r : SegmentReference) (s : state) :
  wf s -> wf (withSegment r s).
Proof.
  unfold wf, withSegment. intros W.
  destruct (JsMap.has ref_id r (segments s)) eqn:H; [exact W|].
  unfold fetched. simp_state.
  apply tables_wf_add_segment; [now apply has_get | exact W].
Qed.

Lemma withSegment_size (r : SegmentReference) (s : state) :
  (JsMap.size (segments (withSegment r s)) <= S (JsMap.size (segments s)))%nat.
Proof.
  unfold withSegment. destruct (JsMap.has ref_id r (segments s)); simp_state.
  - lia.
  - unfold JsMap.size. rewrite length_app. simpl. lia.
Qed.

Lemma body_wf (r : SegmentReference) (s : state) : wf s -> wf (body r s).
Proof.
  intros W. unfold body.
  set (s0 := (fst s, emit (Visit r) (snd s))).
  assert (W0 : wf s0) by exact W.
  set (s1 := match initSegmentReference r with
             | Some i => if allowed r then withInit i s0 else s0
             | None => s0
             end).
  assert (W1 : wf s1).
  { subst s1. destruct (initSegmentReference r); [|exact W0].
    destruct (allowed r); [|exact W0]. now apply withInit_wf. }
  destruct (allowed r); [|exact W1].
  exact (withSegment_wf r s1 W1).
Qed.

Lemma body_size (r : SegmentReference) (s : state) :
  (JsMap.size (segments (body r s)) <= S (JsMap.size (segments s)))%nat.
Proof.
  unfold body.
  set (s0 := (fst s, emit (Visit r) (snd s))).
  set (s1 := match initSegmentReference r with
             | Some i => if allowed r then withInit i s0 else s0
             | None => s0
             end).
  assert (E : segments s1 = segments s).
  { subst s1. destruct (initSegmentReference r) as [i|]; [|reflexivity].
    destruct (allowed r); [|reflexivity].
    now destruct (withInit_frame i s0) as (_ & _ & _ & _ & _ & ->). }
  simp_state. rewrite <- E.
  destruct (allowed r); [apply withSegment_size | lia].
Qed.

(** The loop always completes, keeps the tables well formed and never takes
    the media-segment table beyond the limit. *)
Lemma scan_invariant (refs : list SegmentReference) :
  forall s, wf s ->
  exists s', scan refs s = Ok s' /\ wf s' /\ (bounded s -> bounded s')
             /\ prefetchLimit_ (fst s') = prefetchLimit_ (fst s)
             /\ stream_ (fst s') = stream_ (fst s)
             /\ fetchDispatcher_ (fst s') = fetchDispatcher_ (fst s)
             /\ deleteOnGet_ (fst s') = deleteOnGet_ (fst s).
Proof.
  induction refs as [|r rest IH]; intros s W.
  - exists s. simpl. tauto.
  - rewrite scan_step.
    destruct (Z.of_nat (JsMap.size (segments s)) <? prefetchLimit_ (fst s))
      eqn:G; [|exists s; tauto].
    apply Z.ltb_lt in G.
    destruct (body_frame r s) as (F1 & F2 & F3 & F4 & _).
    assert (W' : wf (body r s)) by now apply body_wf.
    assert (B' : bounded (body r s)).
    { unfold bounded. rewrite F1. pose proof (body_size r s). lia. }
    destruct (stops r (body r s)).
    + exists (body r s). tauto.
    + destruct (IH (body r s) W') as (s' & E & W2 & B2 & L1 & L2 & L3 & L4).
      exists s'. intuition congruence.
Qed.

(** ** Every call maintains the invariant *)

Lemma pruneInits_wf (s : state) : wf s -> wf (pruneInits s).
Proof.
  unfold wf, pruneInits. simp_state. apply tables_wf_filter_inits.
Qed.

Lemma replace_all_heap (d : FetchDispatcher) (l : list Addr) (w : World) :
  let w' := fold_left
              (fun w operation =>
                 Operation.replaceFetchDispatcher d operation w) l w in
  length (heap w') = length (heap w)
  /\ trace w' = trace w /\ requests w' = requests w.
Proof.
  revert w. induction l as [|a l IH]; intros w; simpl; [tauto|].
  destruct (IH (Operation.replaceFetchDispatcher d a w)) as (H1 & H2 & H3).
  rewrite H1, H2, H3. unfold Operation.replaceFetchDispatcher, modify. simpl.
  now rewrite update_length.
Qed.

Lemma replace_all_dispatched (d : FetchDispatcher) (l : list Addr)
    (w : World) (a : Addr) :
  dispatched (heap w) a ->
  dispatched
    (heap (fold_left
             (fun w operation =>
                Operation.replaceFetchDispatcher d operation w) l w)) a.
Proof.
  revert w. induction l as [|b l IH]; intros w D; simpl; [exact D|].
  apply IH. unfold Operation.replaceFetchDispatcher, modify. simpl.
  now apply dispatched_update.
Qed.

Lemma replaceFetchDispatcher_invariant (d : FetchDispatcher) (s : state) :
  invariant s -> invariant (replaceFetchDispatcher d s).
Proof.
  unfold invariant, wf, bounded, replaceFetchDispatcher. simp_state.
  intros [W B]. split; [|exact B].
  eapply tables_wf_heap; [|exact W]. intros a. apply replace_all_dispatched.
Qed.

Lemma scan_visited (refs : list SegmentReference) :
  forall s, scan refs s = Ok (bodies (visited refs s) s).
Proof.
  induction refs as [|r rest IH]; intros s; [reflexivity|].
  rewrite scan_step. cbn [visited].
  destruct (Z.of_nat (JsMap.size (segments s)) <? prefetchLimit_ (fst s));
    [|reflexivity].
  unfold bodies. cbn [fold_left].
  destruct (stops r (body r s)); [reflexivity|]. apply IH.
Qed.

(** The scanning loop always completes, and no assertion fails in it: where
    it calls [prefetchInitSegment], the limit is positive. *)
Lemma scan_total (refs : list SegmentReference) :
  forall s, exists s', scan refs s = Ok s'.
Proof. intros s. rewrite scan_visited. eauto. Qed.

(** [prefetchSegmentsByTime] always returns. *)
Lemma prefetchSegmentsByTime_closed (currTime : Z) (skipFirst : bool)
    (s : state) :
  prefetchSegmentsByTime currTime skipFirst s
  = Done (limitReport s) (scanned currTime skipFirst s).
Proof.
  unfold prefetchSegmentsByTime, limitReport.
  rewrite (bind_assert _ _ _ [] (scanned currTime skipFirst s));
    [now rewrite app_nil_r|].
  unfold scanned.
  destruct (segmentIndex (stream_ (fst s))) as [index|]; [|reflexivity].
  destruct (getIteratorForTime index _ true) as [iterator|]; [|reflexivity].
  assert (N : (let '(reference0, iterator0) := next iterator in
               if skipFirst then next iterator0
               else (reference0, iterator0))
              = match (if skipFirst then tl iterator else iterator) with
                | [] => (None, [])
                | r :: rest => (Some r, rest)
                end).
  { destruct skipFirst; destruct iterator as [|r0 [|r1 it]]; reflexivity. }
  destruct (next iterator) as [reference0 iterator0]. rewrite N.
  destruct (if skipFirst then tl iterator else iterator) as [|r rest];
    [reflexivity|].
  now rewrite scan_visited, bind_Ok.
Qed.

Lemma scanned_invariant (currTime : Z) (skipFirst : bool) (s : state) :
  invariant s ->
  invariant (scanned currTime skipFirst s)
  /\ prefetchLimit_ (fst (scanned currTime skipFirst s))
     = prefetchLimit_ (fst s).
Proof.
  intros [W B]. unfold scanned.
  assert (Same : invariant s /\ prefetchLimit_ (fst s) = prefetchLimit_ (fst s))
    by (unfold invariant; tauto).
  destruct (segmentIndex (stream_ (fst s))) as [index|]; [|exact Same].
  destruct (getIteratorForTime index _ true) as [iterator|]; [|exact Same].
  destruct (if skipFirst then tl iterator else iterator) as [|r rest];
    [exact Same|].
  destruct (scan_invariant (r :: rest) s W) as (s' & E & W' & B' & F1 & _).
  specialize (B' B). rewrite scan_visited in E. injection E as <-.
  rewrite clearInitSegments_closed by apply W'.
  unfold invariant, bounded in *. split; [split|].
  - now apply pruneInits_wf.
  - unfold pruneInits. simp_state. exact B'.
  - unfold pruneInits. simp_state. exact F1.
Qed.

Lemma prefetchSegmentsByTime_invariant (currTime : Z) (skipFirst : bool)
    (s s' : state) (reported : list string) :
  invariant s ->
  prefetchSegmentsByTime currTime skipFirst s = Done reported s' ->
  invariant s' /\ prefetchLimit_ (fst s') = prefetchLimit_ (fst s).
Proof.
  intros I. rewrite prefetchSegmentsByTime_closed. intros [= _ <-].
  now apply scanned_invariant.
Qed.

Lemma withInit_invariant (i : InitSegmentReference) (s : state) :
  invariant s -> invariant (withInit i s).
Proof.
  intros [W B]. split; [now apply withInit_wf|]. unfold bounded.
  destruct (withInit_frame i s) as (-> & _ & _ & _ & _ & ->). exact B.
Qed.

Lemma prefetchInitSegment_invariant (i : InitSegmentReference) (s s' : state)
    (reported : list string) :
  invariant s -> prefetchInitSegment i s = Done reported s' -> invariant s'.
Proof.
  intros I. rewrite prefetchInitSegment_closed. intros [= _ <-].
  now apply withInit_invariant.
Qed.

Lemma getIn_tables {K : Type} (ident : K -> nat) (k : K)
    (cb : option Callback) (dog : bool) (m : @JsMap.t K Addr) (w : World) :
  let '(_, m', w') := getIn ident k cb dog m w in
  (m' = m \/ m' = JsMap.delete ident k m)
  /\ (forall a, dispatched (heap w) a -> dispatched (heap w') a)
  /\ trace w' = trace w /\ requests w' = requests w.
Proof.
  unfold getIn. destruct (JsMap.get ident k m) as [a|]; [|tauto].
  split; [destruct dog; tauto|].
  destruct cb; [|tauto].
  unfold Operation.setStreamDataCallback, modify. simpl.
  split; [|tauto]. intros b. now apply dispatched_update.
Qed.

(** [getPrefetchedSegment] always returns. *)
Lemma getPrefetchedSegment_closed (reference : Reference)
    (cb : option Callback) (s : state) :
  getPrefetchedSegment reference cb s
  = Done (limitReport s)
      match reference with
      | Init i =>
          let '(op, prefetchMap, w) :=
            getIn init_id i cb (deleteOnGet_ (fst s)) (inits s) (snd s) in
          (op, (set_initSegmentPrefetchMap_ prefetchMap (fst s), w))
      | Media r =>
          let '(op, prefetchMap, w) :=
            getIn ref_id r cb (deleteOnGet_ (fst s)) (segments s) (snd s) in
          (op, (set_segmentPrefetchMap_ prefetchMap (fst s), w))
      end.
Proof.
  unfold getPrefetchedSegment, limitReport.
  erewrite bind_assert; [now rewrite app_nil_r|].
  destruct reference as [r|i].
  - now destruct (getIn ref_id r cb _ _ _) as [[op m] w].
  - now destruct (getIn init_id i cb _ _ _) as [[op m] w].
Qed.

Lemma getPrefetchedSegment_invariant (reference : Reference)
    (cb : option Callback) (s s' : state) (reported : list string)
    (op : option PendingRequest) :
  invariant s ->
  getPrefetchedSegment reference cb s = Done reported (op, s') ->
  invariant s'.
Proof.
  intros W'. rewrite getPrefetchedSegment_closed.
  unfold invariant, wf, bounded in *.
  destruct reference as [r|i].
  - pose proof (getIn_tables ref_id r cb (deleteOnGet_ (fst s))
                  (segments s) (snd s)) as G.
    destruct (getIn ref_id r cb (deleteOnGet_ (fst s)) (segments s) (snd s))
      as [[op' m'] w']. intros [= _ _ <-]. simp_state.
    destruct G as ([->| ->] & G & _); destruct W' as [W B];
      (split; [eapply tables_wf_heap; [exact G|] | ]).
    + exact W.
    + exact B.
    + now apply tables_wf_filter_segments.
    + pose proof (size_filter
                    (fun e => negb (JsMap.same ref_id r (fst e))) (segments s)).
      unfold JsMap.delete. lia.
  - pose proof (getIn_tables init_id i cb (deleteOnGet_ (fst s))
                  (inits s) (snd s)) as G.
    destruct (getIn init_id i cb (deleteOnGet_ (fst s)) (inits s) (snd s))
      as [[op' m'] w']. intros [= _ _ <-]. simp_state.
    destruct G as ([->| ->] & G & _); destruct W' as [W B];
      (split; [eapply tables_wf_heap; [exact G|] | ]).
    + exact W.
    + exact B.
    + now apply tables_wf_filter_inits.
    + exact B.
Qed.

Lemma tables_wf_empty (h : list OperationObject.t) : tables_wf [] [] h.
Proof. constructor; simpl; try constructor; tauto. Qed.

Lemma clearAll_invariant (s : state) : invariant s -> invariant (clearAll s).
Proof.
  intros [W B]. rewrite clearAll_closed by apply W.
  unfold invariant, wf, bounded. simp_state. split.
  - apply tables_wf_empty.
  - simpl. lia.
Qed.

Lemma evict_invariant (time : Z) (s : state) :
  invariant s -> invariant (evict time s).
Proof.
  intros [W B]. rewrite evict_closed by apply W.
  unfold invariant, bounded. split.
  - apply pruneInits_wf. unfold wf. simp_state.
    now apply tables_wf_filter_segments.
  - unfold pruneInits. simp_state.
    pose proof (size_filter (fun e => negb (passed time e)) (segments s)).
    unfold bounded in B. lia.
Qed.

(** [resetLimit] returns exactly when the new limit is not negative. *)
Lemma resetLimit_invariant (n : Z) (s s' : state) (reported : list string) :
  invariant s -> resetLimit n s = Done reported s' ->
  invariant s' /\ 0 <= n /\ prefetchLimit_ (fst s') = n /\ reported = [].
Proof.
  intros [W B] H. destruct (Z.le_gt_cases 0 n) as [N|N].
  - rewrite resetLimit_closed in H by (auto; apply W). injection H as <- <-.
    unfold invariant, bounded. split; [split|auto].
    + apply pruneInits_wf. unfold wf. simp_state.
      apply tables_wf_prefix with (segs' := skipn (Z.to_nat n) (segments s)).
      rewrite firstn_skipn. exact W.
    + unfold pruneInits. simp_state. unfold JsMap.size.
      rewrite length_firstn. lia.
  - rewrite resetLimit_hangs in H by lia. discriminate.
Qed.

(** [switchStream] always returns. *)
Lemma switchStream_closed (stream : option Stream) (s : state) :
  switchStream stream s
  = Done (if deleteOnGet_ (fst s) then []
          else ["switchStream should only be used if deleteOnGet is true"
                %string])
      match stream with
      | Some stream =>
          if Nat.eqb (stream_ident stream) (stream_ident (stream_ (fst s)))
          then s
          else (set_stream_ stream (fst (clearAll s)), snd (clearAll s))
      | None => s
      end.
Proof.
  unfold switchStream. erewrite bind_assert; [now rewrite app_nil_r|].
  destruct stream as [stream|]; [|reflexivity].
  now destruct (Nat.eqb (stream_ident stream) (stream_ident (stream_ (fst s)))).
Qed.

Lemma switchStream_invariant (stream : option Stream) (s s' : state)
    (reported : list string) :
  invariant s -> switchStream stream s = Done reported s' -> invariant s'.
Proof.
  intros I. rewrite switchStream_closed. intros [= _ <-].
  destruct stream as [stream|]; [|exact I].
  destruct (Nat.eqb _ _); [exact I|].
  exact (clearAll_invariant s I).
Qed.

Lemma exec_invariant (c : Call) (s s' : state) (reported : list string) :
  invariant s -> exec c s = Done reported s' -> invariant s'.
Proof.
  intros I.
  destruct c as [d|currTime skipFirst|i|reference cb| |time|n|b|stream];
    cbn [exec].
  - intros [= _ <-]. now apply replaceFetchDispatcher_invariant.
  - intros H. now apply (prefetchSegmentsByTime_invariant _ _ _ _ _ I H).
  - apply prefetchInitSegment_invariant. exact I.
  - intros H. apply bind_inv in H.
    destruct H as (r1 & [op s1] & r2 & H & [= _ <-] & _).
    exact (getPrefetchedSegment_invariant _ _ _ _ _ _ I H).
  - intros [= _ <-]. now apply clearAll_invariant.
  - intros [= _ <-]. now apply evict_invariant.
  - intros H. now apply (resetLimit_invariant _ _ _ _ I H).
  - intros [= _ <-]. exact I.
  - apply switchStream_invariant. exact I.
Qed.

Lemma run_invariant (calls : list Call) :
  forall (s s' : state) (reported : list string),
    invariant s -> run calls s = Done reported s' -> invariant s'.
Proof.
  induction calls as [|c calls IH]; intros s s' reported I; cbn [run].
  - now intros [= _ <-].
  - intros H. apply bind_inv in H.
    destruct H as (r1 & s1 & r2 & H1 & H2 & _).
    exact (IH _ _ _ (exec_invariant _ _ _ _ I H1) H2).
Qed.

Lemma initial_invariant (prefetchLimit : Z) (stream : Stream)
    (fetchDispatcher : FetchDispatcher) (deleteOnGet : bool) :
  invariant (initial prefetchLimit stream fetchDispatcher deleteOnGet).
Proof.
  unfold invariant, wf, bounded, initial, constructor. simp_state. split.
  - apply tables_wf_empty.
  - simpl. lia.
Qed.

(** The states that calls can reach from a new cache are well formed. *)
Lemma reachable_wf (prefetchLimit : Z) (stream : Stream)
    (fetchDispatcher : FetchDispatcher) (deleteOnGet : bool)
    (calls : list Call) (s : state) (reported : list string) :
  run calls (initial prefetchLimit stream fetchDispatcher deleteOnGet)
  = Done reported s ->
  wf s.
Proof.
  intros H. exact (proj1 (run_invariant calls _ _ _ (initial_invariant _ _ _ _) H)).
Qed.

(** A call returns, unless it is [resetLimit] with a negative limit. *)
Lemma exec_returns (c : Call) (s : state) :
  match c with ResetLimit n => 0 <= n | _ => True end ->
  wf s ->
  exists reported s', exec c s = Done reported s'.
Proof.
  intros N W.
  destruct c as [d|currTime skipFirst|i|reference cb| |time|n|b|stream];
    cbn [exec]; eauto.
  - rewrite prefetchSegmentsByTime_closed. eauto.
  - rewrite prefetchInitSegment_closed. eauto.
  - rewrite getPrefetchedSegment_closed.
    destruct reference as [r|i].
    + destruct (getIn ref_id r cb _ _ _) as [[op m] w]. cbn. eauto.
    + destruct (getIn init_id i cb _ _ _) as [[op m] w]. cbn. eauto.
  - rewrite resetLimit_closed by (auto; apply W). eauto.
  - rewrite switchStream_closed. eauto.
Qed.

(** ** The prefetch limit *)

(** Operations that have been dispatched are aborted each by one call. *)
Lemma abortEvents_dispatched (h : list OperationObject.t) (l : list Addr) :
  Forall (dispatched h) l -> length (abortEvents h l) = length l.
Proof.
  induction 1 as [|a l (o & p & E & P) _ IH]; simpl; [reflexivity|].
  rewrite E, P. simpl. now rewrite IH.
Qed.

Lemma dispatched_part {K : Type} (h : list OperationObject.t)
    (m m' : @JsMap.t K Addr) :
  (forall e, In e m' -> In e m) ->
  Forall (dispatched h) (JsMap.values m) ->
  Forall (dispatched h) (JsMap.values m').
Proof.
  rewrite !Forall_forall. intros S A a H. apply A.
  unfold JsMap.values in *. apply in_map_iff in H.
  destruct H as (e & <- & H). apply in_map. now apply S.
Qed.




(** C5: for a limit [n >= 0], [resetLimit(n)] sets the limit to [n], keeps
    the first [min(n, size)] entries of the media-segment table, aborts the
    others, each by one call, last inserted first, and then prunes the init
    segments that no remaining entry refers to. *)
Theorem resetLimit_shrinks_last_in_first_out :
  forall (s : state) (n : Z),
    wf s -> 0 <= n ->
    exists s',
      resetLimit n s = Ok s'
      /\ prefetchLimit_ (fst s') = n
      /\ segments s' = firstn (Z.to_nat n) (segments s)
      /\ JsMap.size (segments s')
         = Nat.min (Z.to_nat n) (JsMap.size (segments s))
      /\ inits s' = filter (referenced (segments s')) (inits s)
      /\ snd s'
         = emits
             (abortEvents (heap (snd s))
                (rev (JsMap.values (skipn (Z.to_nat n) (segments s))))
              ++ abortEvents (heap (snd s))
                   (JsMap.values
                      (filter (fun e => negb (referenced (segments s') e))
                         (inits s))))
             (snd s)
      /\ length (abortEvents (heap (snd s))
                   (rev (JsMap.values (skipn (Z.to_nat n) (segments s)))))
         = (JsMap.size (segments s) - Z.to_nat n)%nat.
Proof.
  intros s n W N. eexists. split.
  - apply resetLimit_closed; [exact N | apply W | apply W].
  - unfold pruneInits. simp_state.
    split; [reflexivity|]. split; [reflexivity|].
    split; [unfold JsMap.size; apply length_firstn|].
    split; [reflexivity|]. split; [now rewrite emits_emits|].
    rewrite abortEvents_dispatched.
    + unfold JsMap.values, JsMap.size.
      now rewrite length_rev, length_map, length_skipn.
    + apply Forall_rev.
      apply (dispatched_part _ (segments s)); [|apply W].
      intros e H. rewrite <- (firstn_skipn (Z.to_nat n) (segments s)).
      apply in_or_app. now right.
Qed.

(** ** Eviction *)


(** ** Pruning of init segments *)



(** ** Retrieval *)

(** C10: [getPrefetchedSegment] asserts [prefetchLimit > 0] although it
    dispatches nothing: at a prefetch limit of 0, and at any limit that is
    not positive, a lookup violates that assertion, whatever reference is
    looked up: the failure is reported with the message of the limit. The
    call is a pure lookup: it makes no call to the dispatcher and none to a
    pending request. *)
Theorem getPrefetchedSegment_asserts_limit :
  forall (s : state) (reference : Reference) (cb : option Callback),
    prefetchLimit_ (fst s) <= 0 ->
    exists op s',
      getPrefetchedSegment reference cb s = Done [limitMessage] (op, s')
      /\ trace (snd s') = trace (snd s)
      /\ requests (snd s') = requests (snd s).
Proof.
  intros s reference cb L. rewrite getPrefetchedSegment_closed.
  unfold limitReport.
  assert (G : (prefetchLimit_ (fst s) >? 0) = false)
    by (rewrite Z.gtb_ltb; apply Z.ltb_ge; lia).
  rewrite G. destruct reference as [r|i].
  - pose proof (getIn_tables ref_id r cb (deleteOnGet_ (fst s))
                  (segments s) (snd s)) as T.
    destruct (getIn ref_id r cb _ _ _) as [[op m] w].
    destruct T as (_ & _ & T1 & T2). now exists op, (set_segmentPrefetchMap_ m (fst s), w).
  - pose proof (getIn_tables init_id i cb (deleteOnGet_ (fst s))
                  (inits s) (snd s)) as T.
    destruct (getIn init_id i cb _ _ _) as [[op m] w].
    destruct T as (_ & _ & T1 & T2).
    now exists op, (set_initSegmentPrefetchMap_ m (fst s), w).
Qed.

Lemma get_same_ident {K V : Type} (ident : K -> nat) (k k' : K)
    (m : @JsMap.t K V) :
  ident k = ident k' -> JsMap.get ident k m = JsMap.get ident k' m.
Proof.
  intros E. induction m as [|[k0 v] m IH]; simpl; [reflexivity|].
  unfold JsMap.same. now rewrite E, IH.
Qed.

Lemma getIn_absent {K : Type} (ident : K -> nat) (k : K)
    (cb : option Callback) (dog : bool) (m : @JsMap.t K Addr) (w : World) :
  JsMap.get ident k m = None -> getIn ident k cb dog m w = (None, m, w).
Proof. unfold getIn. now intros ->. Qed.

Lemma getOperation_setStreamDataCallback (cb : option Callback)
    (a b : Addr) (w : World) :
  Operation.getOperation b (Operation.setStreamDataCallback cb a w)
  = Operation.getOperation b w.
Proof.
  unfold Operation.getOperation, Operation.setStreamDataCallback, deref,
    modify. simpl.
  destruct (Nat.eq_dec a b) as [<-|N].
  - destruct (nth_error (heap w) a) as [o|] eqn:E.
    + now rewrite (nth_error_update_same _ _ _ _ E).
    + assert (X : nth_error (update a
                     (OperationObject.set_streamDataCallback_ cb) (heap w)) a
                  = None).
      { apply nth_error_None. rewrite update_length.
        now apply nth_error_None. }
      now rewrite X.
  - now rewrite nth_error_update_other.
Qed.

Lemma getIn_present {K : Type} (ident : K -> nat) (k : K)
    (cb : option Callback) (dog : bool) (m : @JsMap.t K Addr) (w : World)
    (a : Addr) :
  JsMap.get ident k m = Some a ->
  getIn ident k cb dog m w
  = (Operation.getOperation a w,
     if dog then JsMap.delete ident k m else m,
     match cb with
     | Some _ => Operation.setStreamDataCallback cb a w
     | None => w
     end).
Proof.
  unfold getIn. intros ->. destruct cb; [|reflexivity].
  now rewrite getOperation_setStreamDataCallback.
Qed.


(** ** Replacing the dispatcher *)

Lemma nth_error_update {A : Type} (n m : nat) (f : A -> A) (l : list A) :
  nth_error (update n f l) m
  = if Nat.eq_dec n m then option_map f (nth_error l m) else nth_error l m.
Proof.
  destruct (Nat.eq_dec n m) as [<-|N].
  - destruct (nth_error l n) as [x|] eqn:E.
    + now apply nth_error_update_same.
    + apply nth_error_None. rewrite update_length. now apply nth_error_None.
  - now apply nth_error_update_other.
Qed.

Lemma replace_all_deref (d : FetchDispatcher) (l : list Addr) (w : World)
    (a : Addr) :
  NoDup l ->
  deref a
    (fold_left
       (fun w operation => Operation.replaceFetchDispatcher d operation w) l w)
  = if in_dec Nat.eq_dec a l
    then option_map (OperationObject.set_fetchDispatcher_ d) (deref a w)
    else deref a w.
Proof.
  revert w. induction l as [|b l IH]; intros w N; [reflexivity|].
  inversion N as [|? ? Nb N']; subst. cbn [fold_left]. rewrite IH by exact N'.
  unfold Operation.replaceFetchDispatcher, deref, modify. cbn [heap].
  rewrite nth_error_update.
  destruct (in_dec Nat.eq_dec a (b :: l)) as [I|I];
    destruct (in_dec Nat.eq_dec a l) as [I'|I'];
    destruct (Nat.eq_dec b a) as [E|E]; subst; simpl in I;
    try reflexivity; tauto.
Qed.

(** What [replaceFetchDispatcher] does in every well-formed state: the
    operations of the media-segment table take the new dispatcher, and no
    other object changes; the operations of the init-segment table are
    among those. *)
Lemma replaceFetchDispatcher_effect (d : FetchDispatcher) (s : state) :
  wf s ->
  let s' := replaceFetchDispatcher d s in
  fetchDispatcher_ (fst s') = d
  /\ (forall a, In a (JsMap.values (segments s)) ->
        deref a (snd s')
        = option_map (OperationObject.set_fetchDispatcher_ d)
            (deref a (snd s)))
  /\ (forall a, In a (JsMap.values (inits s)) ->
        deref a (snd s') = deref a (snd s)).
Proof.
  intros W. unfold replaceFetchDispatcher. simp_state.
  split; [reflexivity|]. split; intros a H;
    rewrite replace_all_deref by apply W;
    destruct (in_dec Nat.eq_dec a (JsMap.values (segments s))) as [I|I];
    try reflexivity; try tauto.
  exfalso. exact (wf_sep _ _ _ W a I H).
Qed.

(** C1, on the scenario: after [replaceFetchDispatcher(9)] the cache and
    the operations of the two media segments use dispatcher 9, but the
    operation of the init segment still holds dispatcher 0, the one it was
    created with. *)
Theorem replaceFetchDispatcher_skips_init_segments :
  let s := replaceFetchDispatcher 9%nat Scenario.loaded in
  fetchDispatcher_ (fst s) = 9%nat
  /\ map (fun a => option_map OperationObject.fetchDispatcher_
                     (deref a (snd s)))
       (JsMap.values (segments s)) = [Some 9%nat; Some 9%nat]
  /\ JsMap.keys (inits s) = [Scenario.I1]
  /\ map (fun a => option_map OperationObject.fetchDispatcher_
                     (deref a (snd s)))
       (JsMap.values (inits s)) = [Some 0%nat].
Proof. vm_compute. repeat split. Qed.

(** ** Buffering of stream data *)

Lemma buffered_append (b data : BufferSource) :
  (if (0 <? length b)%nat then b ++ data else data) = b ++ data.
Proof. destruct b; reflexivity. Qed.

Lemma onData_buffers (data : BufferSource) (settlement : Settlement)
    (this : Addr) (w : World) (o : OperationObject.t) :
  deref this w = Some o -> OperationObject.streamDataCallback_ o = None ->
  trace (Operation.onData data settlement this w) = trace w
  /\ deref this (Operation.onData data settlement this w)
     = Some (OperationObject.set_buffered
               (OperationObject.buffered o ++ data) o).
Proof.
  intros D C. unfold Operation.onData. rewrite D, C, buffered_append.
  split; [reflexivity|]. unfold deref, modify. cbn [heap].
  now apply nth_error_update_same.
Qed.

(** A chunk that arrives when a callback is attached is delivered behind
    the accumulated bytes; the accumulator is cleared when the delivery
    resolves, and holds what was delivered when the delivery is rejected. *)
Lemma onData_settles (data : BufferSource) (settlement : Settlement)
    (this : Addr) (w : World) (o : OperationObject.t) (cb : Callback) :
  deref this w = Some o -> OperationObject.streamDataCallback_ o = Some cb ->
  trace (Operation.onData data settlement this w)
  = trace w ++ [Deliver cb (OperationObject.buffered o ++ data)]
  /\ deref this (Operation.onData data settlement this w)
     = Some (OperationObject.set_buffered
               match settlement with
               | Resolves => []
               | Rejects => OperationObject.buffered o ++ data
               end o).
Proof.
  intros D C. unfold Operation.onData. rewrite D, C, buffered_append.
  assert (E : nth_error
                (update this
                   (OperationObject.set_buffered
                      (OperationObject.buffered o ++ data)) (heap w)) this
              = Some (OperationObject.set_buffered
                        (OperationObject.buffered o ++ data) o))
    by now apply nth_error_update_same.
  destruct settlement.
  - split; [reflexivity|]. unfold deref, modify, emit. cbn [heap].
    now rewrite (nth_error_update_same this _ _ _ E).
  - split; [reflexivity|]. unfold deref, modify, emit. cbn [heap]. exact E.
Qed.

Lemma onData_delivers (data : BufferSource) (this : Addr) (w : World)
    (o : OperationObject.t) (cb : Callback) :
  deref this w = Some o -> OperationObject.streamDataCallback_ o = Some cb ->
  trace (Operation.onData data Resolves this w)
  = trace w ++ [Deliver cb (OperationObject.buffered o ++ data)]
  /\ deref this (Operation.onData data Resolves this w)
     = Some (OperationObject.set_buffered [] o).
Proof. apply onData_settles. Qed.

Lemma onDataAll_delivers (chunks : list BufferSource) (this : Addr)
    (cb : Callback) :
  forall (w : World) (o : OperationObject.t),
    deref this w = Some o ->
    OperationObject.streamDataCallback_ o = Some cb ->
    OperationObject.buffered o = [] ->
    trace (Operation.onDataAll (map (fun c => (c, Resolves)) chunks) this w)
    = trace w ++ map (Deliver cb) chunks.
Proof.
  unfold Operation.onDataAll.
  induction chunks as [|c chunks IH]; intros w o D C B;
    cbn [fold_left map fst snd].
  - now rewrite app_nil_r.
  - destruct (onData_delivers c this w o cb D C) as [T D'].
    rewrite (IH _ _ D' C eq_refl), T, B. now rewrite <- app_assoc.
Qed.

(** C2, as the code has it: [setStreamDataCallback(cb)] only records [cb];
    nothing is delivered and the accumulator keeps its bytes. The first
    chunk that arrives afterwards is delivered to [cb] in one call together
    with the accumulated bytes in front of it, whatever becomes of the
    delivery; when the delivery completes, the accumulator is cleared, and
    every later chunk is then delivered to [cb] on its own, as long as the
    deliveries complete. *)
Theorem setStreamDataCallback_flushes_with_next_chunk :
  forall (this : Addr) (w : World) (o : OperationObject.t) (cb : Callback)
         (chunk : BufferSource) (chunks : list BufferSource),
    deref this w = Some o ->
    let w1 := Operation.setStreamDataCallback (Some cb) this w in
    let w2 := Operation.onData chunk Resolves this w1 in
    trace w1 = trace w
    /\ option_map OperationObject.buffered (deref this w1)
       = Some (OperationObject.buffered o)
    /\ (forall settlement,
          trace (Operation.onData chunk settlement this w1)
          = trace w ++ [Deliver cb (OperationObject.buffered o ++ chunk)])
    /\ option_map OperationObject.buffered (deref this w2) = Some []
    /\ trace (Operation.onDataAll (map (fun c => (c, Resolves)) chunks)
                this w2)
       = trace w2 ++ map (Deliver cb) chunks.
Proof.
  intros this w o cb chunk chunks D w1 w2.
  assert (D1 : deref this w1
               = Some (OperationObject.set_streamDataCallback_ (Some cb) o)).
  { unfold w1, Operation.setStreamDataCallback, deref, modify. cbn [heap].
    now apply nth_error_update_same. }
  destruct (onData_delivers chunk this w1 _ cb D1 eq_refl) as [T2 D2].
  fold w2 in T2, D2.
  split; [reflexivity|]. split; [now rewrite D1|]. split.
  - intros settlement.
    now destruct (onData_settles chunk settlement this w1 _ cb D1 eq_refl)
      as [T _].
  - split; [now rewrite D2|].
    exact (onDataAll_delivers chunks this cb w2 _ D2 eq_refl eq_refl).
Qed.

(** ** One operation per reference *)

Lemma withInit_events (i : InitSegmentReference) (s : state) :
  (forall r a, JsMap.get ref_id r (segments s) = Some a ->
               JsMap.get ref_id r (segments (withInit i s)) = Some a)
  /\ (forall j a, JsMap.get init_id j (inits s) = Some a ->
                  JsMap.get init_id j (inits (withInit i s)) = Some a)
  /\ exists e,
       trace (snd (withInit i s)) = trace (snd s) ++ e
       /\ (e = [] \/ exists d st p,
                      e = [Fetch d (Init i) st p]
                      /\ JsMap.get init_id i (inits s) = None).
Proof.
  unfold withInit. destruct (segmentIndex (stream_ (fst s))).
  2:{ repeat split; auto. exists []. rewrite app_nil_r. auto. }
  destruct (JsMap.has init_id i (inits s)) eqn:H.
  { repeat split; auto. exists []. rewrite app_nil_r. auto. }
  apply has_get in H. simp_state. split; [auto|]. split.
  - intros j a G. rewrite get_app. now rewrite G.
  - eexists. split; [reflexivity|]. right. eauto.
Qed.

Lemma withSegment_events (r : SegmentReference) (s : state) :
  (forall r' a, JsMap.get ref_id r' (segments s) = Some a ->
                JsMap.get ref_id r' (segments (withSegment r s)) = Some a)
  /\ (forall j a, JsMap.get init_id j (inits s) = Some a ->
                  JsMap.get init_id j (inits (withSegment r s)) = Some a)
  /\ exists e,
       trace (snd (withSegment r s)) = trace (snd s) ++ e
       /\ (e = [] \/ exists d st p,
                      e = [Fetch d (Media r) st p]
                      /\ JsMap.get ref_id r (segments s) = None).
Proof.
  unfold withSegment.
  destruct (JsMap.has ref_id r (segments s)) eqn:H.
  { repeat split; auto. exists []. rewrite app_nil_r. auto. }
  apply has_get in H. simp_state. split; [|split; [auto|]].
  - intros j a G. rewrite get_app. now rewrite G.
  - eexists. split; [reflexivity|]. right. eauto.
Qed.

(** One run of the loop body: the entries that exist stay, and the events
    are the visit, then at most one dispatch of an init segment that had no
    entry, then at most one dispatch of the reference if it had no entry. *)
Lemma body_events (r : SegmentReference) (s : state) :
  (forall r' a, JsMap.get ref_id r' (segments s) = Some a ->
                JsMap.get ref_id r' (segments (body r s)) = Some a)
  /\ (forall j a, JsMap.get init_id j (inits s) = Some a ->
                  JsMap.get init_id j (inits (body r s)) = Some a)
  /\ exists e1 e2,
       trace (snd (body r s)) = trace (snd s) ++ Visit r :: e1 ++ e2
       /\ (e1 = [] \/ exists i d st p,
                       e1 = [Fetch d (Init i) st p]
                       /\ JsMap.get init_id i (inits s) = None)
       /\ (e2 = [] \/ exists d st p,
                       e2 = [Fetch d (Media r) st p]
                       /\ JsMap.get ref_id r (segments s) = None).
Proof.
  unfold body.
  set (s0 := (fst s, emit (Visit r) (snd s))).
  set (s1 := match initSegmentReference r with
             | Some i => if allowed r then withInit i s0 else s0
             | None => s0
             end).
  assert (H1 :
    (forall r' a, JsMap.get ref_id r' (segments s) = Some a ->
                  JsMap.get ref_id r' (segments s1) = Some a)
    /\ (forall j a, JsMap.get init_id j (inits s) = Some a ->
                    JsMap.get init_id j (inits s1) = Some a)
    /\ exists e1,
         trace (snd s1) = trace (snd s) ++ Visit r :: e1
         /\ (e1 = [] \/ exists i d st p,
                         e1 = [Fetch d (Init i) st p]
                         /\ JsMap.get init_id i (inits s) = None)).
  { assert (Z0 : (forall r' a, JsMap.get ref_id r' (segments s) = Some a ->
                    JsMap.get ref_id r' (segments s0) = Some a)
                 /\ (forall j a, JsMap.get init_id j (inits s) = Some a ->
                       JsMap.get init_id j (inits s0) = Some a)
                 /\ exists e1,
                      trace (snd s0) = trace (snd s) ++ Visit r :: e1
                      /\ (e1 = [] \/ exists i d st p,
                            e1 = [Fetch d (Init i) st p]
                            /\ JsMap.get init_id i (inits s) = None)).
    { split; [auto|]. split; [auto|]. exists []. auto. }
    subst s1. destruct (initSegmentReference r) as [i|]; [|exact Z0].
    destruct (allowed r); [|exact Z0].
    destruct (withInit_events i s0) as (A & B & e & T & E).
    split; [exact A|]. split; [exact B|]. exists e. split.
    - rewrite T. subst s0. simp_state. unfold emit. simp_state.
      now rewrite <- app_assoc.
    - destruct E as [E|(d & st & p & E & G)]; [now left|]. right.
      exists i, d, st, p. auto. }
  destruct H1 as (A1 & B1 & e1 & T1 & E1). simp_state.
  destruct (allowed r).
  - destruct (withSegment_events r s1) as (A & B & e & T & E).
    split; [auto|]. split; [auto|]. exists e1, e. split; [|split; [exact E1|]].
    + rewrite T, T1. rewrite <- app_assoc. reflexivity.
    + destruct E as [E|(d & st & p & E & G)]; [now left|]. right.
      exists d, st, p. split; [exact E|].
      destruct (JsMap.get ref_id r (segments s)) as [a|] eqn:X;
        [|reflexivity].
      apply A1 in X. congruence.
  - split; [exact A1|]. split; [exact B1|]. exists e1, [].
    rewrite app_nil_r. auto.
Qed.

Lemma novel_weaken (s s' : state) (e : Event) :
  (forall r a, JsMap.get ref_id r (segments s) = Some a ->
               JsMap.get ref_id r (segments s') = Some a) ->
  (forall j a, JsMap.get init_id j (inits s) = Some a ->
               JsMap.get init_id j (inits s') = Some a) ->
  novel s' e -> novel s e.
Proof.
  intros A B. destruct e as [d [r|i] st p| | |]; simpl; auto.
  - intros N. destruct (JsMap.get ref_id r (segments s)) eqn:X; [|reflexivity].
    apply A in X. congruence.
  - intros N. destruct (JsMap.get init_id i (inits s)) eqn:X; [|reflexivity].
    apply B in X. congruence.
Qed.

(** The scanning loop keeps the entries it finds and dispatches only
    references that have no entry. *)
Lemma scan_keeps (refs : list SegmentReference) :
  forall s s',
    scan refs s = Ok s' ->
    (forall r a, JsMap.get ref_id r (segments s) = Some a ->
                 JsMap.get ref_id r (segments s') = Some a)
    /\ (forall j a, JsMap.get init_id j (inits s) = Some a ->
                    JsMap.get init_id j (inits s') = Some a)
    /\ exists new,
         trace (snd s') = trace (snd s) ++ new /\ Forall (novel s) new.
Proof.
  induction refs as [|r rest IH]; intros s s' H.
  - simpl in H. injection H as <-. repeat split; auto.
    exists []. now rewrite app_nil_r.
  - rewrite scan_step in H.
    assert (Stay : scan [] s = Ok s) by reflexivity.
    destruct (Z.of_nat (JsMap.size (segments s)) <? prefetchLimit_ (fst s)).
    2:{ injection H as <-. repeat split; auto.
        exists []. now rewrite app_nil_r. }
    destruct (body_events r s) as (A & B & e1 & e2 & T & E1 & E2).
    assert (N : Forall (novel s) (Visit r :: e1 ++ e2)).
    { constructor; [exact I|]. apply Forall_app. split.
      - destruct E1 as [->|(i & d & st & p & -> & G)]; repeat constructor.
        exact G.
      - destruct E2 as [->|(d & st & p & -> & G)]; repeat constructor.
        exact G. }
    destruct (stops r (body r s)).
    + injection H as <-. split; [exact A|]. split; [exact B|]. eauto.
    + destruct (IH _ _ H) as (A' & B' & new & T' & N').
      split; [auto|]. split; [auto|].
      exists ((Visit r :: e1 ++ e2) ++ new). split.
      * rewrite T', T. now rewrite <- app_assoc.
      * apply Forall_app. split; [exact N|].
        eapply Forall_impl; [|exact N']. intros e. now apply novel_weaken.
Qed.

(** A call of [prefetchSegmentsByTime] either returns at once or scans and
    then prunes. *)
Lemma prefetchSegmentsByTime_cases (currTime : Z) (skipFirst : bool)
    (s s' : state) (reported : list string) :
  prefetchSegmentsByTime currTime skipFirst s = Done reported s' ->
  s' = s
  \/ exists index iterator reference rest s1,
       segmentIndex (stream_ (fst s)) = Some index
       /\ getIteratorForTime index
            (Z.max currTime (prefetchPosTime_ (fst s))) true = Some iterator
       /\ (if skipFirst then tl iterator else iterator) = reference :: rest
       /\ scan (reference :: rest) s = Ok s1
       /\ s' = clearInitSegments_ s1.
Proof.
  rewrite prefetchSegmentsByTime_closed. intros [= _ <-]. unfold scanned.
  destruct (segmentIndex (stream_ (fst s))) as [index|]; [|now left].
  destruct (getIteratorForTime index _ true) as [iterator|] eqn:It;
    [|now left].
  destruct (if skipFirst then tl iterator else iterator) as [|r rest] eqn:Hd;
    [now left|].
  right. exists index, iterator, r, rest, (bodies (visited (r :: rest) s) s).
  repeat split; auto. apply scan_visited.
Qed.

Lemma in_abortEvents (h : list OperationObject.t) (l : list Addr)
    (e : Event) :
  In e (abortEvents h l) -> exists p, e = Abort p.
Proof.
  unfold abortEvents. intros H. apply in_flat_map in H.
  destruct H as (a & _ & H).
  destruct (nth_error h a) as [o|]; [|destruct H].
  destruct (OperationObject.operation_ o) as [p|]; [|destruct H].
  destruct H as [<-|[]]. now exists p.
Qed.

(** C7: in every state that calls can reach, no reference identity has two
    entries in its table and no operation is stored twice; a repeated
    [prefetchInitSegment] of a reference that has an entry returns and
    changes nothing; and [prefetchSegmentsByTime] returns, leaves every
    media-segment entry it finds in place with its operation, and dispatches
    no reference, media or init, that has an entry when it is called. *)
Theorem one_operation_per_reference :
  forall (prefetchLimit : Z) (stream : Stream)
         (fetchDispatcher : FetchDispatcher) (deleteOnGet : bool)
         (calls : list Call) (reported : list string) (s : state),
    run calls (initial prefetchLimit stream fetchDispatcher deleteOnGet)
    = Done reported s ->
    NoDup (map ref_id (JsMap.keys (segments s)))
    /\ NoDup (map init_id (JsMap.keys (inits s)))
    /\ NoDup (JsMap.values (segments s) ++ JsMap.values (inits s))
    /\ (forall i a,
          JsMap.get init_id i (inits s) = Some a ->
          exists reported', prefetchInitSegment i s = Done reported' s)
    /\ (forall currTime skipFirst,
          exists reported' s',
            prefetchSegmentsByTime currTime skipFirst s = Done reported' s'
            /\ (forall r a,
                  JsMap.get ref_id r (segments s) = Some a ->
                  JsMap.get ref_id r (segments s') = Some a
                  /\ forall d st p,
                       In (Fetch d (Media r) st p) (trace (snd s')) ->
                       In (Fetch d (Media r) st p) (trace (snd s)))
            /\ (forall i a,
                  JsMap.get init_id i (inits s) = Some a ->
                  forall d st p,
                    In (Fetch d (Init i) st p) (trace (snd s')) ->
                    In (Fetch d (Init i) st p) (trace (snd s)))).
Proof.
  intros prefetchLimit stream fetchDispatcher deleteOnGet calls reported s R.
  assert (I : invariant s)
    by (eapply run_invariant; [apply initial_invariant | exact R]).
  destruct I as [W _].
  split; [apply W|]. split; [apply W|]. split.
  { apply NoDup_app; [apply W | apply W | apply W]. }
  split.
  - intros i a G. rewrite prefetchInitSegment_closed. eexists. f_equal.
    unfold withInit. destruct (segmentIndex (stream_ (fst s))); [|reflexivity].
    unfold JsMap.has. now rewrite G.
  - intros currTime skipFirst.
    destruct (prefetchSegmentsByTime currTime skipFirst s) as [rep s'|rep]
      eqn:E; [|now rewrite prefetchSegmentsByTime_closed in E].
    exists rep, s'. split; [reflexivity|].
    apply prefetchSegmentsByTime_cases in E.
    destruct E as [->|(index & it & r0 & rest & s1 & _ & _ & _ & Sc & ->)].
    { split; intros; auto. }
    destruct (scan_invariant (r0 :: rest) s W) as (s1' & Sc' & W1 & _).
    rewrite Sc in Sc'. injection Sc' as <-.
    rewrite clearInitSegments_closed by apply W1.
    destruct (scan_keeps _ _ _ Sc) as (A & B & new & T & N).
    unfold pruneInits. simp_state. rewrite T.
    assert (X : forall e,
               In e ((trace (snd s) ++ new)
                     ++ abortEvents (heap (snd s1))
                          (JsMap.values
                             (filter
                                (fun e => negb (referenced (segments s1) e))
                                (inits s1)))) ->
               (forall p, e <> Abort p) ->
               In e (trace (snd s)) \/ novel s e).
    { intros e H NA. apply in_app_or in H. destruct H as [H|H].
      - apply in_app_or in H. destruct H as [H|H]; [now left|]. right.
        rewrite Forall_forall in N. now apply N.
      - apply in_abortEvents in H. destruct H as (p & ->).
        exfalso. now apply (NA p). }
    split.
    + intros r a G. split; [now apply A|]. intros d st p H.
      apply X in H; [|discriminate].
      destruct H as [H|H]; [exact H|]. simpl in H. congruence.
    + intros i a G d st p H.
      apply X in H; [|discriminate].
      destruct H as [H|H]; [exact H|]. simpl in H. congruence.
Qed.

(** ** The prefetch position *)

Lemma mentions_app (r : SegmentReference) (l l' : list Event) :
  mentions r (l ++ l') <-> mentions r l \/ mentions r l'.
Proof.
  unfold mentions. split.
  - intros [H|(d & st & p & H)]; apply in_app_or in H; destruct H as [H|H];
      eauto 8.
  - intros [[H|(d & st & p & H)]|[H|(d & st & p & H)]];
      [left|right; exists d, st, p|left|right; exists d, st, p];
      apply in_or_app; auto.
Qed.

Lemma mentions_nil (r : SegmentReference) : ~ mentions r [].
Proof. intros [H|(d & st & p & H)]; destruct H. Qed.

Lemma mentions_aborts (r : SegmentReference) (h : list OperationObject.t)
    (l : list Addr) :
  ~ mentions r (abortEvents h l).
Proof.
  intros [H|(d & st & p & H)]; apply in_abortEvents in H;
    destruct H as (q & H); discriminate.
Qed.

Lemma body_mentions (r : SegmentReference) (s : state) :
  exists new,
    trace (snd (body r s)) = trace (snd s) ++ new
    /\ forall r', mentions r' new -> r' = r.
Proof.
  destruct (body_events r s) as (_ & _ & e1 & e2 & T & E1 & E2).
  exists (Visit r :: e1 ++ e2). split; [exact T|].
  intros r' M.
  change (Visit r :: e1 ++ e2) with ([Visit r] ++ e1 ++ e2) in M.
  rewrite !mentions_app in M. destruct M as [M|[M|M]].
  - destruct M as [[M|[]]|(d & st & p & [M|[]])]; congruence.
  - destruct E1 as [->|(i & d & st & p & -> & _)].
    + now apply mentions_nil in M.
    + destruct M as [[M|[]]|(d' & st' & p' & [M|[]])]; discriminate.
  - destruct E2 as [->|(d & st & p & -> & _)].
    + now apply mentions_nil in M.
    + destruct M as [[M|[]]|(d' & st' & p' & [M|[]])]; congruence.
Qed.

(** The scanning loop over references in the order of their start times,
    none of which starts before the position. *)
Lemma scan_position (refs : list SegmentReference) :
  forall s s',
    scan refs s = Ok s' ->
    StronglySorted (fun a b => startTime a <= startTime b) refs ->
    (forall r, In r refs -> prefetchPosTime_ (fst s) <= startTime r) ->
    stream_ (fst s') = stream_ (fst s)
    /\ prefetchPosTime_ (fst s) <= prefetchPosTime_ (fst s')
    /\ (prefetchPosTime_ (fst s') = prefetchPosTime_ (fst s)
        \/ exists r, In r refs /\ prefetchPosTime_ (fst s') = startTime r)
    /\ exists new,
         trace (snd s') = trace (snd s) ++ new
         /\ forall r, mentions r new ->
                      startTime r <= prefetchPosTime_ (fst s').
Proof.
  induction refs as [|r rest IH]; intros s s' H Sorted Low.
  - simpl in H. injection H as <-. split; [reflexivity|]. split; [lia|].
    split; [now left|]. exists []. rewrite app_nil_r. split; [reflexivity|].
    intros r M. now apply mentions_nil in M.
  - rewrite scan_step in H.
    destruct (Z.of_nat (JsMap.size (segments s)) <? prefetchLimit_ (fst s)).
    2:{ injection H as <-. split; [reflexivity|]. split; [lia|].
        split; [now left|]. exists []. rewrite app_nil_r.
        split; [reflexivity|]. intros r' M. now apply mentions_nil in M. }
    destruct (body_frame r s) as (_ & St & _ & _ & P).
    destruct (body_mentions r s) as (bnew & T & M).
    assert (Lr : prefetchPosTime_ (fst s) <= startTime r)
      by (apply Low; now left).
    destruct (stops r (body r s)).
    + injection H as <-. split; [exact St|]. split; [lia|].
      split; [right; exists r; split; [now left | exact P]|].
      exists bnew. split; [exact T|]. intros r' Hr. apply M in Hr. subst r'.
      lia.
    + inversion Sorted as [|? ? Sorted' Hd]; subst.
      rewrite Forall_forall in Hd.
      destruct (IH _ _ H Sorted') as (St' & P' & Q' & new & T' & M').
      { intros r' Hr. rewrite P. now apply Hd. }
      split; [congruence|]. split; [lia|]. split.
      * right. destruct Q' as [Q'|(r' & Hr & Q')].
        -- exists r. split; [now left | congruence].
        -- exists r'. split; [now right | exact Q'].
      * exists (bnew ++ new). split; [rewrite T', T; now rewrite app_assoc|].
        intros r' Hr. apply mentions_app in Hr. destruct Hr as [Hr|Hr].
        -- apply M in Hr. subst r'. lia.
        -- now apply M'.
Qed.

Lemma body_entries (r : SegmentReference) (s : state) :
  forall r' a, In (r', a) (segments (body r s)) ->
               In (r', a) (segments s) \/ r' = r.
Proof.
  intros r' a. unfold body.
  set (s0 := (fst s, emit (Visit r) (snd s))).
  set (s1 := match initSegmentReference r with
             | Some i => if allowed r then withInit i s0 else s0
             | None => s0
             end).
  assert (E : segments s1 = segments s).
  { subst s1. destruct (initSegmentReference r) as [i|]; [|reflexivity].
    destruct (allowed r); [|reflexivity].
    now destruct (withInit_frame i s0) as (_ & _ & _ & _ & _ & ->). }
  simp_state. destruct (allowed r); [|rewrite E; auto].
  unfold withSegment. destruct (JsMap.has ref_id r (segments s1)).
  - rewrite E. auto.
  - simp_state. rewrite E. intros H. apply in_app_or in H.
    destruct H as [H|[H|[]]]; [now left|]. right. congruence.
Qed.

(** The scanning loop keeps the position at or beyond the entries. *)
Lemma scan_below (refs : list SegmentReference) :
  forall s s',
    scan refs s = Ok s' ->
    StronglySorted (fun a b => startTime a <= startTime b) refs ->
    (forall r, In r refs -> prefetchPosTime_ (fst s) <= startTime r) ->
    below s -> below s'.
Proof.
  induction refs as [|r rest IH]; intros s s' H Sorted Low B.
  - simpl in H. now injection H as <-.
  - rewrite scan_step in H.
    destruct (Z.of_nat (JsMap.size (segments s)) <? prefetchLimit_ (fst s));
      [|now injection H as <-].
    destruct (body_frame r s) as (_ & _ & _ & _ & P).
    assert (B' : below (body r s)).
    { intros r' a Hr. rewrite P. apply body_entries in Hr.
      destruct Hr as [Hr| ->]; [|lia].
      specialize (B r' a Hr). specialize (Low r (or_introl eq_refl)). lia. }
    destruct (stops r (body r s)); [now injection H as <-|].
    inversion Sorted as [|? ? Sorted' Hd]; subst.
    rewrite Forall_forall in Hd.
    apply (IH _ _ H Sorted'); [|exact B'].
    intros r' Hr. rewrite P. now apply Hd.
Qed.

Lemma in_tl {A : Type} (x : A) (l : list A) : In x (tl l) -> In x l.
Proof. destruct l; simpl; auto. Qed.

Lemma sorted_tl {A : Type} (R : A -> A -> Prop) (l : list A) :
  StronglySorted R l -> StronglySorted R (tl l).
Proof. intros H. destruct l; simpl; [exact H|]. now inversion H. Qed.

(** What a call that returns does to the position, and which references it
    scans or dispatches. *)
Lemma exec_position (c : Call) (s s' : state) (reported : list string) :
  wf s -> position_ok s -> call_contract c ->
  exec c s = Done reported s' ->
  position_ok s'
  /\ (below s -> below s')
  /\ (prefetchPosTime_ (fst s) <= prefetchPosTime_ (fst s')
      \/ clears c s = true /\ prefetchPosTime_ (fst s') = 0)
  /\ exists new,
       trace (snd s') = trace (snd s) ++ new
       /\ forall r, mentions r new ->
                    startTime r <= prefetchPosTime_ (fst s').
Proof.
  intros W P C.
  assert (Same : position_ok s
                 /\ (below s -> below s)
                 /\ (prefetchPosTime_ (fst s) <= prefetchPosTime_ (fst s)
                     \/ clears c s = true /\ prefetchPosTime_ (fst s) = 0)
                 /\ exists new,
                      trace (snd s) = trace (snd s) ++ new
                      /\ forall r, mentions r new ->
                                   startTime r <= prefetchPosTime_ (fst s)).
  { split; [exact P|]. split; [auto|]. split; [left; lia|]. exists [].
    rewrite app_nil_r.
    split; [reflexivity|]. intros r M. now apply mentions_nil in M. }
  assert (Cleared :
    position_ok s ->
    position_ok (clearAll s)
    /\ segments (clearAll s) = []
    /\ prefetchPosTime_ (fst (clearAll s)) = 0
    /\ stream_ (fst (clearAll s)) = stream_ (fst s)
    /\ exists new,
         trace (snd (clearAll s)) = trace (snd s) ++ new
         /\ forall r, mentions r new ->
                      startTime r <= prefetchPosTime_ (fst (clearAll s))).
  { intros [P1 P2]. rewrite clearAll_closed by apply W.
    unfold position_ok. simp_state. split; [split; [exact P1|]|].
    - unfold stream_contract in P1.
      destruct (segmentIndex (stream_ (fst s))); [|exact I].
      apply P1.
    - split; [reflexivity|]. split; [reflexivity|]. split; [reflexivity|].
      eexists.
      split; [reflexivity|]. intros r M. apply mentions_app in M.
      destruct M as [M|M]; now apply mentions_aborts in M. }
  destruct c as [d|currTime skipFirst|i|reference cb| |time|n|b|stream];
    cbn [exec].
  - (* replaceFetchDispatcher *)
    intros [= _ <-].
    unfold replaceFetchDispatcher, position_ok. simp_state.
    destruct (replace_all_heap d (JsMap.values (segments s)) (snd s))
      as (_ & T & _).
    split; [exact P|]. split; [auto|]. split; [left; lia|]. exists [].
    rewrite app_nil_r. split; [exact T|].
    intros r M. now apply mentions_nil in M.
  - (* prefetchSegmentsByTime *)
    intros E. apply prefetchSegmentsByTime_cases in E.
    destruct E as [->|(index & it & r0 & rest & s1 & X & It & Hd & Sc & ->)];
      [exact Same|].
    destruct P as [P1 P2]. unfold stream_contract in P1. rewrite X in P1, P2.
    destruct (scan_invariant (r0 :: rest) s W) as (s1' & Sc' & W1 & _).
    rewrite Sc in Sc'. injection Sc' as <-.
    assert (Sub : forall r, In r (r0 :: rest) -> In r it).
    { intros r Hr. rewrite <- Hd in Hr. destruct skipFirst; [|exact Hr].
      now apply in_tl. }
    assert (So : StronglySorted (fun a b => startTime a <= startTime b)
                   (r0 :: rest)).
    { rewrite <- Hd. pose proof (contract_ordered _ P1 _ _ _ It) as So.
      destruct skipFirst; [now apply sorted_tl | exact So]. }
    assert (Low : forall r, In r (r0 :: rest) ->
                            prefetchPosTime_ (fst s) <= startTime r).
    { intros r Hr.
      apply (P2 (Z.max currTime (prefetchPosTime_ (fst s))) true it r);
        [lia | exact It | now apply Sub]. }
    destruct (scan_position _ _ _ Sc So Low) as (St & Le & Q & new & T & M).
    pose proof (scan_below _ _ _ Sc So Low) as Bl.
    rewrite clearInitSegments_closed by apply W1.
    unfold position_ok, below, pruneInits. simp_state. rewrite St, X.
    split; [split|split; [|split]].
    + unfold stream_contract. now rewrite X.
    + destruct Q as [->|(r & Hr & ->)]; [exact P2|].
      apply (contract_forward _ P1).
      exists (Z.max currTime (prefetchPosTime_ (fst s))), true, it.
      split; [exact It | now apply Sub].
    + exact Bl.
    + left. exact Le.
    + eexists. rewrite T, <- app_assoc. split; [reflexivity|].
      intros r Hr. apply mentions_app in Hr. destruct Hr as [Hr|Hr].
      * now apply M.
      * now apply mentions_aborts in Hr.
  - (* prefetchInitSegment *)
    rewrite prefetchInitSegment_closed. intros [= _ <-].
    destruct (withInit_frame i s) as (_ & St & Po & _).
    destruct (withInit_events i s) as (_ & _ & e & T & E).
    destruct (withInit_frame i s) as (_ & _ & _ & _ & _ & Sg).
    unfold position_ok, below. rewrite St, Po, Sg. split; [exact P|].
    split; [auto|].
    split; [left; lia|]. exists e. split; [exact T|]. intros r M.
    destruct E as [->|(d & st & p & -> & _)].
    + now apply mentions_nil in M.
    + destruct M as [[M|[]]|(d' & st' & p' & [M|[]])]; discriminate.
  - (* getPrefetchedSegment *)
    rewrite getPrefetchedSegment_closed. unfold bind.
    destruct reference as [r|i].
    + pose proof (getIn_tables ref_id r cb (deleteOnGet_ (fst s))
                    (segments s) (snd s)) as G.
      destruct (getIn ref_id r cb (deleteOnGet_ (fst s)) (segments s) (snd s))
        as [[op m'] w']. cbn [snd]. intros [= _ <-].
      unfold position_ok. simp_state.
      destruct G as (Hm & _ & T & _). split; [exact P|]. split.
      { unfold below. simp_state. intros B r' a Hr. apply (B r' a).
        destruct Hm as [->| ->]; [exact Hr|].
        unfold JsMap.delete in Hr. apply filter_In in Hr. tauto. }
      split; [left; lia|].
      exists []. rewrite app_nil_r. split; [exact T|].
      intros r' M. now apply mentions_nil in M.
    + pose proof (getIn_tables init_id i cb (deleteOnGet_ (fst s))
                    (inits s) (snd s)) as G.
      destruct (getIn init_id i cb (deleteOnGet_ (fst s)) (inits s) (snd s))
        as [[op m'] w']. cbn [snd]. intros [= _ <-].
      unfold position_ok. simp_state.
      destruct G as (_ & _ & T & _). split; [exact P|]. split; [auto|].
      split; [left; lia|].
      exists []. rewrite app_nil_r. split; [exact T|].
      intros r' M. now apply mentions_nil in M.
  - (* clearAll *)
    intros [= _ <-].
    destruct (Cleared P) as (P' & Em & Z0 & _ & N). split; [exact P'|].
    split; [intros _ r a Hr; rewrite Em in Hr; destruct Hr|].
    split; [right; split; [reflexivity | exact Z0]|]. exact N.
  - (* evict *)
    rewrite evict_closed by apply W. intros [= _ <-].
    unfold position_ok, below, pruneInits.
    simp_state. split; [exact P|]. split.
    { intros B r a Hr. apply filter_In in Hr. apply (B r a). tauto. }
    split; [left; lia|]. eexists.
    rewrite <- app_assoc. split; [reflexivity|]. intros r M.
    apply mentions_app in M. destruct M as [M|M];
      now apply mentions_aborts in M.
  - (* resetLimit *)
    destruct (Z.le_gt_cases 0 n) as [N|N].
    + rewrite resetLimit_closed by (auto; apply W). intros [= _ <-].
      unfold position_ok, below, pruneInits. simp_state. split; [exact P|].
      split.
      { intros B r a Hr. apply (B r a).
        rewrite <- (firstn_skipn (Z.to_nat n) (segments s)).
        apply in_or_app. now left. }
      split; [left; lia|]. eexists. rewrite <- app_assoc.
      split; [reflexivity|]. intros r M.
      apply mentions_app in M. destruct M as [M|M];
        now apply mentions_aborts in M.
    + rewrite resetLimit_hangs by lia. discriminate.
  - (* deleteOnGet *)
    intros [= _ <-]. exact Same.
  - (* switchStream *)
    rewrite switchStream_closed. intros H. apply Done_eq in H.
    destruct H as [_ <-].
    destruct stream as [stream|]; [|exact Same].
    revert Same. cbn [clears].
    destruct (Nat.eqb (stream_ident stream) (stream_ident (stream_ (fst s))));
      intros Same; [exact Same|].
    destruct (Cleared P) as (P' & Em & Z0 & _ & N).
    unfold position_ok, below. simp_state. rewrite Z0, Em.
    split; [split|split; [|split]].
    + exact C.
    + simpl in C. unfold stream_contract in C.
      destruct (segmentIndex stream); [|exact I]. apply C.
    + intros _ r a Hr. destruct Hr.
    + now right.
    + rewrite Z0 in N. exact N.
Qed.
Lemma run_position (calls : list Call) :
  forall (s s' : state) (reported : list string),
    invariant s -> position_ok s -> below s -> Forall call_contract calls ->
    run calls s = Done reported s' ->
    invariant s' /\ position_ok s' /\ below s'.
Proof.
  induction calls as [|c calls IH]; intros s s' reported I P B C; cbn [run].
  - intros H. apply Done_eq in H. destruct H as [_ <-]. tauto.
  - intros H. apply bind_inv in H.
    destruct H as (r1 & s1 & r2 & H1 & H2 & _).
    inversion C as [|? ? C1 C2]; subst.
    destruct (exec_position c s s1 r1 (proj1 I) P C1 H1) as (P' & B' & _).
    apply (IH s1 s' r2); auto.
    exact (exec_invariant _ _ _ _ I H1).
Qed.

Lemma run_monotone (calls : list Call) :
  forall (s s' : state) (reported : list string),
    invariant s -> position_ok s -> Forall call_contract calls ->
    run calls s = Done reported s' ->
    steady calls s = true ->
    prefetchPosTime_ (fst s) <= prefetchPosTime_ (fst s')
    /\ exists new,
         trace (snd s') = trace (snd s) ++ new
         /\ forall r, mentions r new ->
                      startTime r <= prefetchPosTime_ (fst s').
Proof.
  induction calls as [|c calls IH]; intros s s' reported I P C;
    cbn [run steady].
  - intros H _. apply Done_eq in H. destruct H as [_ <-].
    split; [lia|]. exists []. rewrite app_nil_r. split; [reflexivity|].
    intros r M. now apply mentions_nil in M.
  - intros H Q. apply bind_inv in H.
    destruct H as (r1 & s1 & r2 & H1 & H2 & _).
    inversion C as [|? ? C1 C2]; subst.
    apply andb_true_iff in Q. destruct Q as [Q1 Q2].
    apply negb_true_iff in Q1. rewrite H1 in Q2.
    destruct (exec_position c s s1 r1 (proj1 I) P C1 H1)
      as (P' & _ & Mo & new & T & M).
    destruct Mo as [Mo|[Mo _]]; [|congruence].
    destruct (IH s1 s' r2 (exec_invariant _ _ _ _ I H1) P' C2 H2 Q2)
      as (Mo' & new' & T' & M').
    split; [lia|]. exists (new ++ new'). split.
    + rewrite T', T. now rewrite app_assoc.
    + intros r Hr. apply mentions_app in Hr. destruct Hr as [Hr|Hr].
      * apply M in Hr. lia.
      * now apply M'.
Qed.

(** An index whose iterators are ordered and only yield references that
    start at or after the time asked for obeys the contract. *)
Lemma at_or_after_contract (index : SegmentIndex) :
  (forall time allow iterator,
     getIteratorForTime index time allow = Some iterator ->
     StronglySorted (fun a b => startTime a <= startTime b) iterator
     /\ forall r, In r iterator -> time <= startTime r) ->
  index_contract index.
Proof.
  intros H. constructor.
  - intros time allow it E. now apply (H time allow it).
  - intros time allow it r L E Hr.
    destruct (H time allow it E) as [_ A]. specialize (A r Hr). lia.
  - intros r' _ time allow it r L E Hr.
    destruct (H time allow it E) as [_ A]. specialize (A r Hr). lia.
Qed.

(** C3, as the code has it. The streams that the cache is given have
    segment indexes that obey their contract: every iterator yields its
    references in the order of their start times; an iterator asked for a
    time at or after 0 yields no reference that starts before 0; and an
    iterator asked for a time at or after the start of a reference that the
    index yields gives no reference that starts before that reference. Then,
    in every state [s] that calls reach from a new cache: [clearAll] sets
    [prefetchPosTime_] to 0; a call that returns either does not decrease
    the position, or it runs [clearAll] (it is [clearAll], or a
    [switchStream] to another stream object) and leaves the position at 0;
    the position is at or beyond the start time of every reference that the
    media-segment table holds; and over calls none of which runs [clearAll],
    the position does not decrease and ends at or beyond the start time of
    every reference that these calls have scanned or dispatched. *)
Theorem position_never_decreases :
  forall (prefetchLimit : Z) (stream : Stream)
         (fetchDispatcher : FetchDispatcher) (deleteOnGet : bool)
         (before calls : list Call) (reported : list string) (s : state),
    stream_contract stream ->
    Forall call_contract before ->
    Forall call_contract calls ->
    run before (initial prefetchLimit stream fetchDispatcher deleteOnGet)
    = Done reported s ->
    prefetchPosTime_ (fst (clearAll s)) = 0
    /\ (forall c reported' s',
          call_contract c ->
          exec c s = Done reported' s' ->
          prefetchPosTime_ (fst s) <= prefetchPosTime_ (fst s')
          \/ clears c s = true /\ prefetchPosTime_ (fst s') = 0)
    /\ (forall r a,
          In (r, a) (segments s) -> startTime r <= prefetchPosTime_ (fst s))
    /\ (forall reported' s',
          run calls s = Done reported' s' ->
          steady calls s = true ->
          prefetchPosTime_ (fst s) <= prefetchPosTime_ (fst s')
          /\ exists new,
               trace (snd s') = trace (snd s) ++ new
               /\ forall r, mentions r new ->
                            startTime r <= prefetchPosTime_ (fst s')).
Proof.
  intros prefetchLimit stream fetchDispatcher deleteOnGet before calls
         reported s St C1 C2 R.
  assert (P0 : position_ok
                 (initial prefetchLimit stream fetchDispatcher deleteOnGet)).
  { unfold position_ok, initial, constructor. simp_state.
    split; [exact St|]. unfold stream_contract in St.
    destruct (segmentIndex stream); [|exact I]. apply St. }
  assert (B0 : below
                 (initial prefetchLimit stream fetchDispatcher deleteOnGet)).
  { intros r a H. destruct H. }
  destruct (run_position before _ _ _ (initial_invariant _ _ _ _) P0 B0 C1 R)
    as (I & P & B).
  split; [|split; [|split]].
  - rewrite clearAll_closed by apply I. reflexivity.
  - intros c reported' s' C E.
    now destruct (exec_position c s s' reported' (proj1 I) P C E)
      as (_ & _ & H & _).
  - exact B.
  - intros reported' s' R' Q. exact (run_monotone calls s s' reported' I P C2 R' Q).
Qed.

(** ** The scenario *)

Lemma loaded_run :
  run [PrefetchSegmentsByTime 0 false] (Scenario.start 2) = Ok Scenario.loaded.
Proof. reflexivity. Qed.

Lemma loaded_invariant : invariant Scenario.loaded.
Proof.
  exact (run_invariant _ _ _ _ (initial_invariant _ _ _ _) loaded_run).
Qed.

Lemma closed_run : resetLimit 0 Scenario.loaded = Ok Scenario.closed.
Proof. reflexivity. Qed.

Lemma video_contract : stream_contract Scenario.video.
Proof.
  unfold stream_contract. simpl.
  assert (Mem : forall time r,
            In r (filter (fun r => time <? endTime r)
                    [Scenario.R1; Scenario.R2; Scenario.R3]) ->
            (r = Scenario.R1 \/ r = Scenario.R2 \/ r = Scenario.R3)
            /\ time < endTime r).
  { intros time r H. apply filter_In in H. destruct H as [H L].
    apply Z.ltb_lt in L. simpl in H. intuition auto. }
  constructor.
  - intros time allow it [= <-]. simpl.
    destruct (time <? 2), (time <? 4), (time <? 6);
      repeat constructor; simpl; lia.
  - intros time allow it r L Eq Hr. injection Eq as <-. apply Mem in Hr.
    destruct Hr as [[->|[->| ->]] _]; simpl; lia.
  - intros r' (time' & allow' & it' & Eq' & Hr') time allow it r L Eq Hr.
    injection Eq' as <-. injection Eq as <-.
    apply Mem in Hr'. apply Mem in Hr.
    destruct Hr' as [[->|[->| ->]] _]; destruct Hr as [[->|[->| ->]] E];
      simpl in *; lia.
Qed.

(** ** Instances on the scenario *)

(** C3, as stated, fails after [clearAll]: [R2], which starts at 2, has
    been scanned and dispatched, and the position is back at 0. *)
Lemma position_below_dispatched_after_clearAll :
  exists s,
    run [PrefetchSegmentsByTime 0 false; ClearAll] (Scenario.start 2) = Ok s
    /\ In (Visit Scenario.R2) (trace (snd s))
    /\ In (Fetch 0%nat (Media Scenario.R2) 7%nat 2%nat) (trace (snd s))
    /\ mentions Scenario.R2 (trace (snd s))
    /\ prefetchPosTime_ (fst s) = 0
    /\ ~ startTime Scenario.R2 <= prefetchPosTime_ (fst s).
Proof.
  eexists. split; [reflexivity|].
  assert (V : In (Visit Scenario.R2)
                (trace (snd (clearAll Scenario.loaded)))).
  { vm_compute. tauto. }
  split; [exact V|]. split; [vm_compute; tauto|].
  split; [left; exact V|]. split; [reflexivity|].
  vm_compute. intros H. now apply H.
Qed.

Lemma position_never_decreases_witness :
  stream_contract Scenario.video
  /\ Forall call_contract [PrefetchSegmentsByTime 0 false]
  /\ Forall call_contract
       [Evict 3; SwitchStream (Some Scenario.video);
        PrefetchSegmentsByTime 3 false]
  /\ run [PrefetchSegmentsByTime 0 false]
       (initial 2 Scenario.video 0%nat true) = Done [] Scenario.loaded
  /\ exists s',
       run [Evict 3; SwitchStream (Some Scenario.video);
            PrefetchSegmentsByTime 3 false] Scenario.loaded
       = Done [] s'
       /\ steady [Evict 3; SwitchStream (Some Scenario.video);
                  PrefetchSegmentsByTime 3 false] Scenario.loaded = true
       /\ prefetchPosTime_ (fst Scenario.loaded) <= prefetchPosTime_ (fst s')
       /\ exists new,
            trace (snd s') = trace (snd Scenario.loaded) ++ new
            /\ forall r, mentions r new ->
                         startTime r <= prefetchPosTime_ (fst s').
Proof.
  assert (C : Forall call_contract
                [Evict 3; SwitchStream (Some Scenario.video);
                 PrefetchSegmentsByTime 3 false]).
  { constructor; [exact I|]. constructor; [exact video_contract|].
    constructor; [exact I|]. constructor. }
  split; [exact video_contract|].
  split; [repeat constructor|].
  split; [exact C|]. split; [reflexivity|].
  eexists. split; [reflexivity|]. split; [reflexivity|].
  refine (proj2 (proj2 (proj2
            (position_never_decreases 2 Scenario.video 0%nat true
               [PrefetchSegmentsByTime 0 false]
               [Evict 3; SwitchStream (Some Scenario.video);
                PrefetchSegmentsByTime 3 false] [] Scenario.loaded
               video_contract _ C eq_refl))) [] _ eq_refl eq_refl).
  repeat constructor.
Defined.



Lemma resetLimit_shrinks_witness :
  wf Scenario.loaded /\ 0 <= 1
  /\ exists s',
       resetLimit 1 Scenario.loaded = Ok s'
       /\ prefetchLimit_ (fst s') = 1
       /\ segments s' = firstn (Z.to_nat 1) (segments Scenario.loaded)
       /\ JsMap.size (segments s')
          = Nat.min (Z.to_nat 1) (JsMap.size (segments Scenario.loaded))
       /\ inits s' = filter (referenced (segments s')) (inits Scenario.loaded)
       /\ snd s'
          = emits
              (abortEvents (heap (snd Scenario.loaded))
                 (rev (JsMap.values
                         (skipn (Z.to_nat 1) (segments Scenario.loaded))))
               ++ abortEvents (heap (snd Scenario.loaded))
                    (JsMap.values
                       (filter (fun e => negb (referenced (segments s') e))
                          (inits Scenario.loaded))))
              (snd Scenario.loaded)
       /\ length (abortEvents (heap (snd Scenario.loaded))
                    (rev (JsMap.values
                            (skipn (Z.to_nat 1) (segments Scenario.loaded)))))
          = (JsMap.size (segments Scenario.loaded) - Z.to_nat 1)%nat.
Proof.
  split; [apply loaded_invariant|]. split; [lia|].
  apply (resetLimit_shrinks_last_in_first_out Scenario.loaded 1).
  - apply loaded_invariant.
  - lia.
Defined.


Lemma one_operation_per_reference_witness :
  let s := Scenario.loaded in
  run [PrefetchSegmentsByTime 0 false] (initial 2 Scenario.video 0%nat true)
  = Done [] s
  /\ JsMap.get ref_id Scenario.R1 (segments s) = Some 1%nat
  /\ (exists reported' s',
        prefetchSegmentsByTime 0 false s = Done reported' s'
        /\ JsMap.get ref_id Scenario.R1 (segments s') = Some 1%nat)
  /\ JsMap.get init_id Scenario.I1 (inits s) = Some 0%nat
  /\ exists reported', prefetchInitSegment Scenario.I1 s = Done reported' s.
Proof.
  intros s.
  destruct (one_operation_per_reference 2 Scenario.video 0%nat true
              [PrefetchSegmentsByTime 0 false] [] s eq_refl)
    as (_ & _ & _ & A & B).
  assert (G : JsMap.get ref_id Scenario.R1 (segments s) = Some 1%nat)
    by reflexivity.
  assert (G' : JsMap.get init_id Scenario.I1 (inits s) = Some 0%nat)
    by reflexivity.
  split; [reflexivity|]. split; [exact G|]. split.
  - destruct (B 0 false) as (reported' & s' & E & K & _).
    exists reported', s'. split; [exact E|].
    exact (proj1 (K Scenario.R1 1%nat G)).
  - split; [exact G'|]. exact (A Scenario.I1 0%nat G').
Defined.


Lemma getPrefetchedSegment_asserts_limit_witness :
  prefetchLimit_ (fst Scenario.closed) <= 0
  /\ exists op s',
       getPrefetchedSegment (Media Scenario.R1) None Scenario.closed
       = Done [limitMessage] (op, s')
       /\ trace (snd s') = trace (snd Scenario.closed)
       /\ requests (snd s') = requests (snd Scenario.closed).
Proof.
  split; [vm_compute; discriminate|].
  apply (getPrefetchedSegment_asserts_limit Scenario.closed
           (Media Scenario.R1) None).
  vm_compute. discriminate.
Defined.


(** C2, as stated, fails: with two chunks buffered, attaching a callback
    delivers nothing and leaves the two chunks in the accumulator; the next
    chunk is not delivered on its own but behind the buffered bytes. *)
Lemma setStreamDataCallback_does_not_flush :
  let w := Scenario.buffering in
  let w1 := Operation.setStreamDataCallback (Some 5%nat) 0%nat w in
  let w2 := Operation.onData [x03] Resolves 0%nat w1 in
  option_map OperationObject.buffered (deref 0%nat w) = Some [x01; x02]
  /\ trace w1 = trace w
  /\ trace w1 <> trace w ++ [Deliver 5%nat [x01; x02]]
  /\ option_map OperationObject.buffered (deref 0%nat w1) = Some [x01; x02]
  /\ trace w2 = trace w ++ [Deliver 5%nat [x01; x02; x03]]
  /\ trace w2 <> trace w ++ [Deliver 5%nat [x01; x02]; Deliver 5%nat [x03]].
Proof.
  vm_compute. repeat split; try discriminate.
Qed.

Lemma setStreamDataCallback_witness :
  deref 0%nat Scenario.buffering
  = Some (OperationObject.mk 0%nat None (Some 0%nat) [x01; x02])
  /\ let w1 := Operation.setStreamDataCallback (Some 5%nat) 0%nat
                 Scenario.buffering in
     let w2 := Operation.onData [x03] Resolves 0%nat w1 in
     trace w2
     = trace Scenario.buffering ++ [Deliver 5%nat ([x01; x02] ++ [x03])]
     /\ option_map OperationObject.buffered (deref 0%nat w2) = Some []
     /\ trace (Operation.onDataAll [([x04], Resolves); ([x05], Resolves)]
                 0%nat w2)
        = trace w2 ++ map (Deliver 5%nat) [[x04]; [x05]].
Proof.
  split; [reflexivity|].
  destruct (setStreamDataCallback_flushes_with_next_chunk 0%nat
              Scenario.buffering
              (OperationObject.mk 0%nat None (Some 0%nat) [x01; x02])
              5%nat [x03] [[x04]; [x05]] eq_refl)
    as (_ & _ & T2 & B2 & T3).
  split; [exact (T2 Resolves)|]. split; [exact B2 | exact T3].
Defined.

(** * Further properties *)

(** ** The scanning loop, reference by reference *)

Lemma visited_prefix (refs : list SegmentReference) :
  forall s, exists n, visited refs s = firstn n refs.
Proof.
  induction refs as [|r rest IH]; intros s; [now exists 0%nat|].
  cbn [visited].
  destruct (Z.of_nat (JsMap.size (segments s)) <? prefetchLimit_ (fst s));
    [|now exists 0%nat].
  destruct (stops r (body r s)); [now exists 1%nat|].
  destruct (IH (body r s)) as (n & ->). now exists (S n).
Qed.

Lemma allowed_eligible (r : SegmentReference) :
  allowed r = true -> eligible r.
Proof.
  unfold allowed, eligible. intros H. apply andb_true_iff in H.
  destruct H as [H1 H2]. apply negb_true_iff in H1, H2. split.
  - intros P. rewrite P in H1. simpl in H1.
    destruct (endByte r); [discriminate | reflexivity].
  - intros M. rewrite M in H2. discriminate.
Qed.

(** The events of one run of the body: the visit, then the dispatches. *)
Lemma body_dispatches (r : SegmentReference) (s : state) :
  exists new,
    trace (snd (body r s)) = trace (snd s) ++ Visit r :: new
    /\ Forall (dispatchFor r s) new.
Proof.
  unfold body.
  set (s0 := (fst s, emit (Visit r) (snd s))).
  set (s1 := match initSegmentReference r with
             | Some i => if allowed r then withInit i s0 else s0
             | None => s0
             end).
  assert (H1 : fetchDispatcher_ (fst s1) = fetchDispatcher_ (fst s)
               /\ stream_ (fst s1) = stream_ (fst s)
               /\ exists e1,
                    trace (snd s1) = trace (snd s) ++ Visit r :: e1
                    /\ Forall (dispatchFor r s) e1).
  { subst s1. destruct (initSegmentReference r) as [i|] eqn:Ir.
    2:{ split; [reflexivity|]. split; [reflexivity|]. now exists []. }
    destruct (allowed r) eqn:A.
    2:{ split; [reflexivity|]. split; [reflexivity|]. now exists []. }
    destruct (withInit_frame i s0) as (_ & St & _ & Fd & _).
    split; [exact Fd|]. split; [exact St|].
    unfold withInit. destruct (segmentIndex (stream_ (fst s0))).
    2:{ now exists []. }
    destruct (JsMap.has init_id i (inits s0)).
    { now exists []. }
    unfold fetched, s0, emit. simp_state. eexists. split.
    - rewrite <- app_assoc. reflexivity.
    - constructor; [|constructor]. eexists. split.
      + now apply allowed_eligible.
      + right. exists i. split; [exact Ir | reflexivity]. }
  destruct H1 as (Fd & St & e1 & T1 & D1). simp_state.
  destruct (allowed r) eqn:A.
  2:{ exists e1. auto. }
  unfold withSegment. destruct (JsMap.has ref_id r (segments s1)).
  { exists e1. auto. }
  unfold fetched. simp_state. rewrite T1, Fd, St. eexists. split.
  - rewrite <- app_assoc. cbn [app]. reflexivity.
  - apply Forall_app. split; [exact D1|]. constructor; [|constructor].
    eexists. split; [now apply allowed_eligible|]. left. reflexivity.
Qed.

Lemma last_default {A : Type} (x d d' : A) (l : list A) :
  last (x :: l) d = last (x :: l) d'.
Proof.
  revert x. induction l as [|y l IH]; intros x; [reflexivity|].
  change (last (y :: l) d = last (y :: l) d'). apply IH.
Qed.

Lemma last_cons {A : Type} (x d : A) (l : list A) :
  last (x :: l) d = last l x.
Proof.
  destruct l as [|y l]; [reflexivity|].
  change (last (y :: l) d = last (y :: l) x). apply last_default.
Qed.

Lemma visits_app (l l' : list Event) : visits (l ++ l') = visits l ++ visits l'.
Proof. unfold visits. apply flat_map_app. Qed.

Lemma visits_dispatches (r : SegmentReference) (s : state)
    (l : list Event) :
  Forall (dispatchFor r s) l -> visits l = [].
Proof.
  induction 1 as [|e l (p & _ & [->|(i & _ & ->)]) _ IH]; simpl; auto.
Qed.

(** The events of the scanning loop: the visits, in the order of the
    references, and after each visit the dispatches made for it. *)
Lemma bodies_events (rs : list SegmentReference) :
  forall s,
    prefetchLimit_ (fst (bodies rs s)) = prefetchLimit_ (fst s)
    /\ stream_ (fst (bodies rs s)) = stream_ (fst s)
    /\ fetchDispatcher_ (fst (bodies rs s)) = fetchDispatcher_ (fst s)
    /\ deleteOnGet_ (fst (bodies rs s)) = deleteOnGet_ (fst s)
    /\ prefetchPosTime_ (fst (bodies rs s))
       = last (map startTime rs) (prefetchPosTime_ (fst s))
    /\ exists new,
         trace (snd (bodies rs s)) = trace (snd s) ++ new
         /\ visits new = rs
         /\ forall e, In e new ->
              (exists r, In r rs /\ e = Visit r)
              \/ exists r, In r rs /\ dispatchFor r s e.
Proof.
  unfold bodies. induction rs as [|r rs IH]; intros s; cbn [fold_left].
  - repeat (split; [reflexivity|]). exists []. rewrite app_nil_r.
    repeat split. intros e [].
  - destruct (body_frame r s) as (F1 & F2 & F3 & F4 & F5).
    destruct (body_dispatches r s) as (bnew & T & D).
    destruct (IH (body r s)) as (G1 & G2 & G3 & G4 & G5 & new & T' & V & C).
    split; [congruence|]. split; [congruence|]. split; [congruence|].
    split; [congruence|]. split.
    { rewrite G5, F5. cbn [map]. now rewrite last_cons. }
    exists ((Visit r :: bnew) ++ new). split; [|split].
    + rewrite T', T. now rewrite <- app_assoc.
    + rewrite visits_app. cbn [visits flat_map app].
      fold (visits bnew). rewrite (visits_dispatches r s bnew D), V.
      reflexivity.
    + intros e H. apply in_app_or in H. destruct H as [[<-|H]|H].
      * left. exists r. split; [now left | reflexivity].
      * right. exists r. split; [now left|].
        rewrite Forall_forall in D. now apply D.
      * destruct (C e H) as [(r' & Hr & ->)|(r' & Hr & p & El & Q)].
        -- left. exists r'. split; [now right | reflexivity].
        -- right. exists r'. split; [now right|]. exists p.
           split; [exact El|]. rewrite F2, F3 in Q. exact Q.
Qed.

(** ** Pruning, without assumptions on the tables *)

Lemma sweep_frame {K : Type} (ident : K -> nat) (p : K -> bool)
    (keys : list K) :
  forall (m : @JsMap.t K Addr) (w : World),
    exists es,
      snd (sweep ident p keys (m, w)) = emits es w
      /\ (forall e, In e es -> exists q, e = Abort q)
      /\ forall e, In e (fst (sweep ident p keys (m, w))) -> In e m.
Proof.
  unfold sweep. induction keys as [|k keys IH]; intros m w;
    cbn [fold_left fst snd].
  - exists []. rewrite emits_nil. split; [reflexivity|]. split; [|auto].
    intros e [].
  - assert (A : exists es,
               snd (if p k then abortIn ident k m w else (m, w)) = emits es w
               /\ (forall e, In e es -> exists q, e = Abort q)
               /\ forall e,
                    In e (fst (if p k then abortIn ident k m w else (m, w))) ->
                    In e m).
    { destruct (p k).
      - unfold abortIn. destruct (JsMap.get ident k m) as [a|]; cbn [fst snd].
        + exists (abortEvents (heap w) [a]). rewrite abort_emits.
          split; [reflexivity|]. split; [apply in_abortEvents|].
          intros e H. unfold JsMap.delete in H. apply filter_In in H. tauto.
        + exists []. rewrite emits_nil. split; [reflexivity|].
          split; [intros e []|].
          intros e H. unfold JsMap.delete in H. apply filter_In in H. tauto.
      - exists []. rewrite emits_nil. split; [reflexivity|].
        split; [intros e []|auto]. }
    destruct A as (es & E & Ab & Sub).
    destruct (if p k then abortIn ident k m w else (m, w)) as [m1 w1].
    cbn [fst snd] in *. subst w1.
    destruct (IH m1 (emits es w)) as (es' & E' & Ab' & Sub').
    exists (es ++ es'). rewrite E', emits_emits. split; [reflexivity|]. split.
    + intros e H. apply in_app_or in H. destruct H; auto.
    + auto.
Qed.

(** The pruning pass touches nothing but the init-segment table, from which
    it only removes, and the trace, to which it only adds [abort()]
    calls. *)
Lemma clearInitSegments_frame (s : state) :
  exists ins es,
    clearInitSegments_ s
    = (set_initSegmentPrefetchMap_ ins (fst s), emits es (snd s))
    /\ (forall e, In e ins -> In e (inits s))
    /\ forall e, In e es -> exists q, e = Abort q.
Proof.
  unfold clearInitSegments_.
  change (forKeys (JsMap.keys (initSegmentPrefetchMap_ (fst s)))
            (fun i s0 =>
               if negb (existsb (refersTo i) (JsMap.keys (segments s)))
               then abortPrefetchedSegment_ (Init i) s0 else s0) s)
    with (forKeys (JsMap.keys (inits s))
            (fun i s0 =>
               if (fun i => negb (existsb (refersTo i)
                                    (JsMap.keys (segments s)))) i
               then abortPrefetchedSegment_ (Init i) s0 else s0) s).
  rewrite forKeys_init.
  destruct (sweep_frame init_id
              (fun i => negb (existsb (refersTo i) (JsMap.keys (segments s))))
              (JsMap.keys (inits s)) (inits s) (snd s))
    as (es & E & Ab & Sub).
  eexists. exists es. rewrite E. split; [reflexivity|]. auto.
Qed.

Lemma visits_aborts (es : list Event) :
  (forall e, In e es -> exists q, e = Abort q) -> visits es = [].
Proof.
  induction es as [|e es IH]; intros H; [reflexivity|].
  destruct (H e (or_introl eq_refl)) as (q & ->). simpl.
  apply IH. intros e' He. apply H. now right.
Qed.

(** ** What a scan dispatches *)

(** The events of a call of [prefetchSegmentsByTime]: visits, dispatches
    made for visited references, and the [abort()] calls of the pruning. *)
Lemma prefetchSegmentsByTime_events (currTime : Z) (skipFirst : bool)
    (s s' : state) (reported : list string) :
  prefetchSegmentsByTime currTime skipFirst s = Done reported s' ->
  fetchDispatcher_ (fst s') = fetchDispatcher_ (fst s)
  /\ stream_ (fst s') = stream_ (fst s)
  /\ exists new,
       trace (snd s') = trace (snd s) ++ new
       /\ forall e, In e new ->
            (exists r, e = Visit r)
            \/ (exists q, e = Abort q)
            \/ exists r, In r (visits new) /\ dispatchFor r s e.
Proof.
  intros H. apply prefetchSegmentsByTime_cases in H.
  destruct H as [->|(index & it & r0 & rest & s1 & _ & _ & _ & Sc & ->)].
  { split; [reflexivity|]. split; [reflexivity|]. exists [].
    rewrite app_nil_r. split; [reflexivity|]. intros e []. }
  rewrite scan_visited in Sc.
  assert (E1 : s1 = bodies (visited (r0 :: rest) s) s) by congruence.
  clear Sc.
  destruct (bodies_events (visited (r0 :: rest) s) s)
    as (_ & St & Fd & _ & _ & new & T & V & C).
  rewrite <- E1 in St, Fd, T.
  destruct (clearInitSegments_frame s1) as (ins & es & -> & _ & Ab).
  simp_state. split; [exact Fd|]. split; [exact St|].
  exists (new ++ es). split; [rewrite T; now rewrite app_assoc|].
  intros e H. rewrite visits_app, (visits_aborts es Ab), app_nil_r, V.
  apply in_app_or in H. destruct H as [H|H].
  - destruct (C e H) as [(r & _ & ->)|(r & Hr & D)]; [left; eauto|].
    right. right. eauto.
  - right. left. now apply Ab.
Qed.

(** X1: every dispatch that [prefetchSegmentsByTime] makes is for a
    reference that the call has visited and that is eligible (not missing,
    not a preload reference with a byte range end), or for the init segment
    of such a reference; it goes to the dispatcher of the cache, for the
    stream of the cache. *)
Theorem prefetchSegmentsByTime_dispatches_eligible :
  forall (s s' : state) (currTime : Z) (skipFirst : bool)
         (reported : list string),
    prefetchSegmentsByTime currTime skipFirst s = Done reported s' ->
    exists new,
      trace (snd s') = trace (snd s) ++ new
      /\ forall d reference st p,
           In (Fetch d reference st p) new ->
           d = fetchDispatcher_ (fst s)
           /\ st = stream_id (stream_ (fst s))
           /\ exists r,
                In r (visits new)
                /\ getStatus r <> MISSING
                /\ (isPreload r = true -> endByte r = None)
                /\ (reference = Media r
                    \/ exists i, initSegmentReference r = Some i
                                 /\ reference = Init i).
Proof.
  intros s s' currTime skipFirst reported H.
  destruct (prefetchSegmentsByTime_events _ _ _ _ _ H)
    as (_ & _ & new & T & C).
  exists new. split; [exact T|]. intros d reference st p Hin.
  destruct (C _ Hin) as [(r & E)|[(q & E)|(r & Hr & q & [El1 El2] & D)]];
    try discriminate.
  destruct D as [E|(i & Ir & E)]; injection E as -> -> -> ->.
  - split; [reflexivity|]. split; [reflexivity|]. exists r. auto 7.
  - split; [reflexivity|]. split; [reflexivity|]. exists r.
    split; [exact Hr|]. split; [exact El2|]. split; [exact El1|]. right.
    exists i. auto.
Qed.

(** X2: after [replaceFetchDispatcher(d)], what [prefetchSegmentsByTime]
    and [prefetchInitSegment] dispatch goes to [d]. *)
Theorem replaceFetchDispatcher_directs_later_dispatches :
  forall (s : state) (d : FetchDispatcher),
    let s1 := replaceFetchDispatcher d s in
    (forall currTime skipFirst reported s',
       prefetchSegmentsByTime currTime skipFirst s1 = Done reported s' ->
       exists new,
         trace (snd s') = trace (snd s) ++ new
         /\ forall d' reference st p,
              In (Fetch d' reference st p) new -> d' = d)
    /\ (forall i reported s',
          prefetchInitSegment i s1 = Done reported s' ->
          exists new,
            trace (snd s') = trace (snd s) ++ new
            /\ forall d' reference st p,
                 In (Fetch d' reference st p) new -> d' = d).
Proof.
  intros s d s1.
  assert (T1 : trace (snd s1) = trace (snd s)).
  { unfold s1, replaceFetchDispatcher. simp_state.
    now destruct (replace_all_heap d (JsMap.values (segments s)) (snd s))
      as (_ & -> & _). }
  assert (D1 : fetchDispatcher_ (fst s1) = d) by reflexivity.
  split.
  - intros currTime skipFirst reported s' H.
    destruct (prefetchSegmentsByTime_events _ _ _ _ _ H)
      as (_ & _ & new & T & C).
    exists new. rewrite T, T1. split; [reflexivity|].
    intros d' reference st p Hin.
    destruct (C _ Hin) as [(r & E)|[(q & E)|(r & _ & q & _ & D)]];
      try discriminate.
    destruct D as [E|(i & _ & E)]; injection E as -> _ _ _; exact D1.
  - intros i reported s' H. rewrite prefetchInitSegment_closed in H.
    apply Done_eq in H. destruct H as [_ <-]. unfold withInit.
    destruct (segmentIndex (stream_ (fst s1))).
    2:{ exists []. rewrite app_nil_r. split; [exact T1|]. intros ? ? ? ? []. }
    destruct (JsMap.has init_id i (inits s1)).
    { exists []. rewrite app_nil_r. split; [exact T1|]. intros ? ? ? ? []. }
    unfold fetched. simp_state. rewrite T1. eexists. split; [reflexivity|].
    intros d' reference st p [E|[]]. injection E as <- _ _ _. exact D1.
Qed.

(** ** The order of a scan and where it ends *)

Lemma stops_frame (r r' : SegmentReference) (s : state) :
  stops r' (body r s) = stops r' s.
Proof.
  unfold stops. now destruct (body_frame r s) as (_ & -> & _).
Qed.

(** The visited references are a prefix of the references; only the last
    of them can be one at which the loop stops; and references are left over
    only when the table is full or the loop has stopped. *)
Lemma visited_shape (refs : list SegmentReference) :
  forall s,
    exists rest,
      refs = visited refs s ++ rest
      /\ (forall pre r post,
            visited refs s = pre ++ r :: post -> post <> [] ->
            stops r s = false)
      /\ (rest <> [] ->
          prefetchLimit_ (fst s)
          <= Z.of_nat (JsMap.size (segments (bodies (visited refs s) s)))
          \/ exists pre r, visited refs s = pre ++ [r] /\ stops r s = true).
Proof.
  induction refs as [|r0 refs IH]; intros s.
  - exists []. split; [reflexivity|]. split.
    + intros [|? ?] ? ? H; discriminate.
    + intros H. now contradiction H.
  - cbn [visited].
    destruct (Z.of_nat (JsMap.size (segments s)) <? prefetchLimit_ (fst s))
      eqn:G.
    2:{ exists (r0 :: refs). split; [reflexivity|]. split.
        - intros [|? ?] ? ? H; discriminate.
        - intros _. left. apply Z.ltb_ge in G. exact G. }
    destruct (stops r0 (body r0 s)) eqn:St.
    + exists refs. split; [reflexivity|]. split.
      * intros [|? [|? ?]] r post H N; try discriminate.
        injection H as _ <-. now contradiction N.
      * intros _. right. exists [], r0. split; [reflexivity|].
        now rewrite <- (stops_frame r0).
    + destruct (IH (body r0 s)) as (rest & E & Mid & End).
      exists rest. split; [now rewrite <- app_comm_cons, <- E|]. split.
      * intros [|x pre] r post H N.
        -- injection H as <- _. now rewrite <- (stops_frame r0).
        -- injection H as <- H. rewrite <- (stops_frame r0).
           now apply (Mid pre r post).
      * intros N. destruct (End N) as [Full|(pre & r & E' & S')].
        -- left. destruct (body_frame r0 s) as (<- & _). exact Full.
        -- right. exists (r0 :: pre), r. rewrite E'.
           split; [reflexivity|]. now rewrite <- (stops_frame r0).
Qed.

(** X3: a call of [prefetchSegmentsByTime] that finds an iterator visits a
    prefix of what the iterator yields (after the first reference, when
    [skipFirst] is set), in order; it leaves the position at the start time
    of the last reference visited, dispatched or not; on a fast-switching
    stream it visits nothing after a last partial segment; and it leaves
    references unvisited only when the media-segment table has reached the
    limit or the scan has stopped at a last partial segment. *)
Theorem prefetchSegmentsByTime_visits_in_order :
  forall (s : state) (currTime : Z) (skipFirst : bool)
         (index : SegmentIndex) (iterator : list SegmentReference),
    0 < prefetchLimit_ (fst s) ->
    segmentIndex (stream_ (fst s)) = Some index ->
    getIteratorForTime index
      (Z.max currTime (prefetchPosTime_ (fst s))) true = Some iterator ->
    exists s' seen rest new,
      prefetchSegmentsByTime currTime skipFirst s = Ok s'
      /\ (if skipFirst then tl iterator else iterator) = seen ++ rest
      /\ trace (snd s') = trace (snd s) ++ new
      /\ visits new = seen
      /\ prefetchPosTime_ (fst s')
         = last (map startTime seen) (prefetchPosTime_ (fst s))
      /\ (forall pre r post,
            seen = pre ++ r :: post -> post <> [] ->
            fastSwitching (stream_ (fst s)) && isPartial r && isLastPartial r
            = false)
      /\ (rest <> [] ->
          prefetchLimit_ (fst s) <= Z.of_nat (JsMap.size (segments s'))
          \/ exists pre r,
               seen = pre ++ [r]
               /\ fastSwitching (stream_ (fst s)) = true
               /\ isPartial r = true /\ isLastPartial r = true).
Proof.
  intros s currTime skipFirst index iterator L X It.
  assert (G : (prefetchLimit_ (fst s) >? 0) = true) by (apply Z.gtb_lt; lia).
  rewrite prefetchSegmentsByTime_closed. unfold limitReport, scanned.
  rewrite G, X, It.
  destruct (if skipFirst then tl iterator else iterator) as [|r0 refs].
  { exists s, [], [], [].
    split; [reflexivity|]. split; [reflexivity|].
    split; [now rewrite app_nil_r|]. split; [reflexivity|].
    split; [reflexivity|]. split.
    - intros [|? ?] ? ? H; discriminate.
    - intros H. now contradiction H. }
  set (seen := visited (r0 :: refs) s).
  destruct (visited_shape (r0 :: refs) s) as (rest & E & Mid & End).
  fold seen in E, Mid, End.
  destruct (bodies_events seen s) as (_ & _ & _ & _ & P & new & T & V & _).
  destruct (clearInitSegments_frame (bodies seen s))
    as (ins & es & -> & _ & Ab).
  eexists. exists seen, rest, (new ++ es). split; [reflexivity|].
  simp_state. split; [exact E|]. split; [rewrite T; now rewrite app_assoc|].
  split; [rewrite visits_app, (visits_aborts es Ab), app_nil_r; exact V|].
  split; [exact P|]. split; [exact Mid|].
  intros Nr. destruct (End Nr) as [Full|(pre & r & E' & S')]; [now left|].
  right. exists pre, r. unfold stops in S'.
  apply andb_true_iff in S'. destruct S' as [S' S3].
  apply andb_true_iff in S'. tauto.
Qed.

(** X4: [prefetchSegmentsByTime] with a positive limit changes nothing when
    the stream has no segment index, when the index gives no iterator, and
    when the iterator is exhausted, also by [skipFirst]; and when the
    media-segment table is already at the limit it visits and dispatches
    nothing and keeps the position. *)
Theorem prefetchSegmentsByTime_no_ops :
  forall (s : state) (currTime : Z) (skipFirst : bool),
    0 < prefetchLimit_ (fst s) ->
    (segmentIndex (stream_ (fst s)) = None ->
     prefetchSegmentsByTime currTime skipFirst s = Ok s)
    /\ (forall index,
          segmentIndex (stream_ (fst s)) = Some index ->
          getIteratorForTime index
            (Z.max currTime (prefetchPosTime_ (fst s))) true = None ->
          prefetchSegmentsByTime currTime skipFirst s = Ok s)
    /\ (forall index iterator,
          segmentIndex (stream_ (fst s)) = Some index ->
          getIteratorForTime index
            (Z.max currTime (prefetchPosTime_ (fst s))) true = Some iterator ->
          (if skipFirst then tl iterator else iterator) = [] ->
          prefetchSegmentsByTime currTime skipFirst s = Ok s)
    /\ (prefetchLimit_ (fst s) <= Z.of_nat (JsMap.size (segments s)) ->
        exists s' aborts,
          prefetchSegmentsByTime currTime skipFirst s = Ok s'
          /\ segments s' = segments s
          /\ prefetchPosTime_ (fst s') = prefetchPosTime_ (fst s)
          /\ heap (snd s') = heap (snd s)
          /\ trace (snd s') = trace (snd s) ++ aborts
          /\ forall e, In e aborts -> exists q, e = Abort q).
Proof.
  intros s currTime skipFirst L.
  assert (G : (prefetchLimit_ (fst s) >? 0) = true) by (apply Z.gtb_lt; lia).
  rewrite prefetchSegmentsByTime_closed. unfold limitReport, scanned.
  rewrite G.
  split; [now intros ->|]. split; [now intros index -> ->|]. split.
  - intros index iterator -> -> E. now rewrite E.
  - intros Full.
    destruct (segmentIndex (stream_ (fst s))) as [index|].
    2:{ exists s, []. rewrite app_nil_r.
        do 5 (split; [reflexivity|]). intros e []. }
    destruct (getIteratorForTime index _ true) as [iterator|].
    2:{ exists s, []. rewrite app_nil_r.
        do 5 (split; [reflexivity|]). intros e []. }
    destruct (if skipFirst then tl iterator else iterator) as [|r0 refs].
    { exists s, []. rewrite app_nil_r.
      do 5 (split; [reflexivity|]). intros e []. }
    assert (F : (Z.of_nat (JsMap.size (segments s)) <? prefetchLimit_ (fst s))
                = false) by (apply Z.ltb_ge; lia).
    cbn [visited]. rewrite F. unfold bodies. cbn [fold_left].
    destruct (clearInitSegments_frame s) as (ins & es & -> & _ & Ab).
    eexists. exists es. split; [reflexivity|]. simp_state.
    do 4 (split; [reflexivity|]). exact Ab.
Qed.

(** ** Clearing, switching and closing the cache *)

Lemma abortEvents_requests (w : World) (l : list Addr) :
  Forall (dispatched (heap w)) l ->
  exists ps,
    requestsOf w l = map Some ps /\ abortEvents (heap w) l = map Abort ps.
Proof.
  induction 1 as [|a l (o & p & Ho & Hp) _ (ps & R & A)].
  - now exists [].
  - exists (p :: ps). unfold requestsOf, abortEvents in *.
    cbn [map flat_map]. rewrite R, A.
    unfold Operation.getOperation, deref. now rewrite Ho, Hp.
Qed.

Lemma requestsOf_rev (w : World) (l : list Addr) (ps : list PendingRequest) :
  requestsOf w l = map Some ps -> requestsOf w (rev l) = map Some (rev ps).
Proof.
  unfold requestsOf. intros H. now rewrite !map_rev, H.
Qed.

Lemma map_Some_inj {A : Type} (l l' : list A) :
  map Some l = map Some l' -> l = l'.
Proof.
  revert l'. induction l as [|x l IH]; intros [|y l'] H; try discriminate.
  - reflexivity.
  - injection H as -> H. f_equal. now apply IH.
Qed.

Lemma state_eta (s : state) :
  (set_initSegmentPrefetchMap_ (inits s)
     (set_segmentPrefetchMap_ (segments s) (fst s)), snd s) = s.
Proof. now destruct s as [[] w]. Qed.

Lemma clearAll_requests (s : state) :
  wf s ->
  exists ps qs,
    requestsOf (snd s) (JsMap.values (segments s)) = map Some ps
    /\ requestsOf (snd s) (JsMap.values (inits s)) = map Some qs
    /\ clearAll s
       = (set_prefetchPosTime_ 0
            (set_initSegmentPrefetchMap_ []
               (set_segmentPrefetchMap_ [] (fst s))),
          emits (map Abort (ps ++ qs)) (snd s)).
Proof.
  intros W.
  destruct (abortEvents_requests (snd s) _ (wf_alloc_segments _ _ _ W))
    as (ps & Rp & Ap).
  destruct (abortEvents_requests (snd s) _ (wf_alloc_inits _ _ _ W))
    as (qs & Rq & Aq).
  exists ps, qs. split; [exact Rp|]. split; [exact Rq|].
  rewrite (clearAll_closed s (wf_segments _ _ _ W) (wf_inits _ _ _ W)).
  now rewrite Ap, Aq, map_app.
Qed.

(** X5: [clearAll] empties both tables and sets the position to 0; it calls
    [abort()] once on the pending request of every entry, the media segments
    first and then the init segments, each in insertion order, so that as
    many requests are aborted as the two tables held entries; the limit, the
    stream, the dispatcher and [deleteOnGet] stay, and so does the heap. *)
Theorem clearAll_aborts_every_entry :
  forall (s : state),
    wf s ->
    exists ps qs,
      requestsOf (snd s) (JsMap.values (segments s)) = map Some ps
      /\ requestsOf (snd s) (JsMap.values (inits s)) = map Some qs
      /\ clearAll s
         = (set_prefetchPosTime_ 0
              (set_initSegmentPrefetchMap_ []
                 (set_segmentPrefetchMap_ [] (fst s))),
            emits (map Abort (ps ++ qs)) (snd s))
      /\ length (aborted (map Abort (ps ++ qs)))
         = (JsMap.size (segments s) + JsMap.size (inits s))%nat.
Proof.
  intros s W. destruct (clearAll_requests s W) as (ps & qs & Rp & Rq & E).
  exists ps, qs. split; [exact Rp|]. split; [exact Rq|]. split; [exact E|].
  assert (L : forall l : list PendingRequest,
             length (aborted (map Abort l)) = length l).
  { induction l as [|p l IH]; [reflexivity|]. cbn. now rewrite <- IH. }
  rewrite L, length_app. unfold JsMap.size.
  apply (f_equal (@length _)) in Rp, Rq. unfold requestsOf, JsMap.values in *.
  rewrite !length_map in Rp, Rq. lia.
Qed.

(** X6: [switchStream] asserts [deleteOnGet]: when it is not set, the
    failed assertion is reported, and the call carries on as it does when it
    is set. A null stream and the stream object that the cache already has
    change nothing; another stream object is adopted after [clearAll]: every
    entry is aborted, the tables are empty, the position is 0, and what
    [prefetchSegmentsByTime] dispatches next is for the new stream. *)
Theorem switchStream_adopts_after_clearing :
  forall (s : state) (stream : option Stream),
    wf s ->
    exists s',
      switchStream stream s
      = Done (if deleteOnGet_ (fst s) then []
              else ["switchStream should only be used if deleteOnGet is true"
                    %string])
          s'
      /\ (stream = None -> s' = s)
      /\ (forall st,
            stream = Some st ->
            stream_ident st = stream_ident (stream_ (fst s)) ->
            s' = s)
      /\ (forall st,
            stream = Some st ->
            stream_ident st <> stream_ident (stream_ (fst s)) ->
            exists ps qs,
              requestsOf (snd s) (JsMap.values (segments s)) = map Some ps
              /\ requestsOf (snd s) (JsMap.values (inits s)) = map Some qs
              /\ snd s' = emits (map Abort (ps ++ qs)) (snd s)
              /\ getStream s' = st
              /\ segments s' = [] /\ inits s' = []
              /\ getLastKnownPosition s' = 0
              /\ prefetchLimit_ (fst s') = prefetchLimit_ (fst s)
              /\ fetchDispatcher_ (fst s') = fetchDispatcher_ (fst s)
              /\ deleteOnGet_ (fst s') = deleteOnGet_ (fst s)
              /\ forall currTime skipFirst reported s'' d reference n p,
                   prefetchSegmentsByTime currTime skipFirst s'
                   = Done reported s'' ->
                   In (Fetch d reference n p) (trace (snd s'')) ->
                   In (Fetch d reference n p) (trace (snd s))
                   \/ n = stream_id st).
Proof.
  intros s stream W. rewrite switchStream_closed. eexists.
  split; [reflexivity|]. split; [now intros ->|]. split.
  - intros st -> E. now rewrite E, Nat.eqb_refl.
  - intros st -> N. apply Nat.eqb_neq in N. rewrite N.
    destruct (clearAll_requests s W) as (ps & qs & Rp & Rq & ->).
    exists ps, qs. simp_state.
    split; [exact Rp|]. split; [exact Rq|].
    do 8 (split; [reflexivity|]).
    intros currTime skipFirst reported s'' d reference n p H Hin.
    destruct (prefetchSegmentsByTime_events _ _ _ _ _ H)
      as (_ & _ & new & T & C).
    simp_state. rewrite T in Hin.
    apply in_app_or in Hin. destruct Hin as [Hin|Hin].
    * apply in_app_or in Hin. destruct Hin as [Hin|Hin]; [now left|].
      apply in_map_iff in Hin. destruct Hin as (? & ? & _). discriminate.
    * right.
      destruct (C _ Hin) as [(r & E)|[(q & E)|(r & _ & q & _ & D)]];
        try discriminate.
      destruct D as [E|(i & _ & E)]; now injection E as _ _ -> _.
Qed.

(** X7: [prefetchInitSegment] is not held back by the limit on the number
    of entries: whenever the limit is positive and the stream has an index,
    a reference that has no entry is dispatched with the dispatcher and the
    stream of the cache and gets an entry, whatever the two tables hold; the
    media-segment table is not touched, and [getPrefetchedSegment] then
    returns the request that the dispatcher returned. Without a segment
    index the call changes nothing. *)
Theorem prefetchInitSegment_is_not_limited :
  forall (s : state) (i : InitSegmentReference),
    0 < prefetchLimit_ (fst s) ->
    (segmentIndex (stream_ (fst s)) = None -> prefetchInitSegment i s = Ok s)
    /\ (segmentIndex (stream_ (fst s)) <> None ->
        JsMap.get init_id i (inits s) = None ->
        exists s',
          prefetchInitSegment i s = Ok s'
          /\ trace (snd s')
             = trace (snd s)
               ++ [Fetch (fetchDispatcher_ (fst s)) (Init i)
                     (stream_id (stream_ (fst s))) (requests (snd s))]
          /\ inits s' = inits s ++ [(i, length (heap (snd s)))]
          /\ segments s' = segments s
          /\ forall cb,
               exists s'',
                 getPrefetchedSegment (Init i) cb s'
                 = Ok (Some (requests (snd s)), s'')).
Proof.
  intros s i L.
  assert (G : (prefetchLimit_ (fst s) >? 0) = true) by (apply Z.gtb_lt; lia).
  rewrite prefetchInitSegment_closed, G. unfold withInit. split.
  - now intros ->.
  - intros X A. destruct (segmentIndex (stream_ (fst s))); [|now contradiction X].
    apply has_get in A. rewrite A. apply has_get in A.
    eexists. split; [reflexivity|]. unfold fetched. simp_state.
    do 3 (split; [reflexivity|]).
    intros cb. rewrite getPrefetchedSegment_closed. unfold limitReport.
    simp_state. rewrite G.
    rewrite (getIn_present init_id i cb _ _ _ (length (heap (snd s)))).
    2:{ rewrite get_app, A. cbn [JsMap.get]. now rewrite same_refl. }
    eexists. f_equal. f_equal.
    assert (E : forall w,
               heap w = heap (snd s)
                        ++ [OperationObject.mk (fetchDispatcher_ (fst s)) None
                              (Some (requests (snd s))) []] ->
               Operation.getOperation (length (heap (snd s))) w
               = Some (requests (snd s))).
    { intros w Hw. unfold Operation.getOperation, deref. rewrite Hw.
      rewrite nth_error_app2, Nat.sub_diag by lia. reflexivity. }
    now apply E.
Qed.

(** ** Aborting one entry *)

Lemma abortIn_delete {K : Type} (ident : K -> nat) (k : K)
    (m : @JsMap.t K Addr) (w : World) :
  fst (abortIn ident k m w) = JsMap.delete ident k m.
Proof. unfold abortIn. now destruct (JsMap.get ident k m). Qed.

Lemma abortIn_again {K : Type} (ident : K -> nat) (k : K)
    (m : @JsMap.t K Addr) (w w' : World) :
  abortIn ident k (fst (abortIn ident k m w)) w'
  = (fst (abortIn ident k m w), w').
Proof.
  rewrite abortIn_delete. apply abortIn_absent. apply get_delete_same.
Qed.

(** X8: [abortPrefetchedSegment_] aborts at most once: a reference that has
    no entry changes nothing; a reference that has one loses it, with one
    [abort()] on its operation, and a second call for the same reference
    does nothing more. *)
Theorem abortPrefetchedSegment_aborts_at_most_once :
  forall (s : state) (reference : Reference),
    let s' := abortPrefetchedSegment_ reference s in
    lookup reference s' = None
    /\ abortPrefetchedSegment_ reference s' = s'
    /\ (lookup reference s = None -> s' = s)
    /\ (forall a, lookup reference s = Some a ->
          snd s' = Operation.abort a (snd s)).
Proof.
  intros s [r|i] s'; unfold s'; clear s'.
  - rewrite !abort_media. unfold lookup. simp_state.
    rewrite abortIn_again. cbn [fst snd]. rewrite abortIn_delete.
    split; [apply get_delete_same|]. split; [reflexivity|]. split.
    + intros N. rewrite abortIn_absent by exact N. rewrite delete_absent by exact N.
      destruct s as [[] w]. reflexivity.
    + intros a G. unfold abortIn. now rewrite G.
  - rewrite !abort_init. unfold lookup. simp_state.
    rewrite abortIn_again. cbn [fst snd]. rewrite abortIn_delete.
    split; [apply get_delete_same|]. split; [reflexivity|]. split.
    + intros N. rewrite abortIn_absent by exact N. rewrite delete_absent by exact N.
      destruct s as [[] w]. reflexivity.
    + intros a G. unfold abortIn. now rewrite G.
Qed.

(** ** Eviction in steps *)

Lemma filter_and {A : Type} (f g : A -> bool) (l : list A) :
  filter f (filter g l) = filter (fun x => g x && f x) l.
Proof.
  induction l as [|x l IH]; [reflexivity|]. cbn [filter].
  destruct (g x); cbn [filter andb]; now rewrite IH.
Qed.

Lemma filter_nothing {A : Type} (f : A -> bool) (l : list A) :
  (forall x, In x l -> f x = false) -> filter f l = [].
Proof.
  induction l as [|x l IH]; intros H; [reflexivity|]. cbn [filter].
  rewrite (H x) by now left. apply IH. intros y Hy. apply H. now right.
Qed.

Lemma in_abortEvents_filter {K : Type} (h : list OperationObject.t)
    (f : K * Addr -> bool) (m : @JsMap.t K Addr) (e : Event) :
  In e (abortEvents h (JsMap.values (filter f m)))
  <-> exists x, In x m /\ f x = true /\ In e (abortEvents h [snd x]).
Proof.
  unfold abortEvents at 1. rewrite in_flat_map. split.
  - intros (a & Ha & He). unfold JsMap.values in Ha.
    apply in_map_iff in Ha. destruct Ha as (x & <- & Hx).
    apply filter_In in Hx. exists x. split; [tauto|]. split; [tauto|].
    unfold abortEvents. cbn [flat_map]. now rewrite app_nil_r.
  - intros (x & Hx & Fx & He). exists (snd x). split.
    + unfold JsMap.values. apply in_map. apply filter_In. tauto.
    + unfold abortEvents in He. cbn [flat_map] in He.
      now rewrite app_nil_r in He.
Qed.

Lemma referenced_mono (m m' : @JsMap.t SegmentReference Addr)
    (e : InitSegmentReference * Addr) :
  (forall x, In x m' -> In x m) ->
  referenced m' e = true -> referenced m e = true.
Proof.
  unfold referenced. intros Sub H. apply existsb_exists in H.
  destruct H as (r & Hr & Rr). apply existsb_exists. exists r.
  split; [|exact Rr]. unfold JsMap.keys in *. apply in_map_iff in Hr.
  destruct Hr as (x & <- & Hx). apply in_map. now apply Sub.
Qed.

Lemma evict_shape (time : Z) (s : state) :
  wf s ->
  let segs := filter (fun e => negb (passed time e)) (segments s) in
  evict time s
  = (set_initSegmentPrefetchMap_ (filter (referenced segs) (inits s))
       (set_segmentPrefetchMap_ segs (fst s)),
     emits
       (abortEvents (heap (snd s))
          (JsMap.values (filter (passed time) (segments s)))
        ++ abortEvents (heap (snd s))
             (JsMap.values
                (filter (fun e => negb (referenced segs e)) (inits s))))
       (snd s)).
Proof.
  intros W segs. rewrite evict_closed by apply W.
  unfold pruneInits. simp_state. now rewrite emits_emits.
Qed.

Lemma evict_wf (time : Z) (s : state) : wf s -> wf (evict time s).
Proof.
  intros W. rewrite evict_closed by apply W.
  apply pruneInits_wf. unfold wf. simp_state.
  now apply tables_wf_filter_segments.
Qed.

(** X9: evicting in two steps leaves the cache that one eviction at the
    later of the two times leaves: the same tables and fields, the same
    heap, and the same requests aborted; and an eviction at a time that is
    not later than the one before it changes nothing. *)
Theorem evict_in_steps :
  forall (s : state) (t1 t2 : Z),
    wf s ->
    fst (evict t2 (evict t1 s)) = fst (evict (Z.max t1 t2) s)
    /\ heap (snd (evict t2 (evict t1 s)))
       = heap (snd (evict (Z.max t1 t2) s))
    /\ (forall e,
          In e (trace (snd (evict t2 (evict t1 s))))
          <-> In e (trace (snd (evict (Z.max t1 t2) s))))
    /\ (t2 <= t1 -> evict t2 (evict t1 s) = evict t1 s).
Proof.
  intros s t1 t2 W.
  pose proof (evict_wf t1 s W) as W1.
  assert (P : forall x : SegmentReference * Addr,
             passed (Z.max t1 t2) x = passed t1 x || passed t2 x).
  { intros x. unfold passed.
    destruct (t1 >? endTime (fst x)) eqn:A, (t2 >? endTime (fst x)) eqn:B;
      cbn [orb];
      rewrite ?Z.gtb_lt in *;
      try (apply Z.gtb_lt; lia);
      apply not_true_iff_false in A; apply not_true_iff_false in B;
      rewrite Z.gtb_lt in A, B; apply not_true_iff_false;
      rewrite Z.gtb_lt; lia. }
  assert (Hs : filter (fun e => negb (passed t2 e))
                 (filter (fun e => negb (passed t1 e)) (segments s))
               = filter (fun e => negb (passed (Z.max t1 t2) e)) (segments s)).
  { rewrite filter_and. apply filter_ext. intros x. rewrite P.
    now rewrite negb_orb. }
  assert (Sub : forall x,
             In x (filter (fun e => negb (passed (Z.max t1 t2) e))
                     (segments s)) ->
             In x (filter (fun e => negb (passed t1 e)) (segments s))).
  { intros x Hx. apply filter_In in Hx. apply filter_In.
    split; [tauto|]. destruct Hx as [_ Hx]. rewrite P, negb_orb in Hx.
    apply andb_true_iff in Hx. tauto. }
  assert (Hi : filter
                 (referenced
                    (filter (fun e => negb (passed (Z.max t1 t2) e))
                       (segments s)))
                 (filter
                    (referenced
                       (filter (fun e => negb (passed t1 e)) (segments s)))
                    (inits s))
               = filter
                   (referenced
                      (filter (fun e => negb (passed (Z.max t1 t2) e))
                         (segments s)))
                   (inits s)).
  { rewrite filter_and. apply filter_ext. intros x.
    destruct (referenced
                (filter (fun e => negb (passed (Z.max t1 t2) e)) (segments s))
                x) eqn:R.
    - now rewrite (referenced_mono _ _ x Sub R).
    - apply andb_false_r. }
  split; [|split; [|split]].
  - rewrite (evict_shape t2 (evict t1 s) W1).
    rewrite (evict_shape (Z.max t1 t2) s W), (evict_shape t1 s W).
    simp_state. now rewrite Hs, Hi.
  - rewrite (evict_shape t2 (evict t1 s) W1).
    rewrite (evict_shape (Z.max t1 t2) s W), (evict_shape t1 s W).
    reflexivity.
  - intros e.
    rewrite (evict_shape t2 (evict t1 s) W1).
    rewrite (evict_shape (Z.max t1 t2) s W), (evict_shape t1 s W).
    simp_state. rewrite Hs, !filter_and. rewrite !in_app_iff.
    rewrite !in_abortEvents_filter.
    split.
    + intros [[T|[(x & I & F & E)|(x & I & F & E)]]
             |[(x & I & F & E)|(x & I & F & E)]].
      * now left.
      * right. left. exists x. rewrite P, F. auto.
      * right. right. exists x. split; [exact I|]. split; [|exact E].
        apply negb_true_iff. apply negb_true_iff in F.
        apply not_true_iff_false. intros R.
        apply not_true_iff_false in F. apply F.
        exact (referenced_mono _ _ x Sub R).
      * right. left. exists x. apply andb_true_iff in F.
        rewrite P, (proj2 F), orb_true_r. auto.
      * right. right. exists x. apply andb_true_iff in F. tauto.
    + intros [T|[(x & I & F & E)|(x & I & F & E)]].
      * left. now left.
      * rewrite P in F. destruct (passed t1 x) eqn:P1.
        -- left. right. left. exists x. auto.
        -- right. left. exists x. rewrite P1. cbn [negb andb orb] in *. auto.
      * destruct (referenced
                    (filter (fun e => negb (passed t1 e)) (segments s)) x)
          eqn:R.
        -- right. right. exists x. rewrite R. cbn [andb]. auto.
        -- left. right. right. exists x. rewrite R. auto.
  - intros Le.
    rewrite (evict_shape t2 (evict t1 s) W1).
    set (s1 := evict t1 s) in *.
    assert (Keep : forall x, In x (segments s1) -> passed t2 x = false).
    { intros x Hx. unfold s1 in Hx. rewrite (evict_shape t1 s W) in Hx.
      simp_state. apply filter_In in Hx. destruct Hx as [_ Hx].
      apply negb_true_iff in Hx. unfold passed in *.
      apply not_true_iff_false. apply not_true_iff_false in Hx.
      rewrite Z.gtb_lt in *. lia. }
    assert (E1 : filter (fun e => negb (passed t2 e)) (segments s1)
                 = segments s1).
    { apply filter_all. intros x Hx. now rewrite (Keep x Hx). }
    assert (E2 : filter (passed t2) (segments s1) = [])
      by (apply filter_nothing; exact Keep).
    assert (Ref : forall x, In x (inits s1) ->
                    referenced (segments s1) x = true).
    { intros x Hx. unfold s1 in *. rewrite (evict_shape t1 s W) in *.
      simp_state. apply filter_In in Hx. tauto. }
    cbv zeta. rewrite E1, E2.
    rewrite (filter_all _ _ Ref).
    rewrite (filter_nothing (fun e => negb (referenced (segments s1) e))).
    2:{ intros x Hx. now rewrite (Ref x Hx). }
    cbn [JsMap.values map abortEvents flat_map app].
    rewrite emits_nil. apply state_eta.
Qed.

(** ** A limit of 0 *)

(** X10: [resetLimit(0)] empties the cache: it aborts every media-segment
    entry, the newest first, and then every init-segment entry, leaves both
    tables empty and keeps the position. Afterwards
    [prefetchSegmentsByTime] and [getPrefetchedSegment] report the failed
    assertion of the limit and change nothing, the lookup returning none;
    [prefetchInitSegment] reports it too, but, when the stream has a segment
    index, it still dispatches the init segment and stores its
    operation. *)
Theorem resetLimit_zero_empties_the_cache :
  forall (s : state),
    wf s ->
    exists s' ps qs,
      resetLimit 0 s = Ok s'
      /\ requestsOf (snd s) (JsMap.values (segments s)) = map Some ps
      /\ requestsOf (snd s) (JsMap.values (inits s)) = map Some qs
      /\ s' = (set_initSegmentPrefetchMap_ []
                 (set_segmentPrefetchMap_ []
                    (set_prefetchLimit_ 0 (fst s))),
               emits (map Abort (rev ps ++ qs)) (snd s))
      /\ (forall currTime skipFirst,
            prefetchSegmentsByTime currTime skipFirst s'
            = Done [limitMessage] s')
      /\ (forall reference cb,
            getPrefetchedSegment reference cb s'
            = Done [limitMessage] (None, s'))
      /\ (forall i,
            exists s'',
              prefetchInitSegment i s' = Done [limitMessage] s''
              /\ (segmentIndex (stream_ (fst s)) = None -> s'' = s')
              /\ (segmentIndex (stream_ (fst s)) <> None ->
                  trace (snd s'')
                  = trace (snd s')
                    ++ [Fetch (fetchDispatcher_ (fst s)) (Init i)
                          (stream_id (stream_ (fst s))) (requests (snd s))]
                  /\ inits s'' = [(i, length (heap (snd s)))]
                  /\ segments s'' = [])).
Proof.
  intros s W.
  destruct (abortEvents_requests (snd s) _ (wf_alloc_segments _ _ _ W))
    as (ps & Rp & Ap).
  destruct (abortEvents_requests (snd s) _ (wf_alloc_inits _ _ _ W))
    as (qs & Rq & Aq).
  assert (Ar : abortEvents (heap (snd s)) (rev (JsMap.values (segments s)))
               = map Abort (rev ps)).
  { destruct (abortEvents_requests (snd s) (rev (JsMap.values (segments s))))
      as (ps' & Rp' & Ap').
    - apply Forall_rev. apply W.
    - rewrite Ap'. f_equal. apply map_Some_inj. rewrite <- Rp'.
      now apply requestsOf_rev. }
  eexists. exists ps, qs.
  rewrite resetLimit_closed by (try lia; apply W).
  split; [reflexivity|]. split; [exact Rp|]. split; [exact Rq|].
  change (Z.to_nat 0) with 0%nat. cbn [firstn skipn].
  unfold pruneInits. simp_state. unfold referenced.
  cbn [JsMap.keys map existsb negb].
  rewrite filter_none, filter_true.
  rewrite emits_emits, Ar, Aq, <- map_app.
  split; [reflexivity|]. split; [|split].
  - intros currTime skipFirst. rewrite prefetchSegmentsByTime_closed.
    unfold limitReport, scanned. simp_state. cbn [Z.gtb Z.compare].
    f_equal.
    destruct (segmentIndex (stream_ (fst s))) as [index|]; [|reflexivity].
    destruct (getIteratorForTime index _ true) as [iterator|]; [|reflexivity].
    destruct (if skipFirst then tl iterator else iterator) as [|r rest];
      reflexivity.
  - intros [r|i] cb; reflexivity.
  - intros i. rewrite prefetchInitSegment_closed. simp_state.
    cbn [Z.gtb Z.compare]. eexists. split; [reflexivity|].
    unfold withInit. simp_state. split.
    + now intros ->.
    + intros X.
      destruct (segmentIndex (stream_ (fst s))); [|now contradiction X].
      cbn [JsMap.has JsMap.get]. unfold fetched. simp_state.
      split; [now rewrite map_app, !app_assoc|]. split; reflexivity.
Qed.

(** ** The life of an operation *)

Lemma onDataAll_buffers (chunks : list (BufferSource * Settlement))
    (this : Addr) :
  forall (w : World) (o : OperationObject.t),
    deref this w = Some o ->
    OperationObject.streamDataCallback_ o = None ->
    trace (Operation.onDataAll chunks this w) = trace w
    /\ deref this (Operation.onDataAll chunks this w)
       = Some (OperationObject.set_buffered
                 (OperationObject.buffered o ++ concat (map fst chunks)) o).
Proof.
  unfold Operation.onDataAll.
  induction chunks as [|[c st] chunks IH]; intros w o D C;
    cbn [fold_left concat map fst snd].
  - split; [reflexivity|]. rewrite D, app_nil_r. now destruct o.
  - destruct (onData_buffers c st this w o D C) as [T D'].
    destruct (IH _ _ D' C) as [T' D'']. split; [congruence|].
    rewrite D''. destruct o. cbn. now rewrite app_assoc.
Qed.

(** With a callback attached, every chunk causes one delivery, of what is
    accumulated followed by the chunk; what the deliveries that resolved
    have carried, followed by what is accumulated, is what was accumulated
    followed by the chunks. *)
Lemma onDataAll_settles (chunks : list (BufferSource * Settlement))
    (this : Addr) (cb : Callback) :
  forall (w : World) (o : OperationObject.t),
    deref this w = Some o ->
    OperationObject.streamDataCallback_ o = Some cb ->
    exists payloads o',
      trace (Operation.onDataAll chunks this w)
      = trace w ++ map (Deliver cb) payloads
      /\ deref this (Operation.onDataAll chunks this w) = Some o'
      /\ length payloads = length chunks
      /\ concat (acknowledged payloads (map snd chunks))
         ++ OperationObject.buffered o'
         = OperationObject.buffered o ++ concat (map fst chunks)
      /\ (forall init c,
            chunks = init ++ [(c, Resolves)] ->
            OperationObject.buffered o' = [])
      /\ (Forall (fun chunk => snd chunk = Resolves) chunks ->
          payloads
          = match chunks with
            | [] => []
            | chunk :: rest =>
                (OperationObject.buffered o ++ fst chunk) :: map fst rest
            end).
Proof.
  unfold Operation.onDataAll.
  induction chunks as [|[c st] chunks IH]; intros w o D C;
    cbn [fold_left concat map fst snd length].
  - exists [], o. cbn [map]. rewrite !app_nil_r.
    split; [reflexivity|]. split; [exact D|]. split; [reflexivity|].
    split; [reflexivity|]. split; [|reflexivity].
    intros [|? ?] c E; discriminate.
  - destruct (onData_settles c st this w o cb D C) as [T D'].
    destruct (IH _ _ D' C) as (payloads & o' & T' & D'' & L & Sum & Last & All).
    exists ((OperationObject.buffered o ++ c) :: payloads), o'.
    split; [rewrite T', T, <- app_assoc; reflexivity|].
    split; [exact D''|]. split; [cbn [length]; now rewrite L|].
    split; [|split].
    + unfold acknowledged in *. cbn [combine flat_map fst snd].
      destruct st; cbn [OperationObject.buffered
                        OperationObject.set_buffered app concat] in *.
      * rewrite <- !app_assoc. now rewrite Sum.
      * rewrite Sum. now rewrite <- !app_assoc.
    + intros init c' E. destruct init as [|x init].
      * destruct chunks as [|? ?]; [|destruct chunks; discriminate].
        injection E as -> ->. cbn [fold_left] in D''.
        rewrite D' in D''. now injection D'' as <-.
      * injection E as _ E. exact (Last init c' E).
    + intros F. inversion F as [|? ? F1 F2]; subst. cbn [snd] in F1. subst st.
      f_equal. rewrite (All F2).
      destruct chunks as [|[c1 st1] chunks]; [reflexivity|].
      now cbn [OperationObject.buffered OperationObject.set_buffered
               map fst app].
Qed.

(** X11: the stream data of an operation reaches the callback complete and
    in order. While no callback is attached the chunks are accumulated and
    nothing is delivered; once one is attached, every chunk that arrives
    causes one call of it, with what is accumulated followed by the chunk;
    what the deliveries that resolved have carried, followed by what is
    still accumulated, is what was accumulated before followed by all the
    chunks in their order of arrival: bytes whose delivery was rejected stay
    accumulated and are delivered again with the next chunk. After a
    delivery that resolves nothing is left accumulated; and when every
    delivery resolves, the first carries the accumulated bytes and the
    first chunk, and each later one carries its chunk alone. *)
Theorem stream_data_is_delivered_in_order :
  forall (this : Addr) (w : World) (o : OperationObject.t) (cb : Callback)
         (before later : list (BufferSource * Settlement)),
    deref this w = Some o ->
    OperationObject.streamDataCallback_ o = None ->
    let w1 := Operation.onDataAll before this w in
    let w2 := Operation.setStreamDataCallback (Some cb) this w1 in
    let w3 := Operation.onDataAll later this w2 in
    trace w2 = trace w
    /\ exists payloads o3,
         trace w3 = trace w ++ map (Deliver cb) payloads
         /\ deref this w3 = Some o3
         /\ length payloads = length later
         /\ concat (acknowledged payloads (map snd later))
            ++ OperationObject.buffered o3
            = OperationObject.buffered o
              ++ concat (map fst before) ++ concat (map fst later)
         /\ (forall init c,
               later = init ++ [(c, Resolves)] ->
               OperationObject.buffered o3 = [])
         /\ (Forall (fun chunk => snd chunk = Resolves) later ->
             payloads
             = match later with
               | [] => []
               | chunk :: rest =>
                   (OperationObject.buffered o ++ concat (map fst before)
                    ++ fst chunk) :: map fst rest
               end).
Proof.
  intros this w o cb before later D C w1 w2 w3.
  destruct (onDataAll_buffers before this w o D C) as [T1 D1].
  fold w1 in T1, D1.
  assert (D2 : deref this w2
               = Some (OperationObject.set_streamDataCallback_ (Some cb)
                         (OperationObject.set_buffered
                            (OperationObject.buffered o
                             ++ concat (map fst before)) o))).
  { unfold w2, Operation.setStreamDataCallback, modify, deref. cbn [heap].
    unfold deref in D1. now apply nth_error_update_same. }
  assert (T2 : trace w2 = trace w) by exact T1.
  split; [exact T2|].
  destruct (onDataAll_settles later this cb w2 _ D2 eq_refl)
    as (payloads & o3 & T3 & D3 & L & Sum & Last & All).
  fold w3 in T3, D3.
  cbn [OperationObject.buffered OperationObject.set_buffered
       OperationObject.set_streamDataCallback_] in Sum, All.
  exists payloads, o3. split; [now rewrite T3, T2|]. split; [exact D3|].
  split; [exact L|]. split; [now rewrite Sum, <- app_assoc|].
  split; [exact Last|]. intros F. rewrite (All F).
  destruct later as [|chunk rest]; [reflexivity|].
  now rewrite <- app_assoc.
Qed.

(** X12: a new operation holds no request, and [abort()] on it does
    nothing. [dispatchFetch] calls the dispatcher that the operation holds,
    the replaced one if [replaceFetchDispatcher] has been called, once, with
    the reference and the stream, and keeps the request that the dispatcher
    returns; no other object is touched. [abort()] then calls [abort()] on
    that request and the operation keeps it, and replacing the dispatcher
    afterwards does not change the request. *)
Theorem operation_lifecycle :
  forall (d d' : FetchDispatcher) (w : World) (reference : Reference)
         (stream : Stream),
    let this := fst (Operation.constructor d w) in
    let w0 := snd (Operation.constructor d w) in
    let w1 := Operation.dispatchFetch reference stream this
                (Operation.replaceFetchDispatcher d' this w0) in
    Operation.getOperation this w0 = None
    /\ Operation.abort this w0 = w0
    /\ trace w1
       = trace w ++ [Fetch d' reference (stream_id stream) (requests w)]
    /\ Operation.getOperation this w1 = Some (requests w)
    /\ (forall a o, deref a w = Some o -> deref a w1 = Some o)
    /\ Operation.abort this w1 = emits [Abort (requests w)] w1
    /\ Operation.getOperation this (Operation.abort this w1)
       = Some (requests w)
    /\ Operation.getOperation this
         (Operation.replaceFetchDispatcher d this w1)
       = Some (requests w).
Proof.
  intros d d' w reference stream this w0 w1.
  assert (E0 : forall o : OperationObject.t,
             nth_error (heap w ++ [o]) (length (heap w)) = Some o).
  { intros o. now rewrite nth_error_app2, Nat.sub_diag by lia. }
  assert (E1 : w1 = fetched d' reference stream w).
  { unfold w1, w0, this, Operation.constructor, alloc,
      Operation.replaceFetchDispatcher, modify. cbn [fst snd heap requests trace].
    rewrite update_last. cbn [OperationObject.set_fetchDispatcher_
      OperationObject.fetchDispatcher_ OperationObject.streamDataCallback_
      OperationObject.operation_ OperationObject.buffered].
    apply (dispatch_fresh d' reference stream w). }
  assert (G1 : Operation.getOperation this w1 = Some (requests w)).
  { rewrite E1. unfold Operation.getOperation, deref, fetched, this.
    cbn [heap fst Operation.constructor alloc]. now rewrite E0. }
  split.
  { unfold Operation.getOperation, deref, w0, this, Operation.constructor,
      alloc. cbn [fst snd heap]. now rewrite E0. }
  split.
  { unfold Operation.abort, deref, w0, this, Operation.constructor, alloc.
    cbn [fst snd heap]. now rewrite E0. }
  split; [now rewrite E1|]. split; [exact G1|]. split.
  { intros a o Ha. rewrite E1. unfold deref, fetched in *. cbn [heap].
    rewrite nth_error_app1; [exact Ha|].
    apply nth_error_Some. congruence. }
  assert (A1 : Operation.abort this w1 = emits [Abort (requests w)] w1).
  { unfold Operation.abort. unfold Operation.getOperation in G1.
    destruct (deref this w1) as [o|]; [|discriminate]. now rewrite G1. }
  split; [exact A1|]. split.
  { rewrite A1. exact G1. }
  unfold Operation.getOperation, Operation.replaceFetchDispatcher, modify,
    deref in *. cbn [heap]. rewrite nth_error_update.
  destruct (Nat.eq_dec this this) as [_|N]; [|now contradiction N].
  destruct (nth_error (heap w1) this) as [o|]; [|discriminate].
  exact G1.
Qed.

(** ** The requests that the tables hold *)

Lemma entry_unique (reference : Reference) (a a' : Addr) (s : state) :
  wf s -> entry reference a s -> entry reference a' s -> a = a'.
Proof.
  intros W. destruct reference as [r|i]; cbn [entry]; intros H H'.
  - pose proof (unique_same_key ref_id r r a a' _ (wf_segments _ _ _ W)
                  H H' eq_refl) as E.
    congruence.
  - pose proof (unique_same_key init_id i i a a' _ (wf_inits _ _ _ W)
                  H H' eq_refl) as E.
    congruence.
Qed.

(** A step that adds no dispatch, removes entries and aborts only the
    requests of entries that it removes. *)
Lemma live_remove (s s' : state) (es : list Event) :
  wf s -> live s ->
  (forall reference a, entry reference a s' -> entry reference a s) ->
  (forall a, Operation.getOperation a (snd s')
             = Operation.getOperation a (snd s)) ->
  requests (snd s') = requests (snd s) ->
  trace (snd s') = trace (snd s) ++ es ->
  (forall e, In e es ->
     (exists r, e = Visit r)
     \/ exists reference a p,
          e = Abort p /\ entry reference a s /\ ~ entry reference a s'
          /\ Operation.getOperation a (snd s) = Some p) ->
  live s'.
Proof.
  intros W [Le Lf La Lo] Sub G R T Es.
  assert (Fs : forall d reference st p,
             In (Fetch d reference st p) (trace (snd s')) ->
             In (Fetch d reference st p) (trace (snd s))).
  { intros d reference st p H. rewrite T in H. apply in_app_or in H.
    destruct H as [H|H]; [exact H|].
    destruct (Es _ H) as [(r & E)|(? & ? & ? & E & _)]; discriminate. }
  constructor.
  - intros reference a H. destruct (Le _ _ (Sub _ _ H)) as (p & Gp & F & NA).
    exists p. rewrite G. split; [exact Gp|]. split.
    + destruct F as (d & st & F). exists d, st. rewrite T.
      apply in_or_app. now left.
    + rewrite T. intros HA. apply in_app_or in HA.
      destruct HA as [HA|HA]; [now apply NA|].
      destruct (Es _ HA) as [(r & E)|(reference' & a' & q & E & In' & Out & Gq)];
        [discriminate|].
      injection E as <-.
      destruct (Le _ _ In') as (p' & Gp' & (d' & st' & F') & _).
      assert (p' = p) by congruence. subst p'.
      destruct F as (d & st & F).
      pose proof (Lo _ _ _ _ _ _ _ F F') as <-.
      pose proof (entry_unique _ _ _ _ W (Sub _ _ H) In') as <-.
      now apply Out.
  - intros d reference st p H. rewrite R. eapply Lf. eapply Fs. exact H.
  - intros p H. rewrite T in H. apply in_app_or in H.
    destruct H as [H|H].
    + destruct (La _ H) as (reference & d & st & F). exists reference, d, st.
      rewrite T. apply in_or_app. now left.
    + destruct (Es _ H) as [(r & E)|(reference & a & q & E & In' & _ & Gq)];
        [discriminate|].
      injection E as ->.
      destruct (Le _ _ In') as (p' & Gp' & (d' & st' & F') & _).
      assert (p' = q) by congruence. subst p'. exists reference, d', st'.
      rewrite T. apply in_or_app. now left.
  - intros d d' reference reference' st st' p H H'.
    eapply Lo; eapply Fs; eassumption.
Qed.

(** A step that dispatches [reference] with a new operation. *)
Lemma live_fetched (s s' : state) (d : FetchDispatcher)
    (reference : Reference) (st : Stream) :
  wf s -> live s ->
  snd s' = fetched d reference st (snd s) ->
  (forall reference' a,
     entry reference' a s' ->
     entry reference' a s
     \/ (reference' = reference /\ a = length (heap (snd s)))) ->
  live s'.
Proof.
  intros W [Le Lf La Lo] E Sub.
  assert (Old : forall reference' a,
             entry reference' a s -> (a < length (heap (snd s)))%nat).
  { intros [r|i] a H; cbn [entry] in H.
    - pose proof (wf_alloc_segments _ _ _ W) as F.
      rewrite Forall_forall in F.
      destruct (F a) as (o & p & Ho & _).
      + unfold JsMap.values. now apply (in_map snd) in H.
      + apply nth_error_Some. congruence.
    - pose proof (wf_alloc_inits _ _ _ W) as F.
      rewrite Forall_forall in F.
      destruct (F a) as (o & p & Ho & _).
      + unfold JsMap.values. now apply (in_map snd) in H.
      + apply nth_error_Some. congruence. }
  constructor; rewrite E; unfold fetched; cbn [trace requests heap].
  - intros reference' a H. destruct (Sub _ _ H) as [H'|[-> ->]].
    + destruct (Le _ _ H') as (p & Gp & (d' & st' & F) & NA).
      exists p. split.
      * unfold Operation.getOperation, deref in *. cbn [heap].
        rewrite nth_error_app1 by now apply (Old reference'). exact Gp.
      * split.
        -- exists d', st'. apply in_or_app. now left.
        -- intros HA. apply in_app_or in HA.
           destruct HA as [HA|[HA|[]]]; [now apply NA|discriminate].
    + exists (requests (snd s)). split.
      * unfold Operation.getOperation, deref. cbn [heap].
        now rewrite nth_error_app2, Nat.sub_diag by lia.
      * split.
        -- exists d, (stream_id st). apply in_or_app. right. now left.
        -- intros HA. apply in_app_or in HA.
           destruct HA as [HA|[HA|[]]]; [|discriminate].
           destruct (La _ HA) as (? & ? & ? & F). apply Lf in F. lia.
  - intros d' reference' st' p H. apply in_app_or in H.
    destruct H as [H|[H|[]]].
    + apply Lf in H. lia.
    + injection H as _ _ _ <-. lia.
  - intros p H. apply in_app_or in H.
    destruct H as [H|[H|[]]]; [|discriminate].
    destruct (La _ H) as (reference' & d' & st' & F).
    exists reference', d', st'. apply in_or_app. now left.
  - intros d1 d2 r1 r2 st1 st2 p H1 H2.
    apply in_app_or in H1. apply in_app_or in H2.
    destruct H1 as [H1|[H1|[]]], H2 as [H2|[H2|[]]].
    + eapply Lo; eassumption.
    + injection H2 as _ _ _ <-. apply Lf in H1. lia.
    + injection H1 as _ _ _ <-. apply Lf in H2. lia.
    + congruence.
Qed.

Lemma live_same (s s' : state) :
  wf s -> live s ->
  segments s' = segments s -> inits s' = inits s -> snd s' = snd s ->
  live s'.
Proof.
  intros W L Es Ei Ew. apply (live_remove s s' []); auto.
  - intros [r|i] a; cbn [entry]; congruence.
  - intros a. now rewrite Ew.
  - now rewrite Ew.
  - now rewrite Ew, app_nil_r.
  - intros e [].
Qed.

Lemma withInit_live (i : InitSegmentReference) (s : state) :
  wf s -> live s -> live (withInit i s).
Proof.
  intros W L. unfold withInit.
  destruct (segmentIndex (stream_ (fst s))); [|exact L].
  destruct (JsMap.has init_id i (inits s)); [exact L|].
  eapply (live_fetched s); [exact W|exact L|reflexivity|].
  intros [r|j] a; cbn [entry]; simp_state; [now left|].
  intros H. apply in_app_or in H. destruct H as [H|[H|[]]]; [now left|].
  right. injection H as -> ->. auto.
Qed.

Lemma withSegment_live (r : SegmentReference) (s : state) :
  wf s -> live s -> live (withSegment r s).
Proof.
  intros W L. unfold withSegment.
  destruct (JsMap.has ref_id r (segments s)); [exact L|].
  eapply (live_fetched s); [exact W|exact L|reflexivity|].
  intros [r'|j] a; cbn [entry]; simp_state; [|now left].
  intros H. apply in_app_or in H. destruct H as [H|[H|[]]]; [now left|].
  right. injection H as -> ->. auto.
Qed.

Lemma body_live (r : SegmentReference) (s : state) :
  wf s -> live s -> live (body r s).
Proof.
  intros W L. unfold body.
  set (s0 := (fst s, emit (Visit r) (snd s))).
  assert (W0 : wf s0) by exact W.
  assert (L0 : live s0).
  { apply (live_remove s s0 [Visit r]); auto.
    intros e [<-|[]]. left. now exists r. }
  set (s1 := match initSegmentReference r with
             | Some i => if allowed r then withInit i s0 else s0
             | None => s0
             end).
  assert (WL1 : wf s1 /\ live s1).
  { unfold s1. destruct (initSegmentReference r) as [i|]; [|now split].
    destruct (allowed r); [|now split].
    split; [now apply withInit_wf|now apply withInit_live]. }
  destruct WL1 as [W1 L1].
  set (s2 := if allowed r then withSegment r s1 else s1).
  assert (WL2 : wf s2 /\ live s2).
  { unfold s2. destruct (allowed r); [|now split].
    split; [now apply withSegment_wf|now apply withSegment_live]. }
  destruct WL2 as [W2 L2].
  now apply (live_same s2).
Qed.

Lemma bodies_live (rs : list SegmentReference) :
  forall s, wf s -> live s -> wf (bodies rs s) /\ live (bodies rs s).
Proof.
  unfold bodies. induction rs as [|r rs IH]; intros s W L; cbn [fold_left].
  - now split.
  - apply IH; [now apply body_wf|now apply body_live].
Qed.

Lemma abort_of_entry (h : list OperationObject.t) (a : Addr) (e : Event) :
  In e (abortEvents h [a]) ->
  exists p,
    e = Abort p
    /\ match nth_error h a with
       | Some o => OperationObject.operation_ o
       | None => None
       end = Some p.
Proof.
  unfold abortEvents. cbn [flat_map]. rewrite app_nil_r.
  destruct (nth_error h a) as [o|]; [|intros []].
  destruct (OperationObject.operation_ o) as [p|]; [|intros []].
  intros [<-|[]]. now exists p.
Qed.

(** A step that keeps the entries that [f] and [g] select and aborts the
    others, or some of them. *)
Lemma live_filter (s s' : state) (f : SegmentReference * Addr -> bool)
    (g : InitSegmentReference * Addr -> bool) (es : list Event) :
  wf s -> live s ->
  segments s' = filter f (segments s) ->
  inits s' = filter g (inits s) ->
  heap (snd s') = heap (snd s) ->
  requests (snd s') = requests (snd s) ->
  trace (snd s') = trace (snd s) ++ es ->
  (forall e, In e es ->
     (exists x, In x (segments s) /\ f x = false
                /\ In e (abortEvents (heap (snd s)) [snd x]))
     \/ (exists x, In x (inits s) /\ g x = false
                   /\ In e (abortEvents (heap (snd s)) [snd x]))) ->
  live s'.
Proof.
  intros W L Es Ei H R T A. apply (live_remove s s' es); auto.
  - intros [r|i] a; cbn [entry]; [rewrite Es|rewrite Ei];
      intros X; apply filter_In in X; tauto.
  - intros a. unfold Operation.getOperation, deref. now rewrite H.
  - intros e He. right.
    destruct (A e He) as [([r a] & I & F & E)|([i a] & I & F & E)];
      apply abort_of_entry in E; destruct E as (p & -> & G).
    + exists (Media r), a, p. split; [reflexivity|]. split; [exact I|].
      split; [|exact G]. cbn [entry]. rewrite Es. intros X.
      apply filter_In in X. destruct X as [_ X]. congruence.
    + exists (Init i), a, p. split; [reflexivity|]. split; [exact I|].
      split; [|exact G]. cbn [entry]. rewrite Ei. intros X.
      apply filter_In in X. destruct X as [_ X]. congruence.
Qed.

Lemma pruneInits_live (s : state) : wf s -> live s -> live (pruneInits s).
Proof.
  intros W L.
  apply (live_filter s (pruneInits s) (fun _ => true)
           (referenced (segments s))
           (abortEvents (heap (snd s))
              (JsMap.values
                 (filter (fun e => negb (referenced (segments s) e))
                    (inits s))))); auto.
  - unfold pruneInits. simp_state. now rewrite filter_true.
  - intros e He. right. apply in_abortEvents_filter in He.
    destruct He as (x & I & F & E). exists x. split; [exact I|].
    split; [now apply negb_true_iff|exact E].
Qed.

(** ** No request is aborted twice *)

Lemma aborted_app (es es' : list Event) :
  aborted (es ++ es') = aborted es ++ aborted es'.
Proof. unfold aborted. apply flat_map_app. Qed.

Lemma in_aborted (p : PendingRequest) (es : list Event) :
  In p (aborted es) <-> In (Abort p) es.
Proof.
  unfold aborted. rewrite in_flat_map. split.
  - intros (e & He & Hp). destruct e; try now destruct Hp.
    destruct Hp as [<-|[]]. exact He.
  - intros H. exists (Abort p). split; [exact H|]. now left.
Qed.

Lemma nodup_app {A : Type} (l l' : list A) :
  NoDup l -> NoDup l' -> (forall x, In x l -> ~ In x l') -> NoDup (l ++ l').
Proof.
  induction 1 as [|x l N _ IH]; intros N' D; [exact N'|].
  cbn [app]. constructor.
  - intros H. apply in_app_or in H. destruct H as [H|H]; [now apply N|].
    apply (D x); [now left|exact H].
  - apply IH; [exact N'|]. intros y Hy. apply D. now right.
Qed.

Lemma nodup_app_inv {A : Type} (l l' : list A) :
  NoDup (l ++ l') ->
  NoDup l /\ NoDup l' /\ forall x, In x l -> ~ In x l'.
Proof.
  induction l as [|x l IH]; cbn [app]; intros N.
  - split; [constructor|]. split; [exact N|]. intros x [].
  - inversion N as [|? ? Nx N']; subst. destruct (IH N') as (A1 & A2 & A3).
    split; [|split; [exact A2|]].
    + constructor; [|exact A1]. intros H. apply Nx. apply in_or_app.
      now left.
    + intros y [<-|Hy] H'; [|now apply (A3 y)].
      apply Nx. apply in_or_app. now right.
Qed.

Lemma in_aborted_abortEvents (h : list OperationObject.t) (l : list Addr)
    (p : PendingRequest) :
  In p (aborted (abortEvents h l))
  <-> exists a,
        In a l
        /\ match nth_error h a with
           | Some o => OperationObject.operation_ o
           | None => None
           end = Some p.
Proof.
  rewrite in_aborted. unfold abortEvents. rewrite in_flat_map. split.
  - intros (a & Ha & He). exists a. split; [exact Ha|].
    destruct (nth_error h a) as [o|]; [|now destruct He].
    destruct (OperationObject.operation_ o) as [q|]; [|now destruct He].
    destruct He as [E|[]]. congruence.
  - intros (a & Ha & E). exists a. split; [exact Ha|].
    destruct (nth_error h a) as [o|]; [|discriminate]. rewrite E. now left.
Qed.

(** Two entries that hold the same request are one entry. *)
Lemma live_injective (s : state) (reference reference' : Reference)
    (a a' : Addr) (p : PendingRequest) :
  wf s -> live s ->
  entry reference a s -> entry reference' a' s ->
  Operation.getOperation a (snd s) = Some p ->
  Operation.getOperation a' (snd s) = Some p ->
  a = a'.
Proof.
  intros W L H H' G G'.
  destruct (live_entries s L _ _ H) as (q & Gq & (d & st & F) & _).
  destruct (live_entries s L _ _ H') as (q' & Gq' & (d' & st' & F') & _).
  assert (q = p) by congruence. assert (q' = p) by congruence. subst q q'.
  pose proof (live_once s L _ _ _ _ _ _ _ F F') as <-.
  exact (entry_unique _ _ _ _ W H H').
Qed.

Lemma aborted_entries_nodup (s : state) (l : list Addr) :
  wf s -> live s -> NoDup l ->
  (forall a, In a l -> exists reference, entry reference a s) ->
  NoDup (aborted (abortEvents (heap (snd s)) l)).
Proof.
  intros W L. induction 1 as [|a l Na _ IH]; intros En; [constructor|].
  change (a :: l) with ([a] ++ l). rewrite abortEvents_app, aborted_app.
  apply nodup_app.
  - unfold abortEvents, aborted. cbn [flat_map]. rewrite app_nil_r.
    destruct (nth_error (heap (snd s)) a) as [o|]; [|constructor].
    destruct (OperationObject.operation_ o); cbn [flat_map app];
      repeat constructor. intros [].
  - apply IH. intros b Hb. apply En. now right.
  - intros p Hp Hp'. apply in_aborted_abortEvents in Hp, Hp'.
    destruct Hp as (b & [<-|[]] & G). destruct Hp' as (a' & Ha' & G').
    destruct (En a (or_introl eq_refl)) as (reference & H).
    destruct (En a' (or_intror Ha')) as (reference' & H').
    assert (a = a') by exact (live_injective s _ _ _ _ p W L H H' G G').
    subst a'. now apply Na.
Qed.

(** A step that removes the entries whose operations are [l] and aborts
    them. *)
Lemma settled_abort (s s' : state) (l : list Addr) :
  wf s -> settled s ->
  (forall reference a, entry reference a s' -> entry reference a s) ->
  heap (snd s') = heap (snd s) ->
  requests (snd s') = requests (snd s) ->
  trace (snd s') = trace (snd s) ++ abortEvents (heap (snd s)) l ->
  NoDup l ->
  (forall a, In a l ->
     exists reference, entry reference a s /\ ~ entry reference a s') ->
  settled s'.
Proof.
  intros W [L N] Sub H R T Nl Rem. split.
  - apply (live_remove s s' (abortEvents (heap (snd s)) l)); auto.
    + intros a. unfold Operation.getOperation, deref. now rewrite H.
    + intros e He. right. unfold abortEvents in He.
      apply in_flat_map in He. destruct He as (a & Ha & He).
      destruct (Rem a Ha) as (reference & I & O).
      exists reference, a.
      assert (He' : In e (abortEvents (heap (snd s)) [a])).
      { unfold abortEvents. cbn [flat_map]. now rewrite app_nil_r. }
      apply abort_of_entry in He'. destruct He' as (p & -> & G).
      exists p. auto.
  - rewrite T, aborted_app. apply nodup_app; [exact N| |].
    + apply aborted_entries_nodup; auto.
      intros a Ha. destruct (Rem a Ha) as (reference & I & _). eauto.
    + intros p Hp Hp'. apply in_aborted in Hp.
      apply in_aborted_abortEvents in Hp'. destruct Hp' as (a & Ha & G).
      destruct (Rem a Ha) as (reference & I & _).
      destruct (live_entries s L _ _ I) as (q & Gq & _ & NA).
      unfold Operation.getOperation, deref in Gq.
      assert (q = p) by congruence. subst q. now apply NA.
Qed.

(** A step that aborts nothing. *)
Lemma settled_keep (s s' : state) :
  live s' -> aborted (trace (snd s')) = aborted (trace (snd s)) ->
  settled s -> settled s'.
Proof. intros L E [_ N]. split; [exact L|]. now rewrite E. Qed.

Lemma pruneInits_settled (s : state) :
  wf s -> settled s -> settled (pruneInits s).
Proof.
  intros W S.
  apply (settled_abort s (pruneInits s)
           (JsMap.values
              (filter (fun e => negb (referenced (segments s) e)) (inits s))));
    auto.
  - intros [r|i] a; unfold pruneInits; cbn [entry]; simp_state; [auto|].
    intros X. apply filter_In in X. tauto.
  - apply nodup_values_filter. apply W.
  - intros a Ha. unfold JsMap.values in Ha. apply in_map_iff in Ha.
    destruct Ha as ([i a'] & E & Hx). cbn [snd] in E. subst a'.
    apply filter_In in Hx. destruct Hx as [I F].
    exists (Init i). unfold pruneInits. cbn [entry]. simp_state.
    split; [exact I|]. intros X. apply filter_In in X.
    destruct X as [_ X]. rewrite X in F. discriminate.
Qed.

Lemma aborted_fetched (d : FetchDispatcher) (reference : Reference)
    (st : Stream) (w : World) :
  aborted (trace (fetched d reference st w)) = aborted (trace w).
Proof.
  unfold fetched. cbn [trace]. rewrite aborted_app. cbn. apply app_nil_r.
Qed.

Lemma withInit_aborted (i : InitSegmentReference) (s : state) :
  aborted (trace (snd (withInit i s))) = aborted (trace (snd s)).
Proof.
  unfold withInit. destruct (segmentIndex (stream_ (fst s))); [|reflexivity].
  destruct (JsMap.has init_id i (inits s)); [reflexivity|].
  apply aborted_fetched.
Qed.

Lemma withSegment_aborted (r : SegmentReference) (s : state) :
  aborted (trace (snd (withSegment r s))) = aborted (trace (snd s)).
Proof.
  unfold withSegment. destruct (JsMap.has ref_id r (segments s));
    [reflexivity|].
  apply aborted_fetched.
Qed.

Lemma body_aborted (r : SegmentReference) (s : state) :
  aborted (trace (snd (body r s))) = aborted (trace (snd s)).
Proof.
  unfold body. cbn [snd].
  assert (E0 : aborted (trace (emit (Visit r) (snd s)))
               = aborted (trace (snd s))).
  { unfold emit. cbn [trace]. rewrite aborted_app. cbn. apply app_nil_r. }
  destruct (allowed r).
  - rewrite withSegment_aborted.
    destruct (initSegmentReference r);
      [rewrite withInit_aborted|]; exact E0.
  - destruct (initSegmentReference r); exact E0.
Qed.

Lemma bodies_settled (rs : list SegmentReference) :
  forall s, wf s -> settled s ->
            wf (bodies rs s) /\ settled (bodies rs s).
Proof.
  unfold bodies. induction rs as [|r rs IH]; intros s W S; cbn [fold_left].
  - now split.
  - apply IH; [now apply body_wf|].
    apply (settled_keep s); [|apply body_aborted|exact S].
    apply body_live; [exact W|apply S].
Qed.

Lemma prefetchSegmentsByTime_settled (currTime : Z) (skipFirst : bool)
    (s s' : state) (reported : list string) :
  wf s -> settled s ->
  prefetchSegmentsByTime currTime skipFirst s = Done reported s' ->
  settled s'.
Proof.
  intros W S H.
  destruct (prefetchSegmentsByTime_cases _ _ _ _ _ H)
    as [->|(index & iterator & r & rest & s1 & _ & _ & _ & Sc & ->)];
    [exact S|].
  rewrite scan_visited in Sc. apply Done_eq in Sc. destruct Sc as [_ <-].
  destruct (bodies_settled (visited (r :: rest) s) s W S) as [W1 S1].
  rewrite clearInitSegments_closed by apply W1.
  now apply pruneInits_settled.
Qed.

Lemma prefetchInitSegment_settled (i : InitSegmentReference) (s s' : state)
    (reported : list string) :
  wf s -> settled s -> prefetchInitSegment i s = Done reported s' ->
  settled s'.
Proof.
  intros W S. rewrite prefetchInitSegment_closed.
  intros [= _ <-]. apply (settled_keep s); [|apply withInit_aborted|exact S].
  apply withInit_live; [exact W|apply S].
Qed.

Lemma getPrefetchedSegment_settled (reference : Reference)
    (cb : option Callback) (s s' : state) (op : option PendingRequest)
    (reported : list string) :
  wf s -> settled s ->
  getPrefetchedSegment reference cb s = Done reported (op, s') ->
  settled s'
  /\ trace (snd s') = trace (snd s)
  /\ forall a, lookup reference s = Some a ->
               op = Operation.getOperation a (snd s).
Proof.
  intros W S. rewrite getPrefetchedSegment_closed.
  assert (Step : forall (t' : SegmentPrefetch.t) (w' : World),
             (forall reference' a,
                entry reference' a (t', w') -> entry reference' a s) ->
             (forall a, Operation.getOperation a w'
                        = Operation.getOperation a (snd s)) ->
             requests w' = requests (snd s) -> trace w' = trace (snd s) ->
             settled (t', w')).
  { intros t' w' Sub G R T. apply (settled_keep s); [| |exact S].
    - apply (live_remove s (t', w') []); auto; try apply S.
      + cbn [snd]. now rewrite T, app_nil_r.
      + intros e [].
    - cbn [snd]. now rewrite T. }
  assert (Cb : forall a w',
             w' = match cb with
                  | Some _ => Operation.setStreamDataCallback cb a (snd s)
                  | None => snd s
                  end ->
             (forall b, Operation.getOperation b w'
                        = Operation.getOperation b (snd s))
             /\ requests w' = requests (snd s) /\ trace w' = trace (snd s)).
  { intros a w' ->. destruct cb; [|auto]. split; [|auto].
    intros b. apply getOperation_setStreamDataCallback. }
  destruct reference as [r|i]; cbn [lookup].
  - destruct (JsMap.get ref_id r (segments s)) as [a|] eqn:G.
    + rewrite (getIn_present ref_id r cb _ _ _ a G). intros [= _ <- <-].
      destruct (Cb a _ eq_refl) as (C1 & C2 & C3). cbn [snd].
      split; [|split; [exact C3|now intros ? [= <-]]].
      apply Step; auto.
      intros [r'|i'] b; cbn [entry]; simp_state; [|auto].
      destruct (deleteOnGet_ (fst s)); [|auto].
      unfold JsMap.delete. intros X. apply filter_In in X. tauto.
    + rewrite (getIn_absent ref_id r cb _ _ _ G). intros [= _ <- <-].
      cbn [snd]. split; [|split; [reflexivity|discriminate]].
      apply Step; auto; intros [r'|i'] b; cbn [entry]; simp_state; auto.
  - destruct (JsMap.get init_id i (inits s)) as [a|] eqn:G.
    + rewrite (getIn_present init_id i cb _ _ _ a G). intros [= _ <- <-].
      destruct (Cb a _ eq_refl) as (C1 & C2 & C3). cbn [snd].
      split; [|split; [exact C3|now intros ? [= <-]]].
      apply Step; auto.
      intros [r'|i'] b; cbn [entry]; simp_state; [auto|].
      destruct (deleteOnGet_ (fst s)); [|auto].
      unfold JsMap.delete. intros X. apply filter_In in X. tauto.
    + rewrite (getIn_absent init_id i cb _ _ _ G). intros [= _ <- <-].
      cbn [snd]. split; [|split; [reflexivity|discriminate]].
      apply Step; auto; intros [r'|i'] b; cbn [entry]; simp_state; auto.
Qed.

Lemma replace_all_getOperation (d : FetchDispatcher) (l : list Addr)
    (a : Addr) :
  forall w,
    Operation.getOperation a
      (fold_left
         (fun w operation => Operation.replaceFetchDispatcher d operation w)
         l w)
    = Operation.getOperation a w.
Proof.
  induction l as [|b l IH]; intros w; cbn [fold_left]; [reflexivity|].
  rewrite IH. unfold Operation.getOperation, Operation.replaceFetchDispatcher,
    modify, deref. cbn [heap]. rewrite nth_error_update.
  destruct (Nat.eq_dec b a) as [_|_]; [|reflexivity].
  now destruct (nth_error (heap w) a).
Qed.

Lemma replaceFetchDispatcher_settled (d : FetchDispatcher) (s : state) :
  wf s -> settled s -> settled (replaceFetchDispatcher d s).
Proof.
  intros W S.
  destruct (replace_all_heap d (JsMap.values (segments s)) (snd s))
    as (_ & T & R).
  apply (settled_keep s); [| |exact S].
  - apply (live_remove s _ []); auto; try apply S.
    + intros a. unfold replaceFetchDispatcher. cbn [snd].
      apply replace_all_getOperation.
    + unfold replaceFetchDispatcher. cbn [snd]. simp_state.
      now rewrite T, app_nil_r.
    + intros e [].
  - unfold replaceFetchDispatcher. cbn [snd]. simp_state. now rewrite T.
Qed.

Lemma values_disjoint_nodup (s : state)
    (m : @JsMap.t SegmentReference Addr)
    (m' : @JsMap.t InitSegmentReference Addr) :
  wf s ->
  NoDup (JsMap.values m) -> NoDup (JsMap.values m') ->
  (forall x, In x m -> In x (segments s)) ->
  (forall x, In x m' -> In x (inits s)) ->
  NoDup (JsMap.values m ++ JsMap.values m').
Proof.
  intros W N N' Sub Sub'. apply nodup_app; [exact N|exact N'|].
  intros a Ha Ha'. unfold JsMap.values in *.
  apply in_map_iff in Ha. destruct Ha as (x & <- & Hx).
  apply in_map_iff in Ha'. destruct Ha' as (y & E & Hy).
  apply (wf_sep _ _ _ W (snd x)).
  - unfold JsMap.values. apply in_map. now apply Sub.
  - unfold JsMap.values. rewrite <- E. apply in_map. now apply Sub'.
Qed.

Lemma evict_settled (time : Z) (s : state) :
  wf s -> settled s -> settled (evict time s).
Proof.
  intros W S.
  set (segs := filter (fun e => negb (passed time e)) (segments s)).
  apply (settled_abort s (evict time s)
           (JsMap.values (filter (passed time) (segments s))
            ++ JsMap.values
                 (filter (fun e => negb (referenced segs e)) (inits s))));
    auto; rewrite ?(evict_shape time s W); fold segs; simp_state.
  - intros [r|i] a; cbn [entry]; simp_state; intros X;
      apply filter_In in X; tauto.
  - reflexivity.
  - reflexivity.
  - now rewrite abortEvents_app.
  - apply (values_disjoint_nodup s); auto.
    + apply nodup_values_filter. apply W.
    + apply nodup_values_filter. apply W.
    + intros x X. apply filter_In in X. tauto.
    + intros x X. apply filter_In in X. tauto.
  - intros a Ha. apply in_app_or in Ha. unfold JsMap.values in Ha.
    destruct Ha as [Ha|Ha]; apply in_map_iff in Ha;
      destruct Ha as ([k a'] & E & Hx); cbn [snd] in E; subst a';
      apply filter_In in Hx; destruct Hx as [I F].
    + exists (Media k). cbn [entry]. simp_state. split; [exact I|].
      unfold segs. intros X. apply filter_In in X. destruct X as [_ X].
      rewrite F in X. discriminate.
    + exists (Init k). cbn [entry]. simp_state. split; [exact I|].
      intros X. apply filter_In in X. destruct X as [_ X].
      rewrite X in F. discriminate.
Qed.

Lemma clearAll_settled (s : state) : wf s -> settled s -> settled (clearAll s).
Proof.
  intros W S.
  apply (settled_abort s (clearAll s)
           (JsMap.values (segments s) ++ JsMap.values (inits s)));
    auto; rewrite ?(clearAll_closed s (wf_segments _ _ _ W) (wf_inits _ _ _ W));
    simp_state.
  - intros [r|i] a; cbn [entry]; simp_state; intros [].
  - reflexivity.
  - reflexivity.
  - now rewrite abortEvents_app.
  - apply (values_disjoint_nodup s); auto; apply W.
  - intros a Ha. apply in_app_or in Ha. unfold JsMap.values in Ha.
    destruct Ha as [Ha|Ha]; apply in_map_iff in Ha;
      destruct Ha as ([k a'] & E & Hx); cbn [snd] in E; subst a'.
    + exists (Media k). cbn [entry]. simp_state. auto.
    + exists (Init k). cbn [entry]. simp_state. auto.
Qed.

Lemma resetLimit_settled (n : Z) (s s' : state) (reported : list string) :
  wf s -> settled s -> resetLimit n s = Done reported s' -> settled s'.
Proof.
  intros W S H.
  assert (N : 0 <= n).
  { destruct (Z.le_gt_cases 0 n) as [N|N]; [exact N|].
    rewrite resetLimit_hangs in H by lia. discriminate. }
  rewrite resetLimit_closed in H by (auto; apply W).
  apply Done_eq in H. destruct H as [_ <-].
  set (mid := (set_segmentPrefetchMap_ (firstn (Z.to_nat n) (segments s))
                 (set_prefetchLimit_ n (fst s)),
               emits
                 (abortEvents (heap (snd s))
                    (rev (JsMap.values (skipn (Z.to_nat n) (segments s)))))
                 (snd s))).
  assert (Sp : JsMap.values (segments s)
               = JsMap.values (firstn (Z.to_nat n) (segments s))
                 ++ JsMap.values (skipn (Z.to_nat n) (segments s))).
  { unfold JsMap.values. now rewrite <- map_app, firstn_skipn. }
  pose proof (wf_sep_segments _ _ _ W) as Nd. rewrite Sp in Nd.
  apply nodup_app_inv in Nd. destruct Nd as (_ & Nk & Dj).
  assert (Wm : wf mid).
  { unfold wf, mid. simp_state.
    apply tables_wf_prefix with (segs' := skipn (Z.to_nat n) (segments s)).
    rewrite firstn_skipn. exact W. }
  apply pruneInits_settled; [exact Wm|].
  apply (settled_abort s mid
           (rev (JsMap.values (skipn (Z.to_nat n) (segments s))))); auto.
  - intros [r|i] a; unfold mid; cbn [entry]; simp_state; [|auto].
    intros X. rewrite <- (firstn_skipn (Z.to_nat n) (segments s)).
    apply in_or_app. now left.
  - now apply NoDup_rev.
  - intros a Ha. apply in_rev in Ha. unfold JsMap.values in Ha.
    apply in_map_iff in Ha. destruct Ha as ([r a'] & E & Hx).
    cbn [snd] in E. subst a'. exists (Media r). unfold mid. cbn [entry].
    simp_state. split.
    + rewrite <- (firstn_skipn (Z.to_nat n) (segments s)).
      apply in_or_app. now right.
    + intros X. apply (Dj a).
      * unfold JsMap.values. now apply (in_map snd) in X.
      * unfold JsMap.values. now apply (in_map snd) in Hx.
Qed.

Lemma switchStream_settled (stream : option Stream) (s s' : state)
    (reported : list string) :
  wf s -> settled s -> switchStream stream s = Done reported s' ->
  settled s'.
Proof.
  intros W S. rewrite switchStream_closed. intros H. apply Done_eq in H.
  destruct H as [_ <-].
  destruct stream as [stream|]; [|exact S].
  destruct (Nat.eqb _ _); [exact S|].
  pose proof (clearAll_settled s W S) as [L N].
  split; [|exact N]. apply (live_same (clearAll s)); auto.
  rewrite (clearAll_closed s) by apply W. unfold wf. simp_state.
  apply tables_wf_empty.
Qed.

Lemma exec_settled (c : Call) (s s' : state) (reported : list string) :
  wf s -> settled s -> exec c s = Done reported s' -> settled s'.
Proof.
  intros W S.
  destruct c as [d|currTime skipFirst|i|reference cb| |time|n|b|stream];
    cbn [exec].
  - intros [= _ <-]. now apply replaceFetchDispatcher_settled.
  - exact (prefetchSegmentsByTime_settled _ _ _ _ _ W S).
  - exact (prefetchInitSegment_settled _ _ _ _ W S).
  - intros H. apply bind_inv in H.
    destruct H as (r1 & [op s1] & r2 & H & [= _ <-] & _).
    exact (proj1 (getPrefetchedSegment_settled _ _ _ _ _ _ W S H)).
  - intros H. apply Done_eq in H. destruct H as [_ <-].
    now apply clearAll_settled.
  - intros H. apply Done_eq in H. destruct H as [_ <-].
    now apply evict_settled.
  - exact (resetLimit_settled _ _ _ _ W S).
  - intros [= _ <-]. destruct S as [L N]. split; [|exact N].
    now apply (live_same s).
  - exact (switchStream_settled _ _ _ _ W S).
Qed.

Lemma run_settled (calls : list Call) :
  forall (s s' : state) (reported : list string),
    invariant s -> settled s -> run calls s = Done reported s' -> settled s'.
Proof.
  induction calls as [|c calls IH]; intros s s' reported I S; cbn [run].
  - now intros [= _ <-].
  - intros H. apply bind_inv in H.
    destruct H as (r1 & s1 & r2 & H1 & H2 & _).
    apply (IH s1 s' r2); [exact (exec_invariant _ _ _ _ I H1)| |exact H2].
    exact (exec_settled _ _ _ _ (proj1 I) S H1).
Qed.

Lemma initial_settled (prefetchLimit : Z) (stream : Stream)
    (fetchDispatcher : FetchDispatcher) (deleteOnGet : bool) :
  settled (initial prefetchLimit stream fetchDispatcher deleteOnGet).
Proof.
  split; [|constructor].
  constructor; unfold initial, constructor; cbn [snd trace].
  - intros [r|i] a [].
  - intros d reference st p [].
  - intros p [].
  - intros d d' reference reference' st st' p [].
Qed.

Lemma lookup_entry (reference : Reference) (a : Addr) (s : state) :
  lookup reference s = Some a ->
  exists key, sameObject key reference /\ entry key a s.
Proof.
  destruct reference as [r|i]; cbn [lookup]; intros G;
    apply get_some_in in G; destruct G as (k & I & E).
  - now exists (Media k).
  - now exists (Init k).
Qed.

(** X13: in every state that calls can reach, a hit of
    [getPrefetchedSegment] returns a request, never null, and the request it
    returns is live: the dispatcher returned it for a dispatch of that very
    reference, and [abort()] has not been called on it. *)
Theorem prefetched_requests_are_live :
  forall (prefetchLimit : Z) (stream : Stream)
         (fetchDispatcher : FetchDispatcher) (deleteOnGet : bool)
         (calls : list Call) (reference : Reference) (cb : option Callback)
         (reported : list string) (s : state),
    run calls (initial prefetchLimit stream fetchDispatcher deleteOnGet)
    = Done reported s ->
    (forall a,
       lookup reference s = Some a ->
       exists reported' p s',
         getPrefetchedSegment reference cb s = Done reported' (Some p, s')
         /\ (0 < prefetchLimit_ (fst s) -> reported' = []))
    /\ (forall reported' p s',
          getPrefetchedSegment reference cb s = Done reported' (Some p, s') ->
          (exists key d st,
             sameObject key reference
             /\ In (Fetch d key st p) (trace (snd s')))
          /\ ~ In (Abort p) (trace (snd s'))).
Proof.
  intros prefetchLimit stream fetchDispatcher deleteOnGet calls reference cb
         reported s R.
  pose proof (run_invariant calls _ _ _
                (initial_invariant prefetchLimit stream fetchDispatcher
                   deleteOnGet) R) as [W _].
  pose proof (run_settled calls _ _ _
                (initial_invariant prefetchLimit stream fetchDispatcher
                   deleteOnGet)
                (initial_settled prefetchLimit stream fetchDispatcher
                   deleteOnGet) R) as S.
  assert (Hit : forall a,
             lookup reference s = Some a ->
             exists key p,
               sameObject key reference
               /\ Operation.getOperation a (snd s) = Some p
               /\ fetchedFor key p (trace (snd s))
               /\ ~ In (Abort p) (trace (snd s))).
  { intros a G. destruct (lookup_entry _ _ _ G) as (key & Sk & En).
    destruct (live_entries s (proj1 S) _ _ En) as (p & Gp & F & NA).
    now exists key, p. }
  split.
  - intros a G. destruct (Hit a G) as (key & p & _ & Gp & _).
    rewrite getPrefetchedSegment_closed. unfold limitReport.
    assert (Lb : 0 < prefetchLimit_ (fst s) ->
                 (if prefetchLimit_ (fst s) >? 0 then [] else [limitMessage])
                 = []).
    { intros L. assert (X : (prefetchLimit_ (fst s) >? 0) = true)
        by (apply Z.gtb_lt; lia). now rewrite X. }
    destruct reference as [r|i]; cbn [lookup] in G.
    + rewrite (getIn_present ref_id r cb _ _ _ a G), Gp. eauto.
    + rewrite (getIn_present init_id i cb _ _ _ a G), Gp. eauto.
  - intros reported' p s' E.
    destruct (getPrefetchedSegment_settled _ _ _ _ _ _ W S E) as (_ & T & Op).
    rewrite T.
    destruct (lookup reference s) as [a|] eqn:G.
    + destruct (Hit a eq_refl) as (key & q & Sk & Gq & (d & st & F) & NA).
      assert (q = p) by (specialize (Op a eq_refl); congruence). subst q.
      split; [now exists key, d, st|exact NA].
    + exfalso. rewrite getPrefetchedSegment_closed in E.
      destruct reference as [r|i]; cbn [lookup] in G.
      * rewrite (getIn_absent ref_id r cb _ _ _ G) in E. discriminate.
      * rewrite (getIn_absent init_id i cb _ _ _ G) in E. discriminate.
Qed.

(** X14: in every state that calls can reach, [abort()] has been called at
    most once on any request, and only on requests that the dispatcher had
    returned to the cache before. *)
Theorem no_request_is_aborted_twice :
  forall (prefetchLimit : Z) (stream : Stream)
         (fetchDispatcher : FetchDispatcher) (deleteOnGet : bool)
         (calls : list Call) (reported : list string) (s : state),
    run calls (initial prefetchLimit stream fetchDispatcher deleteOnGet)
    = Done reported s ->
    NoDup (aborted (trace (snd s)))
    /\ forall p,
         In (Abort p) (trace (snd s)) ->
         exists d reference st, In (Fetch d reference st p) (trace (snd s)).
Proof.
  intros prefetchLimit stream fetchDispatcher deleteOnGet calls reported s R.
  pose proof (run_settled calls _ _ _
                (initial_invariant prefetchLimit stream fetchDispatcher
                   deleteOnGet)
                (initial_settled prefetchLimit stream fetchDispatcher
                   deleteOnGet) R) as [L N].
  split; [exact N|].
  intros p H. destruct (live_aborts s L p H) as (reference & d & st & F).
  now exists d, reference, st.
Qed.

(** ** The manifest filterer *)

Module ManifestFiltererProperties.

Import ManifestFilterer.

Lemma includes_in (x : string) (s : list string) :
  existsb (String.eqb x) s = true <-> In x s.
Proof.
  rewrite existsb_exists. split.
  - intros (y & Hy & E). apply String.eqb_eq in E. now subst.
  - intros H. exists x. split; [exact H|apply String.eqb_refl].
Qed.

Lemma in_add (y x : string) (s : list string) :
  In y (add x s) <-> y = x \/ In y s.
Proof.
  unfold add. destruct (existsb (String.eqb x) s) eqn:E.
  - apply includes_in in E. split; [auto|]. intros [->|H]; auto.
  - rewrite in_app_iff. cbn [In]. split.
    + intros [H|[H|[]]]; auto.
    + intros [->|H]; auto.
Qed.

Lemma add_nodup (x : string) (s : list string) : NoDup s -> NoDup (add x s).
Proof.
  intros N. unfold add. destruct (existsb (String.eqb x) s) eqn:E;
    [exact N|].
  apply nodup_app; [exact N|repeat constructor; intros []|].
  intros y Hy [<-|[]]. apply includes_in in Hy. congruence.
Qed.

Lemma restricted_truthy (s : string) :
  In s restrictedStatuses -> truthy (Some s) = true.
Proof. intros [<-|[<-|[]]]; reflexivity. Qed.

Lemma forKeyId_step (this : t) (l : Locals.t) (k : string) :
  Locals.hasPlayable (forKeyId this l k) = Locals.hasPlayable l
  /\ Locals.hasAppRestrictions (forKeyId this l k)
     = Locals.hasAppRestrictions l
  /\ Locals.missingKeys (forKeyId this l k)
     = (if truthy (keyStatusOf this k) then Locals.missingKeys l
        else add k (Locals.missingKeys l))
  /\ Locals.badKeyStatuses (forKeyId this l k)
     = match keyStatusOf this k with
       | Some status =>
           if truthy (Some status) && includes restrictedStatuses status
           then add status (Locals.badKeyStatuses l)
           else Locals.badKeyStatuses l
       | None => Locals.badKeyStatuses l
       end.
Proof.
  unfold forKeyId. destruct (keyStatusOf this k) as [status|].
  - destruct (truthy (Some status)); cbn [negb andb]; [|auto].
    destruct (includes restrictedStatuses status); auto.
  - cbn [truthy negb]. auto.
Qed.

(** The loop over key ids. *)
Lemma keys_fold (this : t) (ks : list string) :
  forall l : Locals.t,
    let l' := fold_left (forKeyId this) ks l in
    Locals.hasPlayable l' = Locals.hasPlayable l
    /\ Locals.hasAppRestrictions l' = Locals.hasAppRestrictions l
    /\ (NoDup (Locals.missingKeys l) -> NoDup (Locals.missingKeys l'))
    /\ (NoDup (Locals.badKeyStatuses l) -> NoDup (Locals.badKeyStatuses l'))
    /\ (forall k,
          In k (Locals.missingKeys l')
          <-> In k (Locals.missingKeys l)
              \/ (In k ks /\ truthy (keyStatusOf this k) = false))
    /\ (forall s,
          In s (Locals.badKeyStatuses l')
          <-> In s (Locals.badKeyStatuses l)
              \/ (In s restrictedStatuses
                  /\ exists k, In k ks /\ keyStatusOf this k = Some s)).
Proof.
  induction ks as [|k0 ks IH]; intros l; cbn [fold_left].
  - split; [reflexivity|]. split; [reflexivity|]. split; [auto|].
    split; [auto|]. split.
    + intros k. split; [auto|]. intros [H|[[] _]]. exact H.
    + intros s. split; [auto|]. intros [H|(_ & k & [] & _)]. exact H.
  - destruct (IH (forKeyId this l k0)) as (P & A & Nm & Nb & M & B).
    clear IH.
    destruct (forKeyId_step this l k0) as (E1 & E2 & E3 & E4).
    rewrite E1 in P. rewrite E2 in A. rewrite E3 in Nm, M.
    rewrite E4 in Nb, B. clear E1 E2 E3 E4.
    split; [exact P|]. split; [exact A|]. split; [|split; [|split]].
    + intros N. apply Nm. destruct (truthy (keyStatusOf this k0));
        [exact N|now apply add_nodup].
    + intros N. apply Nb. destruct (keyStatusOf this k0) as [status|];
        [|exact N].
      destruct (truthy (Some status) && includes restrictedStatuses status);
        [now apply add_nodup|exact N].
    + intros k. rewrite M. cbn [In].
      destruct (truthy (keyStatusOf this k0)) eqn:T.
      * split.
        -- intros [H|[H H']]; auto.
        -- intros [H|[[<-|H] H']]; auto. congruence.
      * rewrite in_add. split.
        -- intros [[->|H]|[H H']]; auto.
        -- intros [H|[[<-|H] H']]; auto.
    + intros s. rewrite B. cbn [In]. clear M B Nm Nb.
      destruct (keyStatusOf this k0) as [status|] eqn:St.
      * destruct (truthy (Some status) && includes restrictedStatuses status)
          eqn:R.
        -- apply andb_true_iff in R. destruct R as [_ R].
           apply includes_in in R. rewrite in_add. split.
           ++ intros [[->|H]|(H & k & H1 & H2)]; auto.
              ** right. split; [exact R|]. exists k0. auto.
              ** right. split; [exact H|]. exists k. auto.
           ++ intros [H|(H & k & [<-|H1] & H2)]; auto.
              ** left. left. congruence.
              ** right. split; [exact H|]. exists k. auto.
        -- split.
           ++ intros [H|(H & k & H1 & H2)]; auto.
              right. split; [exact H|]. exists k. auto.
           ++ intros [H|(H & k & [<-|H1] & H2)]; auto.
              ** exfalso. assert (s = status) by congruence. subst s.
                 rewrite (restricted_truthy _ H) in R. cbn [andb] in R.
                 apply includes_in in H. unfold includes in R. congruence.
              ** right. split; [exact H|]. exists k. auto.
      * split.
        -- intros [H|(H & k & H1 & H2)]; auto.
           right. split; [exact H|]. exists k. auto.
        -- intros [H|(H & k & [<-|H1] & H2)]; auto.
           ++ congruence.
           ++ right. split; [exact H|]. exists k. auto.
Qed.

Lemma fold_flat_map {A B C : Type} (f : C -> B -> C) (g : A -> list B)
    (xs : list A) :
  forall c, fold_left f (flat_map g xs) c
            = fold_left (fun c x => fold_left f (g x) c) xs c.
Proof.
  induction xs as [|x xs IH]; intros c; cbn [flat_map fold_left];
    [reflexivity|].
  now rewrite fold_left_app, IH.
Qed.

(** The loop over the streams of a variant is the loop over their key
    ids. *)
Lemma streams_fold (this : t) (streams : list Stream) (l : Locals.t) :
  fold_left
    (fun l stream =>
       if (0 <? length (keyIds stream))%nat
       then fold_left (forKeyId this) (keyIds stream) l
       else l)
    streams l
  = fold_left (forKeyId this) (flat_map keyIds streams) l.
Proof.
  rewrite fold_flat_map. revert l.
  induction streams as [|st streams IH]; intros l; cbn [fold_left];
    [reflexivity|].
  rewrite <- IH. now destruct (keyIds st).
Qed.

Lemma forVariant_step (this : t) (l : Locals.t) (v : Variant) :
  let keyed :=
    fold_left (forKeyId this) (flat_map keyIds (streamsOf v)) l in
  Locals.hasPlayable (forVariant this l v)
  = Locals.hasPlayable l || unrestricted v
  /\ Locals.hasAppRestrictions (forVariant this l v)
     = Locals.hasAppRestrictions l || negb (allowedByApplication v)
  /\ Locals.missingKeys (forVariant this l v) = Locals.missingKeys keyed
  /\ Locals.badKeyStatuses (forVariant this l v)
     = Locals.badKeyStatuses keyed.
Proof.
  intros keyed. unfold forVariant. rewrite streams_fold. fold keyed.
  destruct (keys_fold this (flat_map keyIds (streamsOf v)) l)
    as (P & A & _). fold keyed in P, A. unfold unrestricted.
  destruct (allowedByApplication v), (allowedByKeySystem v);
    cbn [negb andb Locals.hasPlayable Locals.hasAppRestrictions
         Locals.missingKeys Locals.badKeyStatuses];
    rewrite ?P, ?A, ?orb_true_r, ?orb_false_r; auto.
Qed.

(** The loop over the variants. *)
Lemma variants_fold (this : t) (vs : list Variant) :
  forall l : Locals.t,
    let l' := fold_left (forVariant this) vs l in
    Locals.hasPlayable l' = Locals.hasPlayable l || existsb unrestricted vs
    /\ Locals.hasAppRestrictions l'
       = Locals.hasAppRestrictions l
         || existsb (fun v => negb (allowedByApplication v)) vs
    /\ (NoDup (Locals.missingKeys l) -> NoDup (Locals.missingKeys l'))
    /\ (NoDup (Locals.badKeyStatuses l) -> NoDup (Locals.badKeyStatuses l'))
    /\ (forall k,
          In k (Locals.missingKeys l')
          <-> In k (Locals.missingKeys l)
              \/ (In k (keyIdsOf vs) /\ truthy (keyStatusOf this k) = false))
    /\ (forall s,
          In s (Locals.badKeyStatuses l')
          <-> In s (Locals.badKeyStatuses l)
              \/ (In s restrictedStatuses
                  /\ exists k,
                       In k (keyIdsOf vs) /\ keyStatusOf this k = Some s)).
Proof.
  induction vs as [|v vs IH]; intros l; cbn [fold_left existsb].
  - rewrite !orb_false_r. split; [reflexivity|]. split; [reflexivity|].
    split; [auto|]. split; [auto|]. split.
    + intros k. split; [auto|]. intros [H|[[] _]]. exact H.
    + intros s. split; [auto|]. intros [H|(_ & k & [] & _)]. exact H.
  - destruct (IH (forVariant this l v)) as (P & A & Nm & Nb & M & B).
    clear IH.
    destruct (forVariant_step this l v) as (E1 & E2 & E3 & E4).
    destruct (keys_fold this (flat_map keyIds (streamsOf v)) l)
      as (_ & _ & Km & Kb & KM & KB).
    rewrite E1 in P. rewrite E2 in A. rewrite E3 in Nm, M.
    rewrite E4 in Nb, B. clear E1 E2 E3 E4.
    split; [now rewrite P, orb_assoc|]. split; [now rewrite A, orb_assoc|].
    split; [auto|]. split; [auto|]. unfold keyIdsOf. cbn [flat_map].
    fold (keyIdsOf vs). split.
    + intros k. rewrite M, KM, in_app_iff. tauto.
    + intros s. rewrite B, KB. split.
      * intros [[H|(H & k & H1 & H2)]|(H & k & H1 & H2)]; auto.
        -- right. split; [exact H|]. exists k. rewrite in_app_iff. auto.
        -- right. split; [exact H|]. exists k. rewrite in_app_iff. auto.
      * intros [H|(H & k & H1 & H2)]; auto.
        apply in_app_or in H1. destruct H1 as [H1|H1].
        -- left. right. split; [exact H|]. exists k. auto.
        -- right. split; [exact H|]. exists k. auto.
Qed.

Lemma checkRestrictedVariants_outcome (manifest : Manifest) (this : t) :
  if existsb unrestricted (variants manifest)
  then checkRestrictedVariants manifest this = Returns tt
  else exists data,
         checkRestrictedVariants manifest this
         = Throws (Error CRITICAL MANIFEST RESTRICTIONS_CANNOT_BE_MET
                     (Some data)).
Proof.
  unfold checkRestrictedVariants.
  destruct (variants_fold this (variants manifest)
              (Locals.mk false false [] [])) as (P & _).
  cbn [Locals.hasPlayable orb] in P. rewrite P.
  destruct (existsb unrestricted (variants manifest)); cbn [negb];
    [reflexivity|]. eexists. reflexivity.
Qed.

(** X15: [checkRestrictedVariants] returns when some variant of the
    manifest is allowed by the application and by the key system, and only
    then; otherwise, also for a manifest without variants, it throws the
    critical manifest error [RESTRICTIONS_CANNOT_BE_MET], whose data say
    that there are application restrictions exactly when some variant is
    not allowed by the application. The key statuses have no part in the
    decision. *)
Theorem checkRestrictedVariants_throws_iff_nothing_is_allowed :
  forall (manifest : Manifest) (this : t),
    match checkRestrictedVariants manifest this with
    | Returns _ =>
        exists v,
          In v (variants manifest)
          /\ allowedByApplication v = true /\ allowedByKeySystem v = true
    | Throws e =>
        (forall v,
           In v (variants manifest) ->
           allowedByApplication v = false \/ allowedByKeySystem v = false)
        /\ exists data,
             e = Error CRITICAL MANIFEST RESTRICTIONS_CANNOT_BE_MET (Some data)
             /\ (hasAppRestrictions data = true
                 <-> exists v,
                       In v (variants manifest)
                       /\ allowedByApplication v = false)
    end.
Proof.
  intros manifest this. unfold checkRestrictedVariants.
  destruct (variants_fold this (variants manifest)
              (Locals.mk false false [] [])) as (P & A & _).
  cbn [Locals.hasPlayable Locals.hasAppRestrictions orb] in P, A.
  rewrite P.
  destruct (existsb unrestricted (variants manifest)) eqn:E; cbn [negb].
  - apply existsb_exists in E. destruct E as (v & Hv & U).
    unfold unrestricted in U. apply andb_true_iff in U. now exists v.
  - split.
    + intros v Hv.
      assert (U : unrestricted v = false).
      { apply not_true_iff_false. intros U.
        apply not_true_iff_false in E. apply E. apply existsb_exists.
        now exists v. }
      unfold unrestricted in U. now apply andb_false_iff in U.
    + eexists. split; [reflexivity|]. cbn [hasAppRestrictions].
      rewrite A, existsb_exists. split.
      * intros (v & Hv & N). exists v. split; [exact Hv|].
        now apply negb_true_iff.
      * intros (v & Hv & N). exists v. split; [exact Hv|].
        now apply negb_true_iff.
Qed.

(** X16: the data of the error that [checkRestrictedVariants] throws list
    each key once. A key id is among the missing keys exactly when it is a
    key id of an audio or video stream of a variant and the engine has no
    status, or an empty one, for it; a status is among the restricted key
    statuses exactly when it is [output-restricted] or [internal-error] and
    is the status of such a key id. *)
Theorem checkRestrictedVariants_reports_keys :
  forall (manifest : Manifest) (this : t) (severity : Severity)
         (category : Category) (code : Code) (data : RestrictionInfo),
    checkRestrictedVariants manifest this
    = Throws (Error severity category code (Some data)) ->
    NoDup (missingKeys data)
    /\ NoDup (restrictedKeyStatuses data)
    /\ (forall k,
          In k (missingKeys data)
          <-> In k (keyIdsOf (variants manifest))
              /\ truthy (keyStatusOf this k) = false)
    /\ (forall s,
          In s (restrictedKeyStatuses data)
          <-> In s restrictedStatuses
              /\ exists k,
                   In k (keyIdsOf (variants manifest))
                   /\ keyStatusOf this k = Some s).
Proof.
  intros manifest this severity category code data.
  unfold checkRestrictedVariants.
  destruct (variants_fold this (variants manifest)
              (Locals.mk false false [] [])) as (_ & _ & Nm & Nb & M & B).
  cbn [Locals.missingKeys Locals.badKeyStatuses] in Nm, Nb, M, B.
  destruct (negb _); [|discriminate]. intros [= _ _ _ <-].
  cbn [missingKeys restrictedKeyStatuses].
  split; [apply Nm; constructor|]. split; [apply Nb; constructor|]. split.
  - intros k. rewrite M. cbn [In]. tauto.
  - intros s. rewrite B. cbn [In]. tauto.
Qed.

(** X17: without a DRM engine every key id of the manifest is reported as
    missing and no status as restricted. When the first key that the engine
    reports is [00], its status stands for every key id: either all key ids
    are missing, or none is, and the only status that can be restricted is
    that of [00]. *)
Theorem checkRestrictedVariants_without_engine_and_global_status :
  forall (manifest : Manifest) (this : t) (severity : Severity)
         (category : Category) (code : Code) (data : RestrictionInfo),
    checkRestrictedVariants manifest this
    = Throws (Error severity category code (Some data)) ->
    (drmEngine_ this = None ->
     restrictedKeyStatuses data = []
     /\ forall k,
          In k (missingKeys data) <-> In k (keyIdsOf (variants manifest)))
    /\ (isGlobalStatusOf this = true ->
        ((forall k,
            In k (missingKeys data) <-> In k (keyIdsOf (variants manifest)))
         \/ missingKeys data = [])
        /\ (forall s,
              In s (restrictedKeyStatuses data) ->
              property "00"%string (keyStatusMapOf this) = Some s
              /\ missingKeys data = [])).
Proof.
  intros manifest this severity category code data.
  unfold checkRestrictedVariants.
  destruct (variants_fold this (variants manifest)
              (Locals.mk false false [] [])) as (_ & _ & _ & _ & M & B).
  cbn [Locals.missingKeys Locals.badKeyStatuses] in M, B.
  destruct (negb _); [|discriminate]. intros [= _ _ _ <-].
  cbn [missingKeys restrictedKeyStatuses].
  assert (Empty : forall l : list string, (forall x, ~ In x l) -> l = []).
  { intros [|x l] H; [reflexivity|]. exfalso. apply (H x). now left. }
  split.
  - intros N.
    assert (S : forall k, keyStatusOf this k = None).
    { intros k. unfold keyStatusOf, keyStatusMapOf. rewrite N.
      now destruct (isGlobalStatusOf this). }
    split.
    + apply Empty. intros s Hs. apply B in Hs.
      destruct Hs as [[]|(_ & k & _ & E)]. rewrite S in E. discriminate.
    + intros k. rewrite M, S. cbn [In truthy]. tauto.
  - intros G.
    assert (S : forall k,
               keyStatusOf this k
               = property "00"%string (keyStatusMapOf this)).
    { intros k. unfold keyStatusOf. now rewrite G. }
    destruct (truthy (property "00"%string (keyStatusMapOf this))) eqn:T.
    + assert (E : Locals.missingKeys
                    (fold_left (forVariant this) (variants manifest)
                       (Locals.mk false false [] [])) = []).
      { apply Empty. intros k Hk. apply M in Hk.
        destruct Hk as [[]|[_ F]]. rewrite S in F. congruence. }
      split; [now right|]. intros s Hs. apply B in Hs.
      destruct Hs as [[]|(_ & k & _ & F)]. rewrite S in F. auto.
    + split.
      * left. intros k. rewrite M, S. cbn [In]. tauto.
      * intros s Hs. exfalso. apply B in Hs.
        destruct Hs as [[]|(R & k & _ & F)]. rewrite S in F.
        rewrite F in T. rewrite (restricted_truthy _ R) in T. discriminate.
Qed.

Lemma forEach_calls {A : Type} (xs : list A) (body : A -> Run unit)
    (f : A -> list NewInitData) :
  (forall x calls, body x calls = (Returns tt, calls ++ f x)) ->
  forall calls, forEach xs body calls = (Returns tt, calls ++ flat_map f xs).
Proof.
  intros H. induction xs as [|x xs IH]; intros calls; cbn [forEach flat_map].
  - unfold ret. now rewrite app_nil_r.
  - unfold andThen. rewrite H, IH. now rewrite app_assoc.
Qed.

Lemma processDrmInfos_calls (keySystem : string) (stream : option Stream)
    (this : t) (calls : list NewInitData) :
  drmEngine_ this <> None ->
  processDrmInfos keySystem stream this calls
  = (Returns tt, calls ++ initDataFor keySystem stream).
Proof.
  intros N. unfold processDrmInfos, initDataFor.
  destruct stream as [stream|]; [|unfold ret; now rewrite app_nil_r].
  apply forEach_calls. intros drmInfo calls'.
  destruct (String.eqb (DrmInfo.keySystem drmInfo) keySystem).
  - rewrite (forEach_calls _ _
               (fun i => [(InitDataOverride.initDataType i,
                           InitDataOverride.initData i)])).
    + reflexivity.
    + intros i calls''. unfold newInitData.
      destruct (drmEngine_ this); [reflexivity|now contradiction N].
  - unfold ret. now rewrite app_nil_r.
Qed.

Lemma forEach_raises {A : Type} (xs : list A) (body : A -> Run unit)
    (f : A -> list NewInitData) (e : Exception) :
  (forall x calls,
     body x calls = if match f x with [] => true | _ => false end
                    then (Returns tt, calls) else (Throws e, calls)) ->
  forall calls,
    forEach xs body calls
    = if match flat_map f xs with [] => true | _ => false end
      then (Returns tt, calls) else (Throws e, calls).
Proof.
  intros H. induction xs as [|x xs IH]; intros calls;
    cbn [forEach flat_map]; [reflexivity|].
  unfold andThen. rewrite H. destruct (f x) as [|c l]; cbn [app].
  - apply IH.
  - reflexivity.
Qed.

(** X19: [processDrmInfos] does nothing for a null stream. With a DRM
    engine it returns after handing to [newInitData], in order, the init
    data of the DRM infos of the stream whose key system is the given one,
    and nothing of the others; a DRM info whose init data are null counts
    as one without init data. Without a DRM engine it returns when there
    is no such init data, and otherwise throws a [TypeError] before any
    call is made. *)
Theorem processDrmInfos_hands_over_matching_init_data :
  forall (keySystem : string) (stream : option Stream) (this : t)
         (calls : list NewInitData),
    processDrmInfos keySystem None this calls = (Returns tt, calls)
    /\ (drmEngine_ this <> None ->
        processDrmInfos keySystem stream this calls
        = (Returns tt, calls ++ initDataFor keySystem stream))
    /\ (drmEngine_ this = None ->
        processDrmInfos keySystem stream this calls
        = match initDataFor keySystem stream with
          | [] => (Returns tt, calls)
          | _ :: _ => (Throws TypeError, calls)
          end).
Proof.
  intros keySystem stream this calls. split; [reflexivity|].
  split; [apply processDrmInfos_calls|].
  intros N. unfold processDrmInfos, initDataFor.
  destruct stream as [stream|]; [|reflexivity].
  rewrite (forEach_raises _ _
             (fun drmInfo =>
                if String.eqb (DrmInfo.keySystem drmInfo) keySystem
                then
                  map (fun i => (InitDataOverride.initDataType i,
                                 InitDataOverride.initData i))
                    match DrmInfo.initData drmInfo with
                    | Some initData => initData
                    | None => []
                    end
                else []) TypeError).
  - now destruct (flat_map _ (drmInfos stream)).
  - intros drmInfo calls'.
    destruct (String.eqb (DrmInfo.keySystem drmInfo) keySystem);
      [|reflexivity].
    destruct (match DrmInfo.initData drmInfo with
              | Some initData => initData
              | None => []
              end) as [|i l]; [reflexivity|].
    cbn [forEach map]. unfold andThen, newInitData. now rewrite N.
Qed.

(** X18: [filterManifestWithRestrictions] throws a [TypeError] for a null
    manifest, before it tests the manifest, and for a filterer that was made
    without a configuration. For a manifest it applies the restrictions
    first; when the engine has DRM information and media keys it then hands
    to [newInitData] the init data that the streams carry for the key system
    of the engine, variant by variant, video before audio; and only then
    does it check the variants as the restrictions left them: it returns
    what applying the restrictions returned when some variant is allowed,
    and otherwise throws after the calls have been made. *)
Theorem filterManifestWithRestrictions_calls_then_checks :
  forall (StreamUtils_applyRestrictions :
            list Variant -> Restrictions -> Resolution -> list Variant * bool)
         (this : t) (calls : list NewInitData),
    filterManifestWithRestrictions StreamUtils_applyRestrictions None this
      calls
    = (Throws TypeError, calls)
    /\ (config_ this = None ->
        forall manifest,
          filterManifestWithRestrictions StreamUtils_applyRestrictions
            manifest this calls
          = (Throws TypeError, calls))
    /\ forall (manifest : Manifest) (config : PlayerConfiguration)
              (vs : list Variant) (tracksChanged : bool),
         config_ this = Some config ->
         StreamUtils_applyRestrictions (variants manifest)
           (restrictions config) (maxHwRes_ this)
         = (vs, tracksChanged) ->
         let new :=
           match drmEngine_ this with
           | Some drmEngine =>
               match getDrmInfo drmEngine with
               | Some currentDrmInfo =>
                   if getMediaKeys drmEngine
                   then
                     flat_map
                       (fun v =>
                          initDataFor (DrmInfo.keySystem currentDrmInfo)
                            (video v)
                          ++ initDataFor (DrmInfo.keySystem currentDrmInfo)
                               (audio v))
                       vs
                   else []
               | None => []
               end
           | None => []
           end in
         let run :=
           filterManifestWithRestrictions StreamUtils_applyRestrictions
             (Some manifest) this calls in
         snd run = calls ++ new
         /\ (existsb unrestricted vs = true ->
             fst run = Returns ({| variants := vs |}, tracksChanged))
         /\ (existsb unrestricted vs = false ->
             exists data,
               fst run
               = Throws (Error CRITICAL MANIFEST RESTRICTIONS_CANNOT_BE_MET
                           (Some data))).
Proof.
  intros applyR this calls. split; [reflexivity|]. split.
  { intros N [manifest|]; [|reflexivity].
    unfold filterManifestWithRestrictions, applyRestrictions.
    now rewrite N. }
  intros manifest config vs tracksChanged Cf E new run.
  assert (Calls :
            match
              match drmEngine_ this with
              | Some drmEngine => getDrmInfo drmEngine
              | None => None
              end, drmEngine_ this
            with
            | Some currentDrmInfo, Some drmEngine =>
                if getMediaKeys drmEngine
                then
                  forEach vs
                    (fun variant =>
                       andThen
                         (processDrmInfos (DrmInfo.keySystem currentDrmInfo)
                            (video variant) this)
                         (fun _ =>
                            processDrmInfos
                              (DrmInfo.keySystem currentDrmInfo)
                              (audio variant) this))
                else ret tt
            | _, _ => ret tt
            end calls
            = (Returns tt, calls ++ new)).
  { unfold new. destruct (drmEngine_ this) as [drmEngine|] eqn:D.
    2:{ unfold ret. now rewrite app_nil_r. }
    destruct (getDrmInfo drmEngine) as [currentDrmInfo|].
    2:{ unfold ret. now rewrite app_nil_r. }
    destruct (getMediaKeys drmEngine).
    2:{ unfold ret. now rewrite app_nil_r. }
    apply forEach_calls. intros v calls'. unfold andThen.
    rewrite !processDrmInfos_calls by congruence.
    now rewrite app_assoc. }
  assert (R : run
              = (match checkRestrictedVariants {| variants := vs |} this with
                 | Returns _ => Returns ({| variants := vs |}, tracksChanged)
                 | Throws e => Throws e
                 end, calls ++ new)).
  { unfold run, filterManifestWithRestrictions, applyRestrictions.
    rewrite Cf, E. cbv beta iota zeta. cbn [variants]. unfold andThen at 1.
    rewrite Calls.
    now destruct (checkRestrictedVariants {| variants := vs |} this). }
  rewrite R. clear R Calls. cbn [fst snd].
  pose proof (checkRestrictedVariants_outcome {| variants := vs |} this) as C.
  cbn [variants] in C.
  split; [reflexivity|]. split.
  - intros F. rewrite F in C. now rewrite C.
  - intros F. rewrite F in C. destruct C as (data & ->). now exists data.
Qed.

End ManifestFiltererProperties.

(** ** The further properties on the scenario *)

Lemma prefetchSegmentsByTime_dispatches_eligible_witness :
  prefetchSegmentsByTime 0 false (Scenario.start 2) = Ok Scenario.loaded
  /\ exists new,
       trace (snd Scenario.loaded) = trace (snd (Scenario.start 2)) ++ new
       /\ forall d reference st p,
            In (Fetch d reference st p) new -> d = 0%nat /\ st = 7%nat.
Proof.
  split; [reflexivity|].
  destruct (prefetchSegmentsByTime_dispatches_eligible (Scenario.start 2)
              Scenario.loaded 0 false [] eq_refl) as (new & T & C).
  exists new. split; [exact T|]. intros d reference st p H.
  destruct (C d reference st p H) as (D & S & _). split; [exact D|exact S].
Defined.

Lemma replaceFetchDispatcher_directs_later_dispatches_witness :
  let s1 := replaceFetchDispatcher 9%nat (Scenario.start 2) in
  exists s' new,
    prefetchSegmentsByTime 0 false s1 = Ok s'
    /\ trace (snd s') = trace (snd (Scenario.start 2)) ++ new
    /\ forall d' reference st p,
         In (Fetch d' reference st p) new -> d' = 9%nat.
Proof.
  intros s1.
  destruct (replaceFetchDispatcher_directs_later_dispatches
              (Scenario.start 2) 9%nat) as [A _].
  destruct (A 0 false _ _ (prefetchSegmentsByTime_closed 0 false s1))
    as (new & T & C).
  exists (scanned 0 false s1), new.
  split; [reflexivity|]. split; [exact T|exact C].
Defined.

Lemma prefetchSegmentsByTime_visits_in_order_witness :
  0 < prefetchLimit_ (fst (Scenario.start 2))
  /\ exists s' seen rest new,
       prefetchSegmentsByTime 0 false (Scenario.start 2) = Ok s'
       /\ [Scenario.R1; Scenario.R2; Scenario.R3] = seen ++ rest
       /\ trace (snd s') = trace (snd (Scenario.start 2)) ++ new
       /\ visits new = seen
       /\ prefetchPosTime_ (fst s') = last (map startTime seen) 0.
Proof.
  split; [reflexivity|].
  destruct (prefetchSegmentsByTime_visits_in_order (Scenario.start 2) 0 false
              Scenario.index [Scenario.R1; Scenario.R2; Scenario.R3]
              eq_refl eq_refl eq_refl)
    as (s' & seen & rest & new & E & S & T & V & P & _).
  exists s', seen, rest, new. auto.
Defined.

Lemma prefetchSegmentsByTime_no_ops_witness :
  0 < prefetchLimit_ (fst Scenario.loaded)
  /\ prefetchLimit_ (fst Scenario.loaded)
     <= Z.of_nat (JsMap.size (segments Scenario.loaded))
  /\ exists s',
       prefetchSegmentsByTime 4 false Scenario.loaded = Ok s'
       /\ segments s' = segments Scenario.loaded
       /\ prefetchPosTime_ (fst s') = prefetchPosTime_ (fst Scenario.loaded).
Proof.
  assert (L : 0 < prefetchLimit_ (fst Scenario.loaded)) by reflexivity.
  assert (F : prefetchLimit_ (fst Scenario.loaded)
              <= Z.of_nat (JsMap.size (segments Scenario.loaded)))
    by (vm_compute; discriminate).
  split; [exact L|]. split; [exact F|].
  destruct (prefetchSegmentsByTime_no_ops Scenario.loaded 4 false L)
    as (_ & _ & _ & Full).
  destruct (Full F) as (s' & aborts & E & S & P & _).
  exists s'. auto.
Defined.

Lemma clearAll_aborts_every_entry_witness :
  wf Scenario.loaded
  /\ clearAll Scenario.loaded
     = (set_prefetchPosTime_ 0
          (set_initSegmentPrefetchMap_ []
             (set_segmentPrefetchMap_ [] (fst Scenario.loaded))),
        emits [Abort 1%nat; Abort 2%nat; Abort 0%nat] (snd Scenario.loaded)).
Proof.
  split; [apply loaded_invariant|].
  destruct (clearAll_aborts_every_entry Scenario.loaded
              (proj1 loaded_invariant)) as (ps & qs & Rp & Rq & E & _).
  rewrite E.
  assert (Ps : ps = [1%nat; 2%nat])
    by (apply map_Some_inj; rewrite <- Rp; reflexivity).
  assert (Qs : qs = [0%nat])
    by (apply map_Some_inj; rewrite <- Rq; reflexivity).
  now rewrite Ps, Qs.
Defined.

Lemma switchStream_adopts_after_clearing_witness :
  wf Scenario.loaded
  /\ stream_ident Alternate.audio
     <> stream_ident (stream_ (fst Scenario.loaded))
  /\ exists s',
       switchStream (Some Alternate.audio) Scenario.loaded = Ok s'
       /\ getStream s' = Alternate.audio
       /\ segments s' = [] /\ inits s' = []
       /\ getLastKnownPosition s' = 0.
Proof.
  assert (N : stream_ident Alternate.audio
              <> stream_ident (stream_ (fst Scenario.loaded)))
    by (vm_compute; discriminate).
  split; [apply loaded_invariant|]. split; [exact N|].
  destruct (switchStream_adopts_after_clearing Scenario.loaded
              (Some Alternate.audio) (proj1 loaded_invariant))
    as (s' & E & _ & _ & C).
  destruct (C Alternate.audio eq_refl N)
    as (ps & qs & _ & _ & _ & G & S & I & P & _).
  exists s'. auto.
Defined.

Lemma prefetchInitSegment_is_not_limited_witness :
  0 < prefetchLimit_ (fst Scenario.loaded)
  /\ JsMap.get init_id {| init_id := 101 |} (inits Scenario.loaded) = None
  /\ exists s',
       prefetchInitSegment {| init_id := 101 |} Scenario.loaded = Ok s'
       /\ segments s' = segments Scenario.loaded
       /\ exists s'',
            getPrefetchedSegment (Init {| init_id := 101 |}) None s'
            = Ok (Some 3%nat, s'').
Proof.
  assert (L : 0 < prefetchLimit_ (fst Scenario.loaded)) by reflexivity.
  assert (A : JsMap.get init_id {| init_id := 101 |} (inits Scenario.loaded)
              = None) by reflexivity.
  split; [exact L|]. split; [exact A|].
  destruct (prefetchInitSegment_is_not_limited Scenario.loaded
              {| init_id := 101 |} L) as [_ B].
  destruct (B ltac:(discriminate) A) as (s' & E & _ & _ & S & G).
  exists s'. split; [exact E|]. split; [exact S|]. exact (G None).
Defined.

Lemma abortPrefetchedSegment_aborts_at_most_once_witness :
  let s' := abortPrefetchedSegment_ (Media Scenario.R1) Scenario.loaded in
  lookup (Media Scenario.R1) Scenario.loaded = Some 1%nat
  /\ snd s' = Operation.abort 1%nat (snd Scenario.loaded)
  /\ abortPrefetchedSegment_ (Media Scenario.R1) s' = s'.
Proof.
  intros s'.
  assert (G : lookup (Media Scenario.R1) Scenario.loaded = Some 1%nat)
    by reflexivity.
  destruct (abortPrefetchedSegment_aborts_at_most_once Scenario.loaded
              (Media Scenario.R1)) as (_ & I & _ & A).
  split; [exact G|]. split; [exact (A 1%nat G)|exact I].
Defined.

Lemma evict_in_steps_witness :
  wf Scenario.loaded
  /\ fst (evict 5 (evict 3 Scenario.loaded)) = fst (evict 5 Scenario.loaded)
  /\ evict 3 (evict 5 Scenario.loaded) = evict 5 Scenario.loaded.
Proof.
  split; [apply loaded_invariant|]. split.
  - exact (proj1 (evict_in_steps Scenario.loaded 3 5
                    (proj1 loaded_invariant))).
  - apply (evict_in_steps Scenario.loaded 5 3 (proj1 loaded_invariant)).
    vm_compute. discriminate.
Defined.

Lemma resetLimit_zero_empties_the_cache_witness :
  wf Scenario.loaded
  /\ exists s',
       resetLimit 0 Scenario.loaded = Ok s'
       /\ segments s' = [] /\ inits s' = []
       /\ prefetchSegmentsByTime 0 false s' = Done [limitMessage] s'
       /\ exists s'',
            prefetchInitSegment Scenario.I1 s' = Done [limitMessage] s''
            /\ inits s'' = [(Scenario.I1, 3%nat)].
Proof.
  split; [apply loaded_invariant|].
  destruct (resetLimit_zero_empties_the_cache Scenario.loaded
              (proj1 loaded_invariant))
    as (s' & ps & qs & E & _ & _ & S & P & _ & Q).
  destruct (Q Scenario.I1) as (s'' & E' & _ & D).
  destruct (D ltac:(discriminate)) as (_ & In' & _).
  exists s'. split; [exact E|]. split; [now rewrite S|].
  split; [now rewrite S|]. split; [exact (P 0 false)|].
  exists s''. split; [exact E'|exact In'].
Defined.

Lemma stream_data_is_delivered_in_order_witness :
  let w3 :=
    Operation.onDataAll [([x03], Rejects); ([x04], Resolves)] 0%nat
      (Operation.setStreamDataCallback (Some 5%nat) 0%nat
         (Operation.onDataAll [([x01], Resolves); ([x02], Resolves)] 0%nat
            Scenario.fetching)) in
  deref 0%nat Scenario.fetching
  = Some (OperationObject.mk 0%nat None (Some 0%nat) [])
  /\ exists payloads o3,
       trace w3 = trace Scenario.fetching ++ map (Deliver 5%nat) payloads
       /\ deref 0%nat w3 = Some o3
       /\ concat (acknowledged payloads [Rejects; Resolves])
          ++ OperationObject.buffered o3
          = [x01; x02; x03; x04]
       /\ OperationObject.buffered o3 = [].
Proof.
  intros w3.
  assert (D : deref 0%nat Scenario.fetching
              = Some (OperationObject.mk 0%nat None (Some 0%nat) []))
    by reflexivity.
  split; [exact D|].
  destruct (stream_data_is_delivered_in_order 0%nat Scenario.fetching _
              5%nat [([x01], Resolves); ([x02], Resolves)]
              [([x03], Rejects); ([x04], Resolves)] D eq_refl)
    as (_ & payloads & o3 & T & D3 & _ & C & L & _).
  exists payloads, o3. split; [exact T|]. split; [exact D3|].
  split; [exact C|]. exact (L [([x03], Rejects)] [x04] eq_refl).
Defined.

Lemma operation_lifecycle_witness :
  let this := fst (Operation.constructor 0%nat Scenario.fetching) in
  let w0 := snd (Operation.constructor 0%nat Scenario.fetching) in
  let w1 := Operation.dispatchFetch (Media Scenario.R2) Scenario.video this
              (Operation.replaceFetchDispatcher 9%nat this w0) in
  deref 0%nat Scenario.fetching
  = Some (OperationObject.mk 0%nat None (Some 0%nat) [])
  /\ deref 0%nat w1 = Some (OperationObject.mk 0%nat None (Some 0%nat) [])
  /\ Operation.getOperation this w1 = Some 1%nat.
Proof.
  intros this w0 w1.
  assert (D : deref 0%nat Scenario.fetching
              = Some (OperationObject.mk 0%nat None (Some 0%nat) []))
    by reflexivity.
  destruct (operation_lifecycle 0%nat 9%nat Scenario.fetching
              (Media Scenario.R2) Scenario.video)
    as (_ & _ & _ & G & K & _).
  split; [exact D|]. split; [exact (K 0%nat _ D)|exact G].
Defined.

Lemma prefetched_requests_are_live_witness :
  run [PrefetchSegmentsByTime 0 false] (initial 2 Scenario.video 0%nat true)
  = Done [] Scenario.loaded
  /\ lookup (Media Scenario.R1) Scenario.loaded = Some 1%nat
  /\ exists reported' p s',
       getPrefetchedSegment (Media Scenario.R1) None Scenario.loaded
       = Done reported' (Some p, s')
       /\ ~ In (Abort p) (trace (snd s')).
Proof.
  assert (G : lookup (Media Scenario.R1) Scenario.loaded = Some 1%nat)
    by reflexivity.
  split; [reflexivity|]. split; [exact G|].
  destruct (prefetched_requests_are_live 2 Scenario.video 0%nat true
              [PrefetchSegmentsByTime 0 false] (Media Scenario.R1) None
              [] Scenario.loaded eq_refl)
    as [A B].
  destruct (A 1%nat G) as (reported' & p & s' & E & _).
  exists reported', p, s'. split; [exact E|]. exact (proj2 (B _ p s' E)).
Defined.

Lemma no_request_is_aborted_twice_witness :
  run [PrefetchSegmentsByTime 0 false; ClearAll]
    (initial 2 Scenario.video 0%nat true)
  = Done [] (clearAll Scenario.loaded)
  /\ In (Abort 1%nat) (trace (snd (clearAll Scenario.loaded)))
  /\ exists d reference st,
       In (Fetch d reference st 1%nat)
         (trace (snd (clearAll Scenario.loaded))).
Proof.
  assert (A : In (Abort 1%nat) (trace (snd (clearAll Scenario.loaded))))
    by (vm_compute; auto 10).
  split; [reflexivity|]. split; [exact A|].
  exact (proj2 (no_request_is_aborted_twice 2 Scenario.video 0%nat true
                  [PrefetchSegmentsByTime 0 false; ClearAll] []
                  (clearAll Scenario.loaded) eq_refl) 1%nat A).
Defined.

Module ManifestFiltererWitnesses.

Import ManifestFilterer.
Import ManifestFiltererProperties.

Lemma checkRestrictedVariants_throws_iff_nothing_is_allowed_witness :
  exists data,
    checkRestrictedVariants Example.restricted Example.filterer
    = Throws (Error CRITICAL MANIFEST RESTRICTIONS_CANNOT_BE_MET (Some data))
    /\ (hasAppRestrictions data = true
        <-> exists v,
              In v (variants Example.restricted)
              /\ allowedByApplication v = false).
Proof.
  pose proof (checkRestrictedVariants_throws_iff_nothing_is_allowed
                Example.restricted Example.filterer) as H.
  destruct (checkRestrictedVariants Example.restricted Example.filterer)
    as [u|e] eqn:E; [discriminate E|].
  destruct H as (_ & data & -> & A). exists data. split; [reflexivity|exact A].
Defined.

Lemma checkRestrictedVariants_reports_keys_witness :
  checkRestrictedVariants Example.restricted Example.filterer
  = Throws (Error CRITICAL MANIFEST RESTRICTIONS_CANNOT_BE_MET
              (Some {| hasAppRestrictions := true;
                       missingKeys := ["cd"%string];
                       restrictedKeyStatuses :=
                         ["output-restricted"%string] |}))
  /\ (In "cd"%string ["cd"%string]
      <-> In "cd"%string (keyIdsOf (variants Example.restricted))
          /\ truthy (keyStatusOf Example.filterer "cd"%string) = false).
Proof.
  split; [reflexivity|].
  destruct (checkRestrictedVariants_reports_keys Example.restricted
              Example.filterer CRITICAL MANIFEST RESTRICTIONS_CANNOT_BE_MET
              {| hasAppRestrictions := true;
                 missingKeys := ["cd"%string];
                 restrictedKeyStatuses := ["output-restricted"%string] |}
              eq_refl) as (_ & _ & M & _).
  exact (M "cd"%string).
Defined.

Lemma checkRestrictedVariants_without_engine_and_global_status_witness :
  checkRestrictedVariants Example.restricted Example.bare
  = Throws (Error CRITICAL MANIFEST RESTRICTIONS_CANNOT_BE_MET
              (Some {| hasAppRestrictions := true;
                       missingKeys := ["ab"%string; "cd"%string];
                       restrictedKeyStatuses := [] |}))
  /\ drmEngine_ Example.bare = None
  /\ forall k,
       In k ["ab"%string; "cd"%string]
       <-> In k (keyIdsOf (variants Example.restricted)).
Proof.
  split; [reflexivity|]. split; [reflexivity|].
  destruct (checkRestrictedVariants_without_engine_and_global_status
              Example.restricted Example.bare CRITICAL MANIFEST
              RESTRICTIONS_CANNOT_BE_MET
              {| hasAppRestrictions := true;
                 missingKeys := ["ab"%string; "cd"%string];
                 restrictedKeyStatuses := [] |}
              eq_refl) as [A _].
  exact (proj2 (A eq_refl)).
Defined.

Lemma filterManifestWithRestrictions_calls_then_checks_witness :
  let run :=
    filterManifestWithRestrictions Example.disallowAll
      (Some Example.manifest) Example.filterer [] in
  snd run = [("cenc"%string, [x01; x02])]
  /\ exists data,
       fst run
       = Throws (Error CRITICAL MANIFEST RESTRICTIONS_CANNOT_BE_MET
                   (Some data)).
Proof.
  intros run.
  destruct (filterManifestWithRestrictions_calls_then_checks
              Example.disallowAll Example.filterer []) as (_ & _ & A).
  destruct (A Example.manifest _ _ _ eq_refl eq_refl) as (C & _ & T).
  split; [exact C|]. exact (T eq_refl).
Defined.

Lemma processDrmInfos_hands_over_matching_init_data_witness :
  drmEngine_ Example.filterer <> None
  /\ processDrmInfos Example.widevine (Some Example.protectedVideo)
       Example.filterer []
     = (Returns tt, [("cenc"%string, [x01; x02])])
  /\ processDrmInfos Example.widevine (Some Example.protectedVideo)
       Example.bare []
     = (Throws TypeError, []).
Proof.
  assert (N : drmEngine_ Example.filterer <> None) by discriminate.
  split; [exact N|].
  destruct (processDrmInfos_hands_over_matching_init_data Example.widevine
              (Some Example.protectedVideo) Example.filterer [])
    as (_ & A & _).
  destruct (processDrmInfos_hands_over_matching_init_data Example.widevine
              (Some Example.protectedVideo) Example.bare [])
    as (_ & _ & B).
  split; [exact (A N)|exact (B eq_refl)].
Defined.

End ManifestFiltererWitnesses.
